(** * Symmetrica: a shallow embedding of the symbolic-algebra core

    The repository ships the Python demo [examples/python_demo.py], which
    drives the engine through its bindings; the engine itself (expression
    model, simplifier, derivative engine, integrator, solver, evaluator and
    LaTeX renderer) is described by the specification.  Every operation
    below is therefore modelled from the specification's words, section by
    section, and the demo's calls are replayed on the model. *)

From Stdlib Require Import ZArith QArith List String Ascii Bool Lia Permutation.
From Stdlib Require Qcanon.
From Stdlib Require Import Reals Qreals Lra DecimalString.
Import ListNotations.
Open Scope string_scope.
Open Scope list_scope.
#[local] Set Warnings "-register-all".

(* ------------------------------------------------------------------ *)
(** ** Errors (spec section 7) and a small error monad *)

(** Modelled from the spec: the error kinds of section 7, with [NoRealRoot]
    for the solver's rejection of complex roots (section 4.6). *)
Inductive Error :=
| DivisionByZero
| UnknownDerivative (name : string)
| UnknownFunction (name : string)
| NonElementaryIntegral
| NotPolynomial
| UnsolvedPolynomial
| InfiniteSolutions
| UnboundSymbol (name : string)
| UndefinedPower
| NoRealRoot.

Inductive Result (A : Type) :=
| Ok (a : A)
| Err (e : Error).
Arguments Ok {A} a.
Arguments Err {A} e.

Definition bind {A B} (r : Result A) (k : A -> Result B) : Result B :=
  match r with
  | Ok a => k a
  | Err e => Err e
  end.

Notation "'let*' x := r 'in' k" := (bind r (fun x => k))
  (at level 200, x name, r at level 100, k at level 200).

Fixpoint mapM {A B} (f : A -> Result B) (l : list A) : Result (list B) :=
  match l with
  | [] => Ok []
  | x :: r => let* y := f x in let* ys := mapM f r in Ok (y :: ys)
  end.

(* ------------------------------------------------------------------ *)
(** ** Expression model (spec sections 3 and 4.2) *)

(** Modelled from the spec: the expression tree.  The denominator of a
    [Rational] is a [positive], so "denominator > 0" holds by type. *)
Inductive Expr :=
| Symbol (name : string)
| Integer (value : Z)
| Rational (numerator : Z) (denominator : positive)
| Add (terms : list Expr)
| Mul (factors : list Expr)
| Pow (base exponent : Expr)
| Func (name : string) (argument : Expr).

(** Induction principle that sees the operands of [Add] and [Mul]. *)
Section ExprInd.
  Variable P : Expr -> Prop.
  Hypothesis HSym : forall s, P (Symbol s).
  Hypothesis HInt : forall z, P (Integer z).
  Hypothesis HRat : forall n d, P (Rational n d).
  Hypothesis HAdd : forall l, Forall P l -> P (Add l).
  Hypothesis HMul : forall l, Forall P l -> P (Mul l).
  Hypothesis HPow : forall b e, P b -> P e -> P (Pow b e).
  Hypothesis HFunc : forall f a, P a -> P (Func f a).

Fixpoint Expr_ind' (e : Expr) : P e :=
    let fix go (l : list Expr) : Forall P l :=
      match l with
      | [] => Forall_nil P
      | x :: r => Forall_cons x (Expr_ind' x) (go r)
      end in
    match e with
    | Symbol s => HSym s
    | Integer z => HInt z
    | Rational n d => HRat n d
    | Add l => HAdd l (go l)
    | Mul l => HMul l (go l)
    | Pow b x => HPow b x (Expr_ind' b) (Expr_ind' x)
    | Func f a => HFunc f a (Expr_ind' a)
    end.
End ExprInd.

Definition integer (z : Z) : Expr := Integer z.
Definition add (a b : Expr) : Expr := Add [a; b].
Definition mul (a b : Expr) : Expr := Mul [a; b].
Definition pow (a b : Expr) : Expr := Pow a b.
Definition sub (a b : Expr) : Expr := Add [a; Mul [Integer (-1); b]].
Definition div (a b : Expr) : Expr := Mul [a; Pow b (Integer (-1))].
Definition sin (e : Expr) : Expr := Func "sin" e.
Definition cos (e : Expr) : Expr := Func "cos" e.
Definition exp (e : Expr) : Expr := Func "exp" e.
Definition ln (e : Expr) : Expr := Func "ln" e.

(* ------------------------------------------------------------------ *)
(** ** Numeric kernel (spec section 4.1): exact reduced rationals *)

(** Numbers are kept reduced ([Qred]), so equal values are equal terms. *)
Definition qadd (a b : Q) : Q := Qred (a + b).
Definition qmul (a b : Q) : Q := Qred (a * b).

(** A reduced rational as a literal: an [Integer] when the denominator is
    one, a [Rational] otherwise. *)
Definition mk_num (q : Q) : Expr :=
  let r := Qred q in
  match Qden r with
  | xH => Integer (Qnum r)
  | d => Rational (Qnum r) d
  end.

(** [rational n d] of section 6: fails on a zero denominator. *)
Definition rational (n d : Z) : Result Expr :=
  match d with
  | Z0 => Err DivisionByZero
  | Zpos p => Ok (mk_num (n # p))
  | Zneg p => Ok (mk_num ((- n) # p))
  end.

Definition num_val (e : Expr) : option Q :=
  match e with
  | Integer z => Some (inject_Z z)
  | Rational n d => Some (n # d)
  | _ => None
  end.

Definition is_num (e : Expr) : bool :=
  match num_val e with Some _ => true | None => false end.

(** Integer power of a rational; [0] to a negative power is undefined. *)
Definition num_pow (q : Q) (n : Z) : Result Q :=
  if Qeq_bool q 0 && (n <? 0)%Z then Err UndefinedPower
  else Ok (Qred (Qpower q n)).

(* ------------------------------------------------------------------ *)
(** ** Canonical total order (spec section 4.2)

    Numeric constants first (by value; equal values are ordered by their
    representation), then symbols (lexicographic by name), then compound
    expressions by type and then structure: [Pow] by base then exponent,
    [Func] by name then argument, [Mul] and [Add] lexicographically on
    their operand lists. *)

Definition rank (e : Expr) : nat :=
  match e with
  | Integer _ | Rational _ _ => 0
  | Symbol _ => 1
  | Pow _ _ => 2
  | Mul _ => 3
  | Add _ => 4
  | Func _ _ => 5
  end.

Definition lex (c1 : comparison) (c2 : comparison) : comparison :=
  match c1 with Eq => c2 | _ => c1 end.

Fixpoint list_cmp {A} (cmp : A -> A -> comparison) (l1 l2 : list A) : comparison :=
  match l1, l2 with
  | [], [] => Eq
  | [], _ :: _ => Lt
  | _ :: _, [] => Gt
  | x :: r1, y :: r2 => lex (cmp x y) (list_cmp cmp r1 r2)
  end.

(** Representation of a numeric literal used to break ties of value. *)
Definition num_tag (e : Expr) : nat * (Z * positive) :=
  match e with
  | Integer z => (0%nat, (z, xH))
  | Rational n d => (1%nat, (n, d))
  | _ => (2%nat, (0%Z, xH))
  end.

Definition num_repr_cmp (a b : nat * (Z * positive)) : comparison :=
  lex (Nat.compare (fst a) (fst b))
      (lex (Z.compare (fst (snd a)) (fst (snd b)))
           (Pos.compare (snd (snd a)) (snd (snd b)))).

Fixpoint expr_cmp (a b : Expr) : comparison :=
  match a, b with
  | (Integer _ | Rational _ _), (Integer _ | Rational _ _) =>
      match num_val a, num_val b with
      | Some p, Some q => lex (Qcompare p q) (num_repr_cmp (num_tag a) (num_tag b))
      | _, _ => Eq
      end
  | Symbol s, Symbol t => String.compare s t
  | Pow b1 e1, Pow b2 e2 => lex (expr_cmp b1 b2) (expr_cmp e1 e2)
  | Mul l1, Mul l2 => list_cmp expr_cmp l1 l2
  | Add l1, Add l2 => list_cmp expr_cmp l1 l2
  | Func f x, Func g y => lex (String.compare f g) (expr_cmp x y)
  | _, _ => Nat.compare (rank a) (rank b)
  end.

(** Insertion sort under the canonical order. *)
Fixpoint insert_expr (x : Expr) (l : list Expr) : list Expr :=
  match l with
  | [] => [x]
  | y :: r => match expr_cmp x y with
              | Gt => y :: insert_expr x r
              | _ => x :: y :: r
              end
  end.

Fixpoint sort_exprs (l : list Expr) : list Expr :=
  match l with
  | [] => []
  | x :: r => insert_expr x (sort_exprs r)
  end.

(** Merge [(key, number)] into an association list sorted strictly by key;
    the numbers of equal keys are summed. *)
Fixpoint merge_ins (k : Expr) (c : Q) (m : list (Expr * Q)) : list (Expr * Q) :=
  match m with
  | [] => [(k, c)]
  | (k', c') :: r =>
      match expr_cmp k k' with
      | Lt => (k, c) :: m
      | Eq => (k', qadd c c') :: r
      | Gt => (k', c') :: merge_ins k c r
      end
  end.

Definition collect (l : list (Expr * Q)) : list (Expr * Q) :=
  fold_right (fun p m => merge_ins (fst p) (snd p) m) [] l.

(* ------------------------------------------------------------------ *)
(** ** Simplifier (spec section 4.3) *)

Definition expr_eqb (a b : Expr) : bool :=
  match expr_cmp a b with Eq => true | _ => false end.

Fixpoint nodupb (l : list Expr) : bool :=
  match l with
  | [] => true
  | k :: r => negb (existsb (expr_eqb k) r) && nodupb r
  end.

(** Removal of repeated elements (the last occurrence is kept). *)
Fixpoint dedup (l : list Expr) : list Expr :=
  match l with
  | [] => []
  | a :: r => if existsb (expr_eqb a) r then dedup r else a :: dedup r
  end.

(** Number of nodes of a tree. *)
Fixpoint size (e : Expr) : nat :=
  match e with
  | Add l | Mul l => S (list_sum (map size l))
  | Pow b x => S (size b + size x)
  | Func _ a => S (size a)
  | _ => 1
  end.

Definition is_zero_num (e : Expr) : bool :=
  match num_val e with Some q => Qeq_bool q 0 | None => false end.

(** Power identities (step 5): [x^0 = 1], [x^1 = x], a numeric base to an
    integer exponent is folded, and [(x^a)^n = x^(a*n)] when [a] is
    numeric and [n] an integer.  [0^0] and [0] to a negative power fail
    with [UndefinedPower] (sections 3 and 7). *)
Fixpoint mk_pow (b e : Expr) {struct b} : Result Expr :=
  match e with
  | Integer 0 => if is_zero_num b then Err UndefinedPower else Ok (Integer 1)
  | Integer 1 => Ok b
  | Integer n =>
      match b with
      | Integer _ | Rational _ _ =>
          match num_val b with
          | Some q => let* r := num_pow q n in Ok (mk_num r)
          | None => Ok (Pow b e)
          end
      | Pow b' a =>
          match num_val a with
          | Some qa => mk_pow b' (mk_num (qmul qa (inject_Z n)))
          | None => Ok (Pow b e)
          end
      | _ => Ok (Pow b e)
      end
  | Rational m _ => if is_zero_num b && (m <? 0)%Z then Err UndefinedPower else Ok (Pow b e)
  | _ => Ok (Pow b e)
  end.

(** Step 2: flatten nested operands of the same kind. *)
Definition flatten_add (l : list Expr) : list Expr :=
  flat_map (fun t => match t with Add ts => ts | _ => [t] end) l.

Definition flatten_mul (l : list Expr) : list Expr :=
  flat_map (fun t => match t with Mul fs => fs | _ => [t] end) l.

(** Step 3: the numeric operands, combined. *)
Definition num_sum (l : list Expr) : Q :=
  fold_right (fun t acc => match num_val t with Some q => qadd q acc | None => acc end) 0 l.

Definition num_prod (l : list Expr) : Q :=
  fold_right (fun t acc => match num_val t with Some q => qmul q acc | None => acc end) 1 l.

Definition non_nums (l : list Expr) : list Expr := filter (fun t => negb (is_num t)) l.

Definition mul_of (fs : list Expr) : Expr :=
  match fs with [f] => f | _ => Mul fs end.

Definition is_add (e : Expr) : bool :=
  match e with Add _ => true | _ => false end.

Definition is_mul (e : Expr) : bool :=
  match e with Mul _ => true | _ => false end.

(** Step 4 for [Add]: a term is its numeric coefficient times its
    non-numeric factor structure, the key of the term. *)
Definition split_term (t : Expr) : Expr * Q :=
  match t with
  | Mul (c :: fs) => match num_val c with
                     | Some q => (mul_of fs, q)
                     | None => (t, 1)
                     end
  | _ => (t, 1)
  end.

Definition term_key (t : Expr) : Expr := fst (split_term t).

Definition rebuild_term (p : Expr * Q) : Expr :=
  let (k, c) := p in
  if Qeq_bool c 1 then k
  else match k with
       | Mul fs => Mul (mk_num c :: fs)
       | _ => Mul [mk_num c; k]
       end.

(** One round of like-term collection over the non-numeric terms:
    coefficients of equal keys are summed, zero terms dropped, and a sum
    that comes back with coefficient one is flattened again. *)
Definition add_round (ts : list Expr) : list Expr :=
  flatten_add (map rebuild_term
    (filter (fun p => negb (Qeq_bool (snd p) 0)) (collect (map split_term ts)))).

Definition key_weight (ts : list Expr) : nat :=
  list_sum (map (fun t => size (term_key t)) ts).

(** Rounds are repeated until no two terms share a key; [fuel] bounds the
    number of rounds (the bound used below is always enough). *)
Fixpoint add_loop (fuel : nat) (s : Q) (ts : list Expr) : Q * list Expr :=
  match fuel with
  | O => (s, ts)
  | S n =>
      let rs := add_round ts in
      let s' := qadd s (num_sum rs) in
      let ts' := non_nums rs in
      if nodupb (map term_key ts') then (s', ts') else add_loop n s' ts'
  end.

(** Steps 3 and 6: the constant first, terms sorted, a one-operand sum is
    its operand and an empty sum is zero. *)
Definition build_add (s : Q) (ts : list Expr) : Expr :=
  match sort_exprs ((if Qeq_bool s 0 then [] else [mk_num s]) ++ ts) with
  | [] => Integer 0
  | [t] => t
  | ts' => Add ts'
  end.

Definition norm_add (l : list Expr) : Expr :=
  let l' := flatten_add l in
  let ts := non_nums l' in
  let r := add_loop (S (S (key_weight ts))) (num_sum l') ts in
  build_add (fst r) (snd r).

(** Step 4 for [Mul]: a factor is a power of its base ([b^e], or [f] as
    [f^1]); the factors with the same base are merged, exponents summed. *)
Definition base_of (f : Expr) : Expr :=
  match f with Pow b _ => b | _ => f end.

Definition exp_of (f : Expr) : Expr :=
  match f with Pow _ e => e | _ => Integer 1 end.

Definition bases (fs : list Expr) : list Expr := dedup (sort_exprs (map base_of fs)).

Definition exps_of (k : Expr) (fs : list Expr) : list Expr :=
  map exp_of (filter (fun f => expr_eqb (base_of f) k) fs).

(** One round of like-factor collection over the non-numeric factors; a
    merged power may be a number, or a product that is flattened again. *)
Definition mul_round (fs : list Expr) : Result (list Expr) :=
  let* rs := mapM (fun k => mk_pow k (norm_add (exps_of k fs))) (bases fs) in
  Ok (flatten_mul rs).

Definition base_weight (fs : list Expr) : nat :=
  list_sum (map (fun f => size (base_of f)) fs).

(** Rounds are repeated until no two factors share a base, or the
    coefficient becomes zero. *)
Fixpoint mul_loop (fuel : nat) (p : Q) (fs : list Expr) : Result (Q * list Expr) :=
  match fuel with
  | O => Ok (p, fs)
  | S n =>
      let* rs := mul_round fs in
      let p' := qmul p (num_prod rs) in
      let fs' := non_nums rs in
      if Qeq_bool p' 0 then Ok (p', [])
      else if nodupb (map base_of fs') then Ok (p', fs')
      else mul_loop n p' fs'
  end.

(** Steps 3 and 6: a zero coefficient makes the product zero, a unit
    coefficient is dropped, the coefficient comes first, the factors are
    sorted, and a one-operand product is its operand. *)
Definition build_mul (p : Q) (fs : list Expr) : Expr :=
  if Qeq_bool p 0 then Integer 0
  else if Qeq_bool p 1 then
    match sort_exprs fs with
    | [] => Integer 1
    | [t] => t
    | ts => Mul ts
    end
  else
    match sort_exprs fs with
    | [] => mk_num p
    | ts => Mul (mk_num p :: ts)
    end.

Definition norm_mul (l : list Expr) : Result Expr :=
  let l' := flatten_mul l in
  let p := num_prod l' in
  if Qeq_bool p 0 then Ok (Integer 0)
  else
    let fs := non_nums l' in
    let* r := mul_loop (S (S (base_weight fs))) p fs in
    Ok (build_mul (fst r) (snd r)).

(** Modelled from the spec: the bottom-up rewrite pass of section 4.3
    (step 1 is the recursion); it fails only with [UndefinedPower]. *)
Fixpoint simplify (e : Expr) : Result Expr :=
  match e with
  | Symbol s => Ok (Symbol s)
  | Integer z => Ok (Integer z)
  | Rational n d => Ok (mk_num (n # d))
  | Add l => let* l' := mapM simplify l in Ok (norm_add l')
  | Mul l => let* l' := mapM simplify l in norm_mul l'
  | Pow b x => let* b' := simplify b in let* x' := simplify x in mk_pow b' x'
  | Func f a => let* a' := simplify a in Ok (Func f a')
  end.

(* ------------------------------------------------------------------ *)
(** ** Derivative engine (spec section 4.4) *)

(** [free_of v e]: [e] does not contain the symbol [v]. *)
Fixpoint free_of (v : string) (e : Expr) : bool :=
  match e with
  | Symbol s => negb (String.eqb s v)
  | Integer _ | Rational _ _ => true
  | Add l | Mul l => forallb (free_of v) l
  | Pow b x => free_of v b && free_of v x
  | Func _ a => free_of v a
  end.

(** Product rule for N factors: the sum over "differentiate one factor,
    keep the rest". *)
Fixpoint prod_rule (pre l ds : list Expr) : list Expr :=
  match l, ds with
  | f :: l', d :: ds' => Mul (pre ++ d :: l') :: prod_rule (pre ++ [f]) l' ds'
  | _, _ => []
  end.

(** Modelled from the spec: the structural derivative of section 4.4,
    before simplification. *)
Fixpoint deriv (v : string) (e : Expr) : Result Expr :=
  match e with
  | Symbol s => Ok (if String.eqb s v then Integer 1 else Integer 0)
  | Integer _ | Rational _ _ => Ok (Integer 0)
  | Add l => let* ds := mapM (deriv v) l in Ok (Add ds)
  | Mul l => let* ds := mapM (deriv v) l in Ok (Add (prod_rule [] l ds))
  | Pow b x =>
      if free_of v x then
        if free_of v b then Ok (Integer 0)
        else let* db := deriv v b in
             Ok (Mul [x; Pow b (Add [x; Integer (-1)]); db])
      else if free_of v b then
        let* dx := deriv v x in Ok (Mul [Pow b x; ln b; dx])
      else
        let* db := deriv v b in
        let* dx := deriv v x in
        Ok (Mul [Pow b x; Add [Mul [dx; ln b]; Mul [x; db; Pow b (Integer (-1))]]])
  | Func f a =>
      let* da := deriv v a in
      if String.eqb f "sin" then Ok (Mul [cos a; da])
      else if String.eqb f "cos" then Ok (Mul [Integer (-1); sin a; da])
      else if String.eqb f "exp" then Ok (Mul [exp a; da])
      else if String.eqb f "ln" then Ok (Mul [da; Pow a (Integer (-1))])
      else Err (UnknownDerivative f)
  end.

(** Modelled from the spec: [diff(e, var)], the simplified derivative. *)
Definition diff (e : Expr) (v : string) : Result Expr :=
  let* d := deriv v e in simplify d.

(* ------------------------------------------------------------------ *)
(** ** Polynomial view (shared by the integrator and the solver) *)

(** Coefficient lists [c0; c1; ...; cn] (lowest degree first): sum,
    scaling, product and natural power, built as uncanonicalized trees. *)
Fixpoint cadd (a b : list Expr) : list Expr :=
  match a, b with
  | [], _ => b
  | _, [] => a
  | c :: a', d :: b' => Add [c; d] :: cadd a' b'
  end.

Definition cscale (c : Expr) (l : list Expr) : list Expr := map (fun d => Mul [c; d]) l.

Fixpoint cmul (a b : list Expr) : list Expr :=
  match a with
  | [] => []
  | c :: a' => cadd (cscale c b) (Integer 0 :: cmul a' b)
  end.

Definition cpow (a : list Expr) (n : nat) : list Expr := Nat.iter n (cmul a) [Integer 1].

(** Coefficients of [e] seen as a polynomial in [v] (section 4.6): a tree
    free of [v] is a constant, [v] has degree one, and sums, products and
    natural powers combine coefficient lists; anything else is
    [NotPolynomial]. *)
Fixpoint pcoeffs (v : string) (e : Expr) : Result (list Expr) :=
  if free_of v e then Ok [e] else
  match e with
  | Symbol _ => Ok [Integer 0; Integer 1]
  | Add l => let* cs := mapM (pcoeffs v) l in Ok (fold_right cadd [] cs)
  | Mul l => let* cs := mapM (pcoeffs v) l in Ok (fold_right cmul [Integer 1] cs)
  | Pow b (Integer n) =>
      if (0 <=? n)%Z then let* cb := pcoeffs v b in Ok (cpow cb (Z.to_nat n))
      else Err NotPolynomial
  | _ => Err NotPolynomial
  end.

(** Trailing zero coefficients are dropped: the degree is that of the
    highest power present. *)
Fixpoint strip (l : list Expr) : list Expr :=
  match l with
  | [] => []
  | c :: r => match strip r with
              | [] => match c with Integer 0 => [] | _ => [c] end
              | r' => c :: r'
              end
  end.

(** Canonical coefficients [c0; c1; ...; cn] of a polynomial in [v]. *)
Definition poly_coeffs (v : string) (e : Expr) : Result (list Expr) :=
  let* cs := pcoeffs v e in
  let* cs' := mapM simplify cs in
  match strip cs' with
  | [] => Ok [Integer 0]
  | l => Ok l
  end.

(* ------------------------------------------------------------------ *)
(** ** Integrator (spec section 4.5) *)





(* ------------------------------------------------------------------ *)
(** ** Equation solver (spec section 4.6)

    Policy for complex roots (the spec leaves it to configuration): they
    are rejected with [NoRealRoot]. *)

Definition is_zero (e : Expr) : bool :=
  match e with Integer 0 => true | _ => false end.

(** [-a/b], canonicalized. *)
Definition neg_div (a b : Expr) : Result Expr :=
  simplify (Mul [Integer (-1); a; Pow b (Integer (-1))]).

(** Exact square root of a non-negative rational, when it is rational. *)
Definition qsqrt (q : Q) : option Q :=
  let q := Qred q in
  let n := Qnum q in
  let d := Zpos (Qden q) in
  let r := Z.sqrt n in
  let t := Z.sqrt d in
  if (0 <=? n)%Z && (r * r =? n)%Z && (t * t =? d)%Z then Some (r # Z.to_pos t) else None.

(** The quadratic formula for [a v^2 + b v + c]. *)
Definition quad_roots (a b c : Expr) : Result (list Expr) :=
  let root (s : Expr) :=
    simplify (Mul [Add [Mul [Integer (-1); b]; s]; Pow (Mul [Integer 2; a]) (Integer (-1))]) in
  let two (s : Expr) :=
    let* r1 := root (Mul [Integer (-1); s]) in let* r2 := root s in Ok [r1; r2] in
  let* disc := simplify (Add [Pow b (Integer 2); Mul [Integer (-4); a; c]]) in
  match num_val disc with
  | Some q =>
      if Qeq_bool q 0 then let* r := root (Integer 0) in Ok [r]
      else if (Qnum q <? 0)%Z then Err NoRealRoot
      else match qsqrt q with
           | Some r => two (mk_num r)
           | None => two (Pow disc (Rational 1 2))
           end
  | None => two (Pow disc (Rational 1 2))
  end.

(** Degree 3 and more, rational coefficients: rational-root search. *)
Fixpoint all_num (cs : list Expr) : option (list Q) :=
  match cs with
  | [] => Some []
  | c :: r => match num_val c, all_num r with
              | Some q, Some qs => Some (q :: qs)
              | _, _ => None
              end
  end.

(** Value of [c0 + c1 r + ... + cn r^n]. *)
Definition peval (cs : list Q) (r : Q) : Q :=
  fold_right (fun c acc => Qred (c + r * acc)) 0%Q cs.

(** Synthetic division by [(v - r)], coefficients from the highest. *)
Fixpoint synth (r acc : Q) (l : list Q) : list Q :=
  match l with
  | [] | [_] => []
  | a :: l' => let b := Qred (a + r * acc) in b :: synth r b l'
  end.

Definition deflate (cs : list Q) (r : Q) : list Q :=
  match rev cs with
  | [] => []
  | an :: rest => rev (an :: synth r an rest)
  end.

Definition divisors (n : Z) : list Z :=
  filter (fun k => (Z.rem n k =? 0)%Z) (map Z.of_nat (seq 1 (Z.to_nat (Z.abs n)))).

(** Candidates [+-p/q], [p] dividing the constant and [q] the leading
    coefficient of the polynomial scaled to integer coefficients. *)
Definition candidates (cs : list Q) : list Q :=
  let l := fold_right (fun c acc => Pos.mul (Qden c) acc) 1%positive cs in
  let ints := map (fun c => Qnum (Qred (c * (Zpos l # 1)))) cs in
  let a0 := hd 0%Z ints in
  let an := last ints 0%Z in
  flat_map (fun p => flat_map (fun q => [Qred (p # Z.to_pos q); Qred (- p # Z.to_pos q)])
                              (divisors an))
           (divisors a0).

Fixpoint rr_roots (fuel : nat) (cs : list Q) : Result (list Expr) :=
  match fuel with
  | O => Err UnsolvedPolynomial
  | S f =>
      match cs with
      | [] | [_] => Ok []
      | [c0; c1] => Ok [mk_num (- c0 / c1)]
      | [c0; c1; c2] => quad_roots (mk_num c2) (mk_num c1) (mk_num c0)
      | c0 :: rest =>
          if Qeq_bool c0 0 then let* rs := rr_roots f rest in Ok (Integer 0 :: rs)
          else match find (fun r => Qeq_bool (peval cs r) 0) (candidates cs) with
               | Some r => let* rs := rr_roots f (deflate cs r) in Ok (mk_num r :: rs)
               | None => Err UnsolvedPolynomial
               end
      end
  end.

(** Modelled from the spec: [solve(e, var)] on the simplified [e]. *)
Definition solve (e : Expr) (v : string) : Result (list Expr) :=
  let* s := simplify e in
  let* cs := poly_coeffs v s in
  match cs with
  | [c0] => if is_zero c0 then Err InfiniteSolutions else Ok []
  | [c0; c1] => let* r := neg_div c0 c1 in Ok [r]
  | [c0; c1; c2] => quad_roots c2 c1 c0
  | _ => match all_num cs with
         | Some qs => let* rs := rr_roots (List.length qs) qs in Ok (dedup rs)
         | None => Err UnsolvedPolynomial
         end
  end.

(* ------------------------------------------------------------------ *)
(** ** Substitution and numeric evaluation (spec section 4.7) *)

(** Modelled from the spec: leaf replacement, uncanonicalized. *)
Fixpoint subs (e : Expr) (v : string) (r : Expr) : Expr :=
  match e with
  | Symbol s => if String.eqb s v then r else e
  | Integer _ | Rational _ _ => e
  | Add l => Add (map (fun t => subs t v r) l)
  | Mul l => Mul (map (fun t => subs t v r) l)
  | Pow b x => Pow (subs b v r) (subs x v r)
  | Func f a => Func f (subs a v r)
  end.

(** The evaluator is parametric in the floating-point type: conversion of
    an exact rational, the arithmetic operations and the real-valued
    definitions of the named functions. *)
Section Evalf.
Variable F : Type.
Variable of_Q : Q -> F.
Variables fadd fmul fpow : F -> F -> F.
Variables fsin fcos fexp fln : F -> F.

(** The table of real-valued definitions. *)
Definition fun_table (f : string) : option (F -> F) :=
  if String.eqb f "sin" then Some fsin
  else if String.eqb f "cos" then Some fcos
  else if String.eqb f "exp" then Some fexp
  else if String.eqb f "ln" then Some fln
  else None.

(** Modelled from the spec: the post-order numeric collapse [evalf]. *)
Fixpoint evalf (e : Expr) : Result F :=
  match e with
  | Symbol s => Err (UnboundSymbol s)
  | Integer z => Ok (of_Q (inject_Z z))
  | Rational n d => Ok (of_Q (n # d))
  | Add l => let* vs := mapM evalf l in Ok (fold_right fadd (of_Q 0%Q) vs)
  | Mul l => let* vs := mapM evalf l in Ok (fold_right fmul (of_Q 1%Q) vs)
  | Pow b x => let* vb := evalf b in let* vx := evalf x in Ok (fpow vb vx)
  | Func f a =>
      let* va := evalf a in
      match fun_table f with
      | Some g => Ok (g va)
      | None => Err (UnknownFunction f)
      end
  end.
End Evalf.

(** A free symbol occurs in [e]. *)
Fixpoint has_symbol (e : Expr) : bool :=
  match e with
  | Symbol _ => true
  | Integer _ | Rational _ _ => false
  | Add l | Mul l => existsb has_symbol l
  | Pow b a => has_symbol b || has_symbol a
  | Func _ a => has_symbol a
  end.

(** Every function name of [e] is in the evaluation table. *)
Definition known_fun (f : string) : bool :=
  String.eqb f "sin" || String.eqb f "cos" || String.eqb f "exp" || String.eqb f "ln".

Fixpoint known_funs (e : Expr) : bool :=
  match e with
  | Symbol _ | Integer _ | Rational _ _ => true
  | Add l | Mul l => forallb known_funs l
  | Pow b a => known_funs b && known_funs a
  | Func f a => known_fun f && known_funs a
  end.


(** An environment with [v] bound to [w]. *)
Definition update (env : string -> R) (v : string) (w : R) : string -> R :=
  fun s => if String.eqb s v then w else env s.

(** A polynomial in [v] alone: numbers, [v], sums, products and powers
    with a positive integer exponent. *)
Fixpoint poly_in (v : string) (e : Expr) : bool :=
  match e with
  | Symbol s => String.eqb s v
  | Integer _ | Rational _ _ => true
  | Add l | Mul l => forallb (poly_in v) l
  | Pow b (Integer k) => poly_in v b && (1 <=? k)%Z
  | _ => false
  end.

(** Every symbol of [e] is [v]. *)
Fixpoint only_sym (v : string) (e : Expr) : bool :=
  match e with
  | Symbol s => String.eqb s v
  | Integer _ | Rational _ _ => true
  | Add l | Mul l => forallb (only_sym v) l
  | Pow b a => only_sym v b && only_sym v a
  | Func _ a => only_sym v a
  end.

(* ------------------------------------------------------------------ *)
(** ** LaTeX renderer (spec section 4.8) *)

Open Scope string_scope.

(** Precedence of the node at the root of a tree: [Add] 1, [Mul] (and a
    fraction) 2, [Pow] 3, atoms 4; a negative literal binds like a sum. *)
Definition prec (e : Expr) : nat :=
  match e with
  | Add _ => 1
  | Mul _ => 2
  | Pow _ _ => 3
  | Integer z => if (z <? 0)%Z then 1 else 4
  | Rational n _ => if (n <? 0)%Z then 1 else 2
  | Symbol _ | Func _ _ => 4
  end.

Definition wrap (b : bool) (s : string) : string :=
  if b then "\left(" ++ s ++ "\right)" else s.

Definition latex_Z (z : Z) : string := NilZero.string_of_int (Z.to_int z).

(** A rational renders as [\frac{num}{den}], its sign in front. *)
Definition latex_num (q : Q) : string :=
  let q := Qred q in
  match Qden q with
  | xH => latex_Z (Qnum q)
  | d => (if (Qnum q <? 0)%Z then "-" else "") ++
         "\frac{" ++ latex_Z (Z.abs (Qnum q)) ++ "}{" ++ latex_Z (Zpos d) ++ "}"
  end.

Definition latex_fun (f : string) : string :=
  if String.eqb f "sin" then "\sin"
  else if String.eqb f "cos" then "\cos"
  else if String.eqb f "exp" then "\exp"
  else if String.eqb f "ln" then "\ln"
  else "\operatorname{" ++ f ++ "}".

(** A product body: the numeric coefficient [q] (omitted when it is one,
    a bare minus sign when it is minus one) then the factors, separated
    by one space (implicit multiplication); a factor is parenthesized
    when its precedence is lower than that of [Mul]. *)
Definition mul_body (q : Q) (fs : list string) : string :=
  (if Qeq_bool q 1 then "" else if Qeq_bool q (-1) then "-" else latex_num q ++ " ") ++
  String.concat " " fs.

(** Modelled from the spec: [to_latex], post-order; in a sum every term
    after the first with a negative coefficient renders as a subtraction. *)
Fixpoint to_latex (e : Expr) : string :=
  let factor (f : Expr) (s : string) := wrap (Nat.ltb (prec f) 2) s in
  match e with
  | Symbol s => s
  | Integer z => latex_Z z
  | Rational n d => latex_num (n # d)
  | Add [] => "0"
  | Add (t :: ts) =>
      to_latex t ++
      String.concat "" (map (fun t =>
        match t with
        | Integer z => if (z <? 0)%Z then " - " ++ latex_Z (- z) else " + " ++ latex_Z z
        | Rational n d => if (n <? 0)%Z then " - " ++ latex_num (- n # d)
                          else " + " ++ latex_num (n # d)
        | Mul (c :: fs) =>
            match num_val c with
            | Some q =>
                let body := map (fun f => factor f (to_latex f)) fs in
                if (Qnum q <? 0)%Z then " - " ++ mul_body (- q) body else " + " ++ mul_body q body
            | None => " + " ++ String.concat " " (map (fun f => factor f (to_latex f)) (c :: fs))
            end
        | _ => " + " ++ factor t (to_latex t)
        end) ts)
  | Mul (c :: fs) =>
      match num_val c with
      | Some q => mul_body q (map (fun f => factor f (to_latex f)) fs)
      | None => String.concat " " (map (fun f => factor f (to_latex f)) (c :: fs))
      end
  | Mul [] => "1"
  | Pow b x => wrap (Nat.leb (prec b) 3) (to_latex b) ++ "^{" ++ to_latex x ++ "}"
  | Func f a => latex_fun f ++ "\left(" ++ to_latex a ++ "\right)"
  end.

Open Scope list_scope.

(** Two trees that differ only in the order of the operands of their sums
    and products, at any depth ("built in different syntactic orders"). *)
Inductive reorder : Expr -> Expr -> Prop :=
| ro_sym s : reorder (Symbol s) (Symbol s)
| ro_int z : reorder (Integer z) (Integer z)
| ro_rat n d : reorder (Rational n d) (Rational n d)
| ro_add l1 l2 l3 : Forall2 reorder l1 l2 -> Permutation l2 l3 -> reorder (Add l1) (Add l3)
| ro_mul l1 l2 l3 : Forall2 reorder l1 l2 -> Permutation l2 l3 -> reorder (Mul l1) (Mul l3)
| ro_pow b1 b2 e1 e2 : reorder b1 b2 -> reorder e1 e2 -> reorder (Pow b1 e1) (Pow b2 e2)
| ro_func f a1 a2 : reorder a1 a2 -> reorder (Func f a1) (Func f a2).

Definition x := Symbol "x".
Definition y := Symbol "y".

(* ------------------------------------------------------------------ *)
(** ** The canonical order is a total order *)

Lemma lex_eq c1 c2 : lex c1 c2 = Eq <-> c1 = Eq /\ c2 = Eq.
Proof. destruct c1, c2; simpl; intuition discriminate. Qed.

Lemma lex_lt c1 c2 : lex c1 c2 = Lt <-> c1 = Lt \/ (c1 = Eq /\ c2 = Lt).
Proof. destruct c1, c2; simpl; intuition discriminate. Qed.

Lemma lex_opp c1 c2 : lex (CompOpp c1) (CompOpp c2) = CompOpp (lex c1 c2).
Proof. destruct c1, c2; reflexivity. Qed.

Lemma ascii_cmp_trans a b c :
  Ascii.compare a b = Lt -> Ascii.compare b c = Lt -> Ascii.compare a c = Lt.
Proof.
  unfold Ascii.compare. rewrite !N.compare_lt_iff. lia.
Qed.

Lemma string_cmp_refl s : String.compare s s = Eq.
Proof.
  induction s as [|a s IH]; simpl; auto.
  unfold Ascii.compare. rewrite N.compare_refl. exact IH.
Qed.

Lemma string_cmp_trans s1 s2 s3 :
  String.compare s1 s2 = Lt -> String.compare s2 s3 = Lt ->
  String.compare s1 s3 = Lt.
Proof.
  revert s2 s3; induction s1 as [|a s1 IH]; intros [|b s2] [|c s3]; simpl;
    try discriminate; auto.
  destruct (Ascii.compare a b) eqn:Hab; try discriminate;
  destruct (Ascii.compare b c) eqn:Hbc; try discriminate; intros H1 H2.
  - apply Ascii.compare_eq_iff in Hab, Hbc. subst.
    unfold Ascii.compare; rewrite N.compare_refl. eauto.
  - apply Ascii.compare_eq_iff in Hab. subst. rewrite Hbc. reflexivity.
  - apply Ascii.compare_eq_iff in Hbc. subst. rewrite Hab. reflexivity.
  - rewrite (ascii_cmp_trans _ _ _ Hab Hbc). reflexivity.
Qed.

Section ListCmp.
  Context {A : Type} (c : A -> A -> comparison).

Lemma list_cmp_eq l1 :
    Forall (fun a => forall b, c a b = Eq -> a = b) l1 ->
    forall l2, list_cmp c l1 l2 = Eq -> l1 = l2.
  Proof.
    induction 1 as [|a l1 Ha Hl IH]; intros [|b l2]; simpl; try discriminate; auto.
    intros H. apply lex_eq in H as [H1 H2].
    rewrite (Ha _ H1), (IH _ H2). reflexivity.
  Qed.

Lemma list_cmp_antisym l1 :
    Forall (fun a => forall b, c b a = CompOpp (c a b)) l1 ->
    forall l2, list_cmp c l2 l1 = CompOpp (list_cmp c l1 l2).
  Proof.
    induction 1 as [|a l1 Ha Hl IH]; intros [|b l2]; simpl; auto.
    rewrite Ha, IH, lex_opp. reflexivity.
  Qed.

Lemma list_cmp_trans (Heq : forall a b, c a b = Eq -> a = b) l1 :
    Forall (fun a => forall b d, c a b = Lt -> c b d = Lt -> c a d = Lt) l1 ->
    forall l2 l3, list_cmp c l1 l2 = Lt -> list_cmp c l2 l3 = Lt ->
    list_cmp c l1 l3 = Lt.
  Proof.
    induction 1 as [|a l1 Ha Hl IH]; intros [|b l2] [|d l3]; simpl;
      try discriminate; auto.
    rewrite !lex_lt. intros [H1|[H1 H1']] [H2|[H2 H2']].
    - left. eauto.
    - apply Heq in H2. subst. auto.
    - apply Heq in H1. subst. auto.
    - right. split.
      + apply Heq in H2. subst. exact H1.
      + apply Heq in H1. apply Heq in H2. subst. eauto.
  Qed.
End ListCmp.

Lemma num_repr_cmp_eq a b : num_repr_cmp a b = Eq -> a = b.
Proof.
  destruct a as [i [z p]], b as [j [w q]]; unfold num_repr_cmp; simpl.
  rewrite !lex_eq, Nat.compare_eq_iff, Z.compare_eq_iff, Pos.compare_eq_iff.
  intros (-> & -> & ->). reflexivity.
Qed.

Lemma num_repr_cmp_antisym a b : num_repr_cmp b a = CompOpp (num_repr_cmp a b).
Proof.
  destruct a as [i [z p]], b as [j [w q]]; unfold num_repr_cmp; simpl.
  rewrite (Nat.compare_antisym i j), (Z.compare_antisym z w), (Pos.compare_antisym p q).
  rewrite !lex_opp. reflexivity.
Qed.

Lemma num_repr_cmp_trans a b c :
  num_repr_cmp a b = Lt -> num_repr_cmp b c = Lt -> num_repr_cmp a c = Lt.
Proof.
  destruct a as [i [z p]], b as [j [w q]], c as [k [v r]]; unfold num_repr_cmp; simpl.
  rewrite !lex_lt, ?Nat.compare_lt_iff, ?Nat.compare_eq_iff, ?Z.compare_lt_iff,
    ?Z.compare_eq_iff, ?Pos.compare_lt_iff, ?Pos.compare_eq_iff.
  intros H1 H2; lia.
Qed.

Lemma Qcompare_lt_iff p q : Qcompare p q = Lt <-> (p < q)%Q.
Proof. rewrite Qlt_alt. tauto. Qed.

Lemma Qcompare_eq_iff p q : Qcompare p q = Eq <-> (p == q)%Q.
Proof. rewrite Qeq_alt. tauto. Qed.

Lemma num_lex_trans p q r t1 t2 t3 :
  lex (Qcompare p q) (num_repr_cmp t1 t2) = Lt ->
  lex (Qcompare q r) (num_repr_cmp t2 t3) = Lt ->
  lex (Qcompare p r) (num_repr_cmp t1 t3) = Lt.
Proof.
  rewrite !lex_lt, !Qcompare_lt_iff, !Qcompare_eq_iff.
  intros [H1|[H1 H1']] [H2|[H2 H2']].
  - left. eapply Qlt_trans; eauto.
  - left. rewrite <- H2. exact H1.
  - left. rewrite H1. exact H2.
  - right. split; [rewrite H1; exact H2|eapply num_repr_cmp_trans; eauto].
Qed.

Lemma expr_cmp_eq a : forall b, expr_cmp a b = Eq -> a = b.
Proof.
  induction a as [s|z|n d|l IH|l IH|b1 e1 IHb IHe|f a IH] using Expr_ind';
    intros [t|w|m d'|l'|l'|b2 e2|g a'] H; simpl in H; try discriminate;
    try (apply lex_eq in H as [_ H]; apply num_repr_cmp_eq in H;
         simpl in H; congruence).
  - apply String.compare_eq_iff in H. congruence.
  - f_equal. eapply list_cmp_eq; eauto.
  - f_equal. eapply list_cmp_eq; eauto.
  - apply lex_eq in H as [H1 H2]. rewrite (IHb _ H1), (IHe _ H2). reflexivity.
  - apply lex_eq in H as [H1 H2]. apply String.compare_eq_iff in H1.
    rewrite H1, (IH _ H2). reflexivity.
Qed.

Lemma expr_cmp_antisym a : forall b, expr_cmp b a = CompOpp (expr_cmp a b).
Proof.
  induction a as [s|z|n d|l IH|l IH|b1 e1 IHb IHe|f a IH] using Expr_ind';
    intros [t|w|m d'|l'|l'|b2 e2|g a']; simpl; try reflexivity;
    try (rewrite <- Qcompare_antisym, num_repr_cmp_antisym, lex_opp; reflexivity).
  - apply String.compare_antisym.
  - apply list_cmp_antisym. exact IH.
  - apply list_cmp_antisym. exact IH.
  - rewrite IHb, IHe, lex_opp. reflexivity.
  - rewrite IH, String.compare_antisym, lex_opp. reflexivity.
Qed.

Lemma expr_cmp_refl a : expr_cmp a a = Eq.
Proof.
  pose proof (expr_cmp_antisym a a) as H. destruct (expr_cmp a a); auto; discriminate.
Qed.

Lemma expr_cmp_trans a : forall b c,
  expr_cmp a b = Lt -> expr_cmp b c = Lt -> expr_cmp a c = Lt.
Proof.
  induction a as [s|z|n d|l IH|l IH|b1 e1 IHb IHe|f a IH] using Expr_ind';
    intros [t|w|m d'|l'|l'|b2 e2|g a'] [t'|w'|m' d''|l''|l''|b3 e3|g' a''];
    simpl; intros H1 H2; try discriminate; try reflexivity;
    try (eapply num_lex_trans; eauto).
  - eapply string_cmp_trans; eauto.
  - eapply list_cmp_trans; eauto. exact expr_cmp_eq.
  - eapply list_cmp_trans; eauto. exact expr_cmp_eq.
  - rewrite lex_lt in *. destruct H1 as [H1|[H1 H1']], H2 as [H2|[H2 H2']].
    + left. eauto.
    + apply expr_cmp_eq in H2. subst. auto.
    + apply expr_cmp_eq in H1. subst. auto.
    + right. apply expr_cmp_eq in H1. apply expr_cmp_eq in H2. subst.
      split; [apply expr_cmp_refl|eauto].
  - rewrite lex_lt in *. destruct H1 as [H1|[H1 H1']], H2 as [H2|[H2 H2']].
    + left. eapply string_cmp_trans; eauto.
    + apply String.compare_eq_iff in H2. subst. auto.
    + apply String.compare_eq_iff in H1. subst. auto.
    + right. apply String.compare_eq_iff in H1. apply String.compare_eq_iff in H2.
      subst. split; [apply string_cmp_refl|eauto].
Qed.

(* ------------------------------------------------------------------ *)
(** ** Insertion sort: sorted, a permutation, and canonical *)

Definition expr_leb (a b : Expr) : bool :=
  match expr_cmp a b with Gt => false | _ => true end.

Fixpoint sortedb (l : list Expr) : bool :=
  match l with
  | a :: ((b :: _) as r) => expr_leb a b && sortedb r
  | _ => true
  end.

Lemma expr_leb_total a b : expr_leb a b = false -> expr_leb b a = true.
Proof.
  unfold expr_leb. rewrite (expr_cmp_antisym a b). destruct (expr_cmp a b); simpl; congruence.
Qed.

Lemma expr_leb_trans a b c : expr_leb a b = true -> expr_leb b c = true -> expr_leb a c = true.
Proof.
  unfold expr_leb.
  destruct (expr_cmp a b) eqn:H1; try discriminate;
  destruct (expr_cmp b c) eqn:H2; try discriminate; intros _ _.
  - apply expr_cmp_eq in H1, H2. subst. rewrite expr_cmp_refl. reflexivity.
  - apply expr_cmp_eq in H1. subst. rewrite H2. reflexivity.
  - apply expr_cmp_eq in H2. subst. rewrite H1. reflexivity.
  - rewrite (expr_cmp_trans _ _ _ H1 H2). reflexivity.
Qed.

Lemma expr_leb_antisym a b : expr_leb a b = true -> expr_leb b a = true -> a = b.
Proof.
  unfold expr_leb. rewrite (expr_cmp_antisym a b).
  destruct (expr_cmp a b) eqn:H; simpl; try discriminate; intros _ _.
  apply expr_cmp_eq. exact H.
Qed.

Lemma insert_expr_perm a l : Permutation (insert_expr a l) (a :: l).
Proof.
  induction l as [|b l IH]; simpl; auto.
  destruct (expr_cmp a b); auto.
  rewrite IH. apply perm_swap.
Qed.

Lemma sort_exprs_perm l : Permutation (sort_exprs l) l.
Proof.
  induction l as [|a l IH]; simpl; auto.
  rewrite insert_expr_perm. auto.
Qed.

Lemma sortedb_cons a l : sortedb (a :: l) = true ->
  sortedb l = true /\ Forall (fun b => expr_leb a b = true) l.
Proof.
  revert a; induction l as [|b l IH]; intros a H; simpl in *; auto.
  apply andb_true_iff in H as [Hab Hl]. split; auto.
  constructor; auto. destruct (IH b Hl) as [_ Hb].
  eapply Forall_impl; [|exact Hb]. intros c Hc. eapply expr_leb_trans; eauto.
Qed.

Lemma insert_expr_sorted a l : sortedb l = true -> sortedb (insert_expr a l) = true.
Proof.
  induction l as [|b l IH]; [reflexivity|].
  intros Hl. cbn [insert_expr].
  destruct (expr_cmp a b) eqn:Hab.
  - change (expr_leb a b && sortedb (b :: l) = true).
    unfold expr_leb. rewrite Hab, Hl. reflexivity.
  - change (expr_leb a b && sortedb (b :: l) = true).
    unfold expr_leb. rewrite Hab, Hl. reflexivity.
  - assert (Hba : expr_cmp b a = Lt) by (rewrite expr_cmp_antisym, Hab; reflexivity).
    destruct (sortedb_cons _ _ Hl) as [Hl' _]. specialize (IH Hl').
    destruct l as [|c l].
    + simpl. unfold expr_leb. rewrite Hba. reflexivity.
    + simpl in Hl. apply andb_true_iff in Hl as [Hbc _].
      cbn [insert_expr] in *.
      destruct (expr_cmp a c) eqn:Hac.
      * change (expr_leb b a && sortedb (a :: c :: l) = true).
        unfold expr_leb at 1. rewrite Hba. exact IH.
      * change (expr_leb b a && sortedb (a :: c :: l) = true).
        unfold expr_leb at 1. rewrite Hba. exact IH.
      * change (expr_leb b c && sortedb (c :: insert_expr a l) = true).
        rewrite Hbc. exact IH.
Qed.

Lemma sort_exprs_sorted l : sortedb (sort_exprs l) = true.
Proof. induction l; simpl; auto using insert_expr_sorted. Qed.

Lemma sort_exprs_id l : sortedb l = true -> sort_exprs l = l.
Proof.
  induction l as [|a l IH]; simpl; auto. intros H.
  destruct (sortedb_cons _ _ H) as [Hl _]. rewrite (IH Hl).
  destruct l as [|b l]; simpl; auto.
  simpl in H. apply andb_true_iff in H as [Hab _]. unfold expr_leb in Hab.
  destruct (expr_cmp a b); auto; discriminate.
Qed.

Lemma sorted_perm_eq l1 l2 :
  sortedb l1 = true -> sortedb l2 = true -> Permutation l1 l2 -> l1 = l2.
Proof.
  revert l2; induction l1 as [|a l1 IH]; intros l2 H1 H2 HP.
  - apply Permutation_nil in HP. auto.
  - destruct l2 as [|b l2].
    + symmetry in HP. apply Permutation_nil in HP. discriminate.
    + destruct (sortedb_cons _ _ H1) as [H1' Ha], (sortedb_cons _ _ H2) as [H2' Hb].
      assert (a = b).
      { assert (Ina : In a (b :: l2)) by (eapply Permutation_in; eauto; left; auto).
        assert (Inb : In b (a :: l1)) by (eapply Permutation_in; [symmetry; eauto|left; auto]).
        destruct Ina as [->|Ina]; auto. destruct Inb as [->|Inb]; auto.
        apply expr_leb_antisym.
        - rewrite Forall_forall in Ha. auto.
        - rewrite Forall_forall in Hb. auto. }
      subst. f_equal. apply IH; auto. eapply Permutation_cons_inv; eauto.
Qed.

Lemma sort_exprs_perm_eq l1 l2 : Permutation l1 l2 -> sort_exprs l1 = sort_exprs l2.
Proof.
  intros HP. apply sorted_perm_eq; try apply sort_exprs_sorted.
  rewrite !sort_exprs_perm. exact HP.
Qed.

(* ------------------------------------------------------------------ *)
(** ** Reduced rational arithmetic is associative and commutative *)

Lemma qadd_comm a b : qadd a b = qadd b a.
Proof. unfold qadd. apply Qred_complete. ring. Qed.

Lemma qadd_left_comm a b c : qadd a (qadd b c) = qadd b (qadd a c).
Proof. unfold qadd. apply Qred_complete. rewrite !Qred_correct. ring. Qed.

Lemma qmul_comm a b : qmul a b = qmul b a.
Proof. unfold qmul. apply Qred_complete. ring. Qed.

Lemma qmul_left_comm a b c : qmul a (qmul b c) = qmul b (qmul a c).
Proof. unfold qmul. apply Qred_complete. rewrite !Qred_correct. ring. Qed.

(* ------------------------------------------------------------------ *)
(** ** Merging into a key-sorted association list *)

Ltac cmp_simpl :=
  repeat match goal with
  | H : expr_cmp ?a ?b = Eq |- _ => apply expr_cmp_eq in H; subst
  | H : expr_cmp ?a ?a = Lt |- _ => rewrite expr_cmp_refl in H; discriminate
  | H : expr_cmp ?a ?a = Gt |- _ => rewrite expr_cmp_refl in H; discriminate
  | |- context [expr_cmp ?a ?a] => rewrite expr_cmp_refl
  | H : expr_cmp ?a ?b = Gt |- _ =>
      assert (expr_cmp b a = Lt) by (rewrite expr_cmp_antisym, H; reflexivity); clear H
  end.

Lemma expr_cmp_lt_asym a b : expr_cmp a b = Lt -> expr_cmp b a = Lt -> False.
Proof. intros H1 H2. rewrite expr_cmp_antisym, H1 in H2. discriminate. Qed.

Lemma expr_cmp_gt_of_lt a b : expr_cmp a b = Lt -> expr_cmp b a = Gt.
Proof. intros H. rewrite expr_cmp_antisym, H. reflexivity. Qed.

Ltac cmp_contra :=
  match goal with
  | H1 : expr_cmp ?a ?b = Lt, H2 : expr_cmp ?b ?a = Lt |- _ =>
      exact (expr_cmp_lt_asym _ _ H1 H2)
  | H1 : expr_cmp ?a ?b = Lt, H2 : expr_cmp ?b ?c = Lt, H3 : expr_cmp ?c ?a = Lt |- _ =>
      exact (expr_cmp_lt_asym _ _ (expr_cmp_trans _ _ _ H1 H2) H3)
  end.

Lemma merge_ins_comm k1 c1 k2 c2 m :
  merge_ins k1 c1 (merge_ins k2 c2 m) = merge_ins k2 c2 (merge_ins k1 c1 m).
Proof.
  induction m as [|[k c] r IH]; simpl.
  - destruct (expr_cmp k1 k2) eqn:H12; simpl.
    + apply expr_cmp_eq in H12. subst. rewrite expr_cmp_refl. rewrite qadd_comm. reflexivity.
    + rewrite (expr_cmp_gt_of_lt _ _ H12). reflexivity.
    + cmp_simpl. rewrite H. reflexivity.
  - destruct (expr_cmp k2 k) eqn:H2, (expr_cmp k1 k) eqn:H1; simpl;
      rewrite ?H1, ?H2; cmp_simpl; simpl; rewrite ?expr_cmp_refl, ?H, ?H0, ?H1, ?H2;
      try reflexivity.
    all: try (rewrite qadd_left_comm; reflexivity).
    all: try (rewrite IH; reflexivity).
    all: repeat match goal with
           |- context [match expr_cmp ?a ?b with _ => _ end] => destruct (expr_cmp a b) eqn:?
         end; cmp_simpl; try reflexivity; try (rewrite qadd_comm; reflexivity).
    all: exfalso; cmp_contra.
Qed.

Lemma collect_perm l l' : Permutation l l' -> collect l = collect l'.
Proof.
  induction 1; simpl; auto.
  - rewrite IHPermutation. reflexivity.
  - apply merge_ins_comm.
  - congruence.
Qed.

Fixpoint ksorted (m : list (Expr * Q)) : Prop :=
  match m with
  | (k, _) :: (((k', _) :: _) as r) => expr_cmp k k' = Lt /\ ksorted r
  | _ => True
  end.

Lemma merge_ins_keys k c m k0 :
  In k0 (map fst (merge_ins k c m)) <-> k = k0 \/ In k0 (map fst m).
Proof.
  induction m as [|[k' c'] r IH]; simpl; [tauto|].
  destruct (expr_cmp k k') eqn:H; simpl.
  - apply expr_cmp_eq in H. subst. tauto.
  - tauto.
  - rewrite IH. tauto.
Qed.

Lemma collect_keys l k0 : In k0 (map fst (collect l)) <-> In k0 (map fst l).
Proof.
  induction l as [|[k c] l IH]; simpl; [tauto|].
  rewrite merge_ins_keys, IH. tauto.
Qed.

Lemma ksorted_tail_aux k c m : ksorted ((k, c) :: m) -> ksorted m.
Proof. destruct m as [|[? ?] ?]; simpl; tauto. Qed.

Lemma merge_ins_ksorted k c m : ksorted m -> ksorted (merge_ins k c m).
Proof.
  induction m as [|[k' c'] r IH]; simpl; auto.
  destruct (expr_cmp k k') eqn:H; simpl.
  - destruct r as [|[k2 c2] r]; auto.
  - intros Hs. split; auto.
  - intros Hs. pose proof (ksorted_tail_aux k' c' r Hs) as Hr.
    specialize (IH Hr).
    assert (Hk : expr_cmp k' k = Lt) by (rewrite expr_cmp_antisym, H; reflexivity).
    destruct r as [|[k2 c2] r']; simpl in *; [split; auto|].
    destruct Hs as [Hs1 Hs2].
    destruct (expr_cmp k k2) eqn:H2; simpl in *; split; auto.
Qed.

Lemma collect_ksorted l : ksorted (collect l).
Proof. induction l as [|[k c] l IH]; simpl; auto using merge_ins_ksorted. Qed.

Lemma ksorted_head k c m : ksorted ((k, c) :: m) -> Forall (fun p => expr_cmp k (fst p) = Lt) m.
Proof.
  revert k c; induction m as [|[k' c'] r IH]; intros k c H; simpl in *; auto.
  destruct H as [H1 H2]. constructor; auto.
  specialize (IH k' c' H2). eapply Forall_impl; [|exact IH].
  intros p Hp. eapply expr_cmp_trans; eauto.
Qed.

Lemma ksorted_tail p m : ksorted (p :: m) -> ksorted m.
Proof. destruct p, m as [|[? ?] ?]; simpl; tauto. Qed.

Lemma ksorted_nodup m : ksorted m -> NoDup (map fst m).
Proof.
  induction m as [|[k c] m IH]; intros H; simpl; constructor.
  - intros Hin. apply ksorted_head in H. rewrite Forall_forall in H.
    apply in_map_iff in Hin as [[k' c'] [Hk Hin]]. simpl in Hk. subst k'.
    specialize (H _ Hin). simpl in H. rewrite expr_cmp_refl in H. discriminate.
  - apply IH. eapply ksorted_tail; eauto.
Qed.

Lemma collect_nodup l : NoDup (map fst (collect l)).
Proof. apply ksorted_nodup, collect_ksorted. Qed.

Lemma merge_ins_fresh k c m :
  ~ In k (map fst m) -> Permutation (merge_ins k c m) ((k, c) :: m).
Proof.
  induction m as [|[k' c'] r IH]; simpl; auto. intros Hn.
  destruct (expr_cmp k k') eqn:H.
  - apply expr_cmp_eq in H. subst. tauto.
  - auto.
  - rewrite IH by tauto. apply perm_swap.
Qed.

Lemma collect_fresh l : NoDup (map fst l) -> Permutation (collect l) l.
Proof.
  induction l as [|[k c] l IH]; simpl; auto. intros Hn. inversion Hn; subst.
  rewrite merge_ins_fresh.
  - auto.
  - rewrite collect_keys. auto.
Qed.

Lemma merge_ins_in k c m p :
  In p (merge_ins k c m) -> k = fst p \/ In (fst p) (map fst m).
Proof.
  intros H. apply (in_map fst) in H. apply merge_ins_keys in H. exact H.
Qed.



(** Modelled from the spec: the parenthesization rule of section 4.8.  A
    child is parenthesized when its precedence is lower than the parent's,
    or lower than or equal to it in a non-commutative position. *)
Definition needs_paren (parent child : Expr) (noncomm : bool) : bool :=
  if noncomm then Nat.leb (prec child) (prec parent) else Nat.ltb (prec child) (prec parent).

(** Modelled from the spec: a term of a sum as a sign and a magnitude
    (a negative term renders as the subtraction of its magnitude). *)
Definition sign_abs (t : Expr) : bool * Expr :=
  match t with
  | Integer z => if (z <? 0)%Z then (true, Integer (- z)) else (false, t)
  | Rational n d => if (n <? 0)%Z then (true, Rational (- n) d) else (false, t)
  | Mul (c :: fs) =>
      match num_val c with
      | Some q => if (Qnum q <? 0)%Z then (true, Mul (mk_num (- q) :: fs)) else (false, t)
      | None => (false, t)
      end
  | _ => (false, t)
  end.






(* ------------------------------------------------------------------ *)
(** ** Meaning of the coefficient lists of the polynomial view *)

(** The value [w0 + w1 x + ... + wn x^n] of a list of real coefficients. *)
Definition pval (ws : list R) (x : R) : R := fold_right (fun c acc => c + x * acc)%R 0%R ws.

(** Real counterparts of [cadd], [cscale], [cmul] and [cpow]. *)
Fixpoint radd (a b : list R) : list R :=
  match a, b with
  | [], _ => b
  | _, [] => a
  | c :: a', d :: b' => (c + (d + 0))%R :: radd a' b'
  end.

Fixpoint rmul (a b : list R) : list R :=
  match a with
  | [] => []
  | c :: a' => radd (map (fun d => c * (d * 1))%R b) (0%R :: rmul a' b)
  end.

Definition rpow (a : list R) (n : nat) : list R := Nat.iter n (rmul a) [1%R].

(* ------------------------------------------------------------------ *)
(** ** Canonical trees (spec section 3) *)

Definition canon_rat (n : Z) (d : positive) : bool :=
  negb (Pos.eqb d 1) && Z.eqb (Z.gcd n (Zpos d)) 1.

(** No power identity of step 5 applies to [b^e]. *)
Definition pow_irred (b e : Expr) : bool :=
  match e with
  | Integer 0 | Integer 1 => false
  | Integer _ => negb (is_num b) && match b with Pow _ a => negb (is_num a) | _ => true end
  | Rational m _ => negb (is_zero_num b && (m <? 0)%Z)
  | _ => true
  end.

Definition count_nums (l : list Expr) : nat := List.length (filter is_num l).

Definition nonzero_num (t : Expr) : bool :=
  match num_val t with Some q => negb (Qeq_bool q 0) | None => true end.

Definition nonunit_num (t : Expr) : bool :=
  match num_val t with Some q => negb (Qeq_bool q 0) && negb (Qeq_bool q 1) | None => true end.

(** Shape of a canonical sum: flattened, at most one nonzero numeric term,
    sorted, no two terms with the same non-numeric factor structure, two
    terms or more. *)
Definition canon_add_list (l : list Expr) : bool :=
  forallb (fun t => negb (is_add t)) l && (count_nums l <=? 1)%nat
  && forallb nonzero_num l && sortedb l
  && nodupb (map term_key (non_nums l)) && (2 <=? List.length l)%nat.

(** Shape of a canonical product: flattened, at most one numeric
    coefficient (neither zero nor one), sorted, no two factors on the same
    base, two factors or more. *)
Definition canon_mul_list (l : list Expr) : bool :=
  forallb (fun t => negb (is_mul t)) l && (count_nums l <=? 1)%nat
  && forallb nonunit_num l && sortedb l
  && nodupb (map base_of (non_nums l)) && (2 <=? List.length l)%nat.

Fixpoint canon (e : Expr) : bool :=
  match e with
  | Symbol _ | Integer _ => true
  | Rational n d => canon_rat n d
  | Add l => forallb canon l && canon_add_list l
  | Mul l => forallb canon l && canon_mul_list l
  | Pow b x => canon b && canon x && pow_irred b x
  | Func _ a => canon a
  end.

(* ------------------------------------------------------------------ *)
(** ** Numeric literals *)

Lemma Qred_idem q : Qred (Qred q) = Qred q.
Proof. apply Qred_complete, Qred_correct. Qed.

Lemma mk_num_cases q :
  (Qden (Qred q) = xH /\ mk_num q = Integer (Qnum (Qred q))) \/
  (Qden (Qred q) <> xH /\ mk_num q = Rational (Qnum (Qred q)) (Qden (Qred q))).
Proof.
  unfold mk_num. destruct (Qden (Qred q)) eqn:E; [right|right|left]; split; auto; discriminate.
Qed.

Lemma num_val_mk_num q : num_val (mk_num q) = Some (Qred q).
Proof.
  destruct (mk_num_cases q) as [[Hd ->]|[Hd ->]]; simpl; f_equal.
  - unfold inject_Z. destruct (Qred q) as [n d]; simpl in *. subst. reflexivity.
  - destruct (Qred q); reflexivity.
Qed.

Lemma is_num_mk_num q : is_num (mk_num q) = true.
Proof. unfold is_num. rewrite num_val_mk_num. reflexivity. Qed.

Lemma mk_num_canon q : canon (mk_num q) = true.
Proof.
  destruct (mk_num_cases q) as [[Hd ->]|[Hd ->]]; simpl; auto.
  unfold canon_rat. apply andb_true_iff. split.
  - apply negb_true_iff, Pos.eqb_neq. exact Hd.
  - apply Z.eqb_eq. apply gcd_Qred.
Qed.

Lemma mk_num_of_canon e q : canon e = true -> num_val e = Some q -> mk_num q = e.
Proof.
  destruct e as [| z | n d | | | |]; simpl; try discriminate; intros Hc Hv;
    injection Hv as <-.
  - unfold inject_Z, mk_num. rewrite Qcanon.Qred_identity by (simpl; apply Z.gcd_1_r). reflexivity.
  - unfold canon_rat in Hc. apply andb_true_iff in Hc as [Hd Hg].
    apply negb_true_iff, Pos.eqb_neq in Hd. apply Z.eqb_eq in Hg.
    unfold mk_num. rewrite Qcanon.Qred_identity by exact Hg. simpl.
    destruct d; auto. congruence.
Qed.

Lemma num_val_reduced e q : canon e = true -> num_val e = Some q -> Qred q = q.
Proof.
  intros Hc Hv. pose proof (mk_num_of_canon _ _ Hc Hv) as H.
  rewrite <- H in Hv. rewrite num_val_mk_num in Hv. congruence.
Qed.

Lemma num_val_is_num e : is_num e = true <-> exists q, num_val e = Some q.
Proof.
  unfold is_num. destruct (num_val e); split; intros H; eauto; try discriminate.
  destruct H; discriminate.
Qed.

Lemma is_num_cases e : is_num e = true <-> (exists z, e = Integer z) \/ (exists n d, e = Rational n d).
Proof.
  destruct e; simpl; split; intros H; try discriminate; eauto;
    destruct H as [[? H]|[? [? H]]]; discriminate.
Qed.

Lemma qadd_0_r q : Qred q = q -> qadd q 0 = q.
Proof. intros H. unfold qadd. rewrite <- H at 2. apply Qred_complete. ring. Qed.

Lemma qmul_1_r q : Qred q = q -> qmul q 1 = q.
Proof. intros H. unfold qmul. rewrite <- H at 2. apply Qred_complete. ring. Qed.

Lemma qadd_reduced a b : Qred (qadd a b) = qadd a b.
Proof. apply Qred_idem. Qed.

Lemma qmul_reduced a b : Qred (qmul a b) = qmul a b.
Proof. apply Qred_idem. Qed.

(* ------------------------------------------------------------------ *)
(** ** List helpers *)

Lemma Permutation_filter {A} (f : A -> bool) l1 l2 :
  Permutation l1 l2 -> Permutation (filter f l1) (filter f l2).
Proof.
  induction 1 as [|a l1 l2 H IH|a b l|l1 l2 l3 H1 IH1 H2 IH2]; simpl; auto.
  - destruct (f a); auto.
  - destruct (f a), (f b); auto. apply perm_swap.
  - eapply perm_trans; eauto.
Qed.

Lemma forallb_perm {A} (f : A -> bool) l1 l2 :
  Permutation l1 l2 -> forallb f l1 = forallb f l2.
Proof.
  intros H. apply eq_true_iff_eq. rewrite !forallb_forall.
  split; intros Hf a Ha; apply Hf; [apply (Permutation_in _ (Permutation_sym H))|apply (Permutation_in _ H)]; exact Ha.
Qed.

Lemma partition_perm {A} (f : A -> bool) l :
  Permutation l (filter f l ++ filter (fun a => negb (f a)) l).
Proof.
  induction l as [|a l IH]; simpl; auto.
  destruct (f a); simpl; auto.
  apply Permutation_cons_app. exact IH.
Qed.

Lemma expr_eqb_eq a b : expr_eqb a b = true <-> a = b.
Proof.
  unfold expr_eqb. split.
  - destruct (expr_cmp a b) eqn:E; try discriminate. intros _. apply expr_cmp_eq. exact E.
  - intros ->. rewrite expr_cmp_refl. reflexivity.
Qed.

Lemma nodupb_NoDup l : nodupb l = true <-> NoDup l.
Proof.
  induction l as [|k r IH]; simpl.
  - split; auto using NoDup_nil.
  - rewrite andb_true_iff, negb_true_iff, IH. split.
    + intros [Hn Hd]. constructor; auto. intros Hin.
      assert (existsb (expr_eqb k) r = true) by
        (apply existsb_exists; exists k; split; auto; apply expr_eqb_eq; reflexivity).
      congruence.
    + intros Hd. inversion Hd; subst. split; auto.
      destruct (existsb (expr_eqb k) r) eqn:E; auto.
      apply existsb_exists in E as [k' [Hin Hk]]. apply expr_eqb_eq in Hk. subst. tauto.
Qed.

Lemma nodupb_perm l1 l2 : Permutation l1 l2 -> nodupb l1 = nodupb l2.
Proof.
  intros H. apply eq_true_iff_eq. rewrite !nodupb_NoDup.
  split; apply Permutation_NoDup; auto. apply Permutation_sym; auto.
Qed.

Lemma count_nums_perm l1 l2 : Permutation l1 l2 -> count_nums l1 = count_nums l2.
Proof. intros H. unfold count_nums. apply Permutation_length, Permutation_filter, H. Qed.

(** Numeric literals come first in the canonical order. *)
Lemma expr_cmp_num_lt a b : is_num a = true -> is_num b = false -> expr_cmp a b = Lt.
Proof.
  intros Ha Hb. apply is_num_cases in Ha as [[z ->]|[n [d ->]]];
    destruct b; simpl in *; try discriminate; reflexivity.
Qed.

Lemma sortedb_tail a l : sortedb (a :: l) = true -> sortedb l = true.
Proof. destruct l; simpl; auto. intros H. apply andb_true_iff in H. tauto. Qed.

Lemma sortedb_cons_iff a l : sortedb (a :: l) = true <->
  sortedb l = true /\ Forall (fun b => expr_leb a b = true) l.
Proof.
  split; [apply sortedb_cons|]. intros [Hl Ha].
  destruct l as [|b l]; simpl; auto. inversion Ha; subst.
  rewrite H1. exact Hl.
Qed.

Lemma sortedb_filter f l : sortedb l = true -> sortedb (filter f l) = true.
Proof.
  induction l as [|a l IH]; simpl; auto. intros H.
  apply sortedb_cons_iff in H as [Hl Ha]. destruct (f a); auto.
  apply sortedb_cons_iff. split; auto.
  apply Forall_forall. intros b Hb. apply filter_In in Hb as [Hb _].
  rewrite Forall_forall in Ha. auto.
Qed.

Lemma sorted_non_num_head a l : sortedb (a :: l) = true -> is_num a = false ->
  Forall (fun b => is_num b = false) l.
Proof.
  intros H Ha. apply sortedb_cons in H as [_ H]. eapply Forall_impl; [|exact H].
  intros b Hb. destruct (is_num b) eqn:E; auto.
  unfold expr_leb in Hb. rewrite expr_cmp_antisym, (expr_cmp_num_lt _ _ E Ha) in Hb.
  discriminate.
Qed.

Lemma non_nums_id l : Forall (fun b => is_num b = false) l -> non_nums l = l.
Proof.
  induction 1 as [|b l Hb _ IH]; simpl; auto. unfold non_nums in *. simpl. rewrite Hb. simpl. congruence.
Qed.

Lemma nums_nil l : Forall (fun b => is_num b = false) l -> filter is_num l = [].
Proof. induction 1 as [|b l Hb _ IH]; simpl; auto. rewrite Hb. auto. Qed.

(** In a sorted list the numeric literals form a prefix. *)
Lemma sorted_nums_first l : sortedb l = true -> l = filter is_num l ++ non_nums l.
Proof.
  induction l as [|a l IH]; simpl; auto. intros H.
  unfold non_nums. simpl. destruct (is_num a) eqn:Ha; simpl.
  - f_equal. apply IH. eapply sortedb_tail; eauto.
  - pose proof (sorted_non_num_head _ _ H Ha) as Hl.
    rewrite nums_nil by exact Hl. simpl. f_equal. symmetry. apply non_nums_id. exact Hl.
Qed.

Lemma count_nums_le1 l : (count_nums l <=? 1)%nat = true ->
  filter is_num l = [] \/ exists c, filter is_num l = [c].
Proof.
  unfold count_nums. destruct (filter is_num l) as [|c [|c' r]]; simpl; eauto.
  intros H. discriminate.
Qed.

Lemma forallb_Forall {A} (f : A -> bool) l : forallb f l = true <-> Forall (fun a => f a = true) l.
Proof. rewrite forallb_forall, Forall_forall. tauto. Qed.

Lemma Forall_app_iff {A} (P : A -> Prop) l1 l2 : Forall P (l1 ++ l2) <-> Forall P l1 /\ Forall P l2.
Proof. rewrite !Forall_forall. setoid_rewrite in_app_iff. firstorder. Qed.

Lemma Qeq_bool_false p q : ~ (p == q)%Q -> Qeq_bool p q = false.
Proof. intros H. destruct (Qeq_bool p q) eqn:E; auto. apply Qeq_bool_iff in E. tauto. Qed.

Lemma is_num_false_num_val e : is_num e = false -> num_val e = None.
Proof. unfold is_num. destruct (num_val e); congruence. Qed.

(* ------------------------------------------------------------------ *)
(** ** Shape of canonical products *)


(* ------------------------------------------------------------------ *)
(** ** Power identities *)

Lemma mk_pow_int0 b : mk_pow b (Integer 0) =
  if is_zero_num b then Err UndefinedPower else Ok (Integer 1).
Proof. destruct b; reflexivity. Qed.

Lemma mk_pow_int1 b : mk_pow b (Integer 1) = Ok b.
Proof. destruct b; reflexivity. Qed.

Lemma mk_pow_intn b n : n <> 0%Z -> n <> 1%Z -> mk_pow b (Integer n) =
  match b with
  | Integer _ | Rational _ _ =>
      match num_val b with
      | Some q => let* r := num_pow q n in Ok (mk_num r)
      | None => Ok (Pow b (Integer n))
      end
  | Pow b' a =>
      match num_val a with
      | Some qa => mk_pow b' (mk_num (qmul qa (inject_Z n)))
      | None => Ok (Pow b (Integer n))
      end
  | _ => Ok (Pow b (Integer n))
  end.
Proof.
  intros H0 H1. destruct n as [|p|p]; [contradiction| |destruct b; reflexivity].
  destruct p; try contradiction; destruct b; reflexivity.
Qed.

Lemma mk_pow_rat b m d : mk_pow b (Rational m d) =
  if is_zero_num b && (m <? 0)%Z then Err UndefinedPower else Ok (Pow b (Rational m d)).
Proof. destruct b; reflexivity. Qed.

Lemma mk_pow_other b e : is_num e = false -> mk_pow b e = Ok (Pow b e).
Proof. intros H. destruct e; try discriminate; destruct b; reflexivity. Qed.

Lemma pow_irred_int b n : n <> 0%Z -> n <> 1%Z -> pow_irred b (Integer n) =
  negb (is_num b) && match b with Pow _ a => negb (is_num a) | _ => true end.
Proof.
  intros H0 H1. destruct n as [|p|p]; [contradiction| |reflexivity].
  destruct p; try contradiction; reflexivity.
Qed.

Lemma pow_irred_other b e : is_num e = false -> pow_irred b e = true.
Proof. intros H. destruct e; try discriminate; reflexivity. Qed.

Lemma mk_pow_irred b e : pow_irred b e = true -> mk_pow b e = Ok (Pow b e).
Proof.
  intros H. destruct (is_num e) eqn:He; [|apply mk_pow_other, He].
  apply is_num_cases in He as [[n ->]|[m [d ->]]].
  - destruct (Z.eq_dec n 0) as [->|N0]; [discriminate|].
    destruct (Z.eq_dec n 1) as [->|N1]; [discriminate|].
    rewrite (pow_irred_int _ _ N0 N1) in H. rewrite (mk_pow_intn _ _ N0 N1).
    destruct b as [| | | | |b' a|]; simpl in H; try discriminate; try reflexivity.
    rewrite (is_num_false_num_val a) by (apply negb_true_iff, H). reflexivity.
  - rewrite mk_pow_rat. simpl in H. apply negb_true_iff in H. rewrite H. reflexivity.
Qed.

Lemma canon_pow b e : canon (Pow b e) = canon b && canon e && pow_irred b e.
Proof. reflexivity. Qed.

(** The power identities produce canonical trees. *)
Lemma mk_pow_canon b : forall e r, canon b = true -> canon e = true ->
  mk_pow b e = Ok r -> canon r = true.
Proof.
  induction b as [s|z|n d|l|l|b' IHb a _|f a _]; intros e r Hb He Hr;
    (destruct (is_num e) eqn:Hn;
     [|rewrite mk_pow_other in Hr by exact Hn; injection Hr as <-;
       rewrite canon_pow, Hb, He, pow_irred_other by exact Hn; reflexivity]);
    (apply is_num_cases in Hn as [[k ->]|[m [dm ->]]];
     [|rewrite mk_pow_rat in Hr;
       destruct (is_zero_num _ && (m <? 0)%Z) eqn:Ez; [discriminate|];
       injection Hr as <-; rewrite canon_pow, Hb, He; unfold pow_irred; rewrite Ez; reflexivity]);
    (destruct (Z.eq_dec k 0) as [->|N0];
     [rewrite mk_pow_int0 in Hr; destruct (is_zero_num _); [discriminate|];
      injection Hr as <-; reflexivity|]);
    (destruct (Z.eq_dec k 1) as [->|N1];
     [rewrite mk_pow_int1 in Hr; injection Hr as <-; assumption|]);
    rewrite (mk_pow_intn _ _ N0 N1) in Hr.
  - injection Hr as <-. rewrite canon_pow, Hb, He, pow_irred_int by assumption. reflexivity.
  - simpl in Hr. destruct (num_pow (inject_Z z) k); [|discriminate].
    injection Hr as <-. apply mk_num_canon.
  - simpl in Hr. destruct (num_pow (n # d) k); [|discriminate].
    injection Hr as <-. apply mk_num_canon.
  - injection Hr as <-. rewrite canon_pow, Hb, He, pow_irred_int by assumption. reflexivity.
  - injection Hr as <-. rewrite canon_pow, Hb, He, pow_irred_int by assumption. reflexivity.
  - rewrite canon_pow in Hb. apply andb_true_iff in Hb as [Hb Hi].
    apply andb_true_iff in Hb as [Hb1 Ha].
    destruct (num_val a) as [qa|] eqn:Ea.
    + eapply IHb; [exact Hb1|apply mk_num_canon|exact Hr].
    + injection Hr as <-. rewrite canon_pow, pow_irred_int by assumption. simpl.
      rewrite Hb1, Ha, Hi. unfold is_num. rewrite Ea. reflexivity.
  - injection Hr as <-. rewrite canon_pow, Hb, He, pow_irred_int by assumption. reflexivity.
Qed.


(* ------------------------------------------------------------------ *)
(** ** The collection rounds terminate within the fuel *)

Lemma size_pos e : (1 <= size e)%nat.
Proof. destruct e; simpl; lia. Qed.

Lemma lsum_app l1 l2 : list_sum (l1 ++ l2) = (list_sum l1 + list_sum l2)%nat.
Proof. induction l1 as [|a l1 IH]; simpl; lia. Qed.

Lemma sum_ge_length {A} (f : A -> nat) l : (forall a, 1 <= f a)%nat ->
  (List.length l <= list_sum (map f l))%nat.
Proof. intros Hf. induction l as [|a l IH]; simpl; [lia|]. specialize (Hf a). lia. Qed.

(** Summing a weight of at least one over a duplicate-free sublist. *)
Lemma sum_nodup_incl {A} (f : A -> nat) m : (forall a, 1 <= f a)%nat -> NoDup m ->
  forall l, incl m l ->
  (list_sum (map f m) + (List.length l - List.length m) <= list_sum (map f l))%nat.
Proof.
  intros Hf. induction 1 as [|a m Ha Hm IH]; intros l Hi.
  - simpl. pose proof (sum_ge_length f l Hf). lia.
  - assert (Hin : In a l) by (apply Hi; left; reflexivity).
    apply in_split in Hin as (l1 & l2 & ->).
    assert (Hi' : incl m (l1 ++ l2)).
    { intros b Hb. assert (Hb' : In b (l1 ++ a :: l2)) by (apply Hi; right; exact Hb).
      apply in_app_iff in Hb' as [Hb'|[Hb'|Hb']]; apply in_app_iff; auto.
      subst. contradiction. }
    specialize (IH _ Hi'). rewrite !map_app, !lsum_app in *. simpl.
    rewrite !length_app in *. simpl. lia.
Qed.

Lemma sum_dup_lt {A} (f : A -> nat) m l : (forall a, 1 <= f a)%nat -> NoDup m -> incl m l ->
  ~ NoDup l -> (list_sum (map f m) < list_sum (map f l))%nat.
Proof.
  intros Hf Hm Hi Hl. pose proof (sum_nodup_incl f m Hf Hm l Hi) as H.
  destruct (Nat.le_gt_cases (List.length l) (List.length m)) as [Hle|Hgt].
  - exfalso. apply Hl. eapply NoDup_incl_NoDup; eauto.
  - lia.
Qed.

Lemma sum_le_incl {A} (f : A -> nat) m l : (forall a, 1 <= f a)%nat -> NoDup m -> incl m l ->
  (list_sum (map f m) <= list_sum (map f l))%nat.
Proof. intros Hf Hm Hi. pose proof (sum_nodup_incl f m Hf Hm l Hi). lia. Qed.

Lemma flatten_add_app l1 l2 : flatten_add (l1 ++ l2) = flatten_add l1 ++ flatten_add l2.
Proof. apply flat_map_app. Qed.

Lemma flatten_mul_app l1 l2 : flatten_mul (l1 ++ l2) = flatten_mul l1 ++ flatten_mul l2.
Proof. apply flat_map_app. Qed.

Lemma flatten_add_cons' a l : flatten_add (a :: l) = flatten_add [a] ++ flatten_add l.
Proof. unfold flatten_add. simpl. rewrite app_nil_r. reflexivity. Qed.

Lemma flatten_mul_cons' a l : flatten_mul (a :: l) = flatten_mul [a] ++ flatten_mul l.
Proof. unfold flatten_mul. simpl. rewrite app_nil_r. reflexivity. Qed.

Lemma non_nums_app l1 l2 : non_nums (l1 ++ l2) = non_nums l1 ++ non_nums l2.
Proof. apply filter_app. Qed.

Lemma key_weight_app l1 l2 : key_weight (l1 ++ l2) = (key_weight l1 + key_weight l2)%nat.
Proof. unfold key_weight. rewrite map_app. apply lsum_app. Qed.

Lemma base_weight_app l1 l2 : base_weight (l1 ++ l2) = (base_weight l1 + base_weight l2)%nat.
Proof. unfold base_weight. rewrite map_app. apply lsum_app. Qed.

Lemma key_weight_non_nums l : (key_weight (non_nums l) <= key_weight l)%nat.
Proof.
  unfold key_weight, non_nums. induction l as [|a l IH]; [simpl; lia|]. simpl.
  destruct (negb (is_num a)); simpl; lia.
Qed.

Lemma base_weight_non_nums l : (base_weight (non_nums l) <= base_weight l)%nat.
Proof.
  unfold base_weight, non_nums. induction l as [|a l IH]; [simpl; lia|]. simpl.
  destruct (negb (is_num a)); simpl; lia.
Qed.

Lemma mul_of_size fs : (size (mul_of fs) <= size (Mul fs))%nat.
Proof. destruct fs as [|f [|f2 fs]]; simpl; lia. Qed.

Lemma term_key_size t : (size (term_key t) <= size t)%nat.
Proof.
  unfold term_key, split_term. destruct t as [| | | |[|c fs]| |]; simpl; try lia.
  destruct (num_val c); simpl; [|lia]. pose proof (mul_of_size fs). simpl in H. lia.
Qed.

Lemma base_of_size f : (size (base_of f) <= size f)%nat.
Proof. destruct f; simpl; lia. Qed.

Lemma key_weight_le_size l : (key_weight l <= list_sum (map size l))%nat.
Proof.
  unfold key_weight. induction l as [|a l IH]; [simpl; lia|].
  pose proof (term_key_size a). cbn [map list_sum fold_right] in *. unfold list_sum in *. lia.
Qed.

Lemma base_weight_le_size l : (base_weight l <= list_sum (map size l))%nat.
Proof.
  unfold base_weight. induction l as [|a l IH]; [simpl; lia|].
  pose proof (base_of_size a). cbn [map list_sum fold_right] in *. unfold list_sum in *. lia.
Qed.

Lemma term_key_mk_num c fs : term_key (Mul (mk_num c :: fs)) = mul_of fs.
Proof. unfold term_key, split_term. rewrite num_val_mk_num. reflexivity. Qed.

Lemma flatten_add_single t : is_add t = false -> flatten_add [t] = [t].
Proof. destruct t; try discriminate; reflexivity. Qed.

Lemma flatten_mul_single t : is_mul t = false -> flatten_mul [t] = [t].
Proof. destruct t; try discriminate; reflexivity. Qed.

Lemma key_weight_single t : is_add t = false ->
  (key_weight (non_nums (flatten_add [t])) <= size (term_key t))%nat.
Proof.
  intros Ha. rewrite flatten_add_single by exact Ha. unfold non_nums, key_weight. simpl.
  destruct (negb (is_num t)); simpl; lia.
Qed.

Lemma rebuild_weight k c :
  (key_weight (non_nums (flatten_add [rebuild_term (k, c)])) <= size k)%nat.
Proof.
  unfold rebuild_term. destruct (Qeq_bool c 1).
  - destruct (is_add k) eqn:Ha.
    + destruct k as [| | |ts| | |]; try discriminate.
      unfold flatten_add at 1. simpl. rewrite app_nil_r.
      pose proof (key_weight_non_nums ts). pose proof (key_weight_le_size ts). simpl. lia.
    + pose proof (key_weight_single k Ha). pose proof (term_key_size k). lia.
  - destruct k as [| | | |fs| |];
      (eapply Nat.le_trans; [apply key_weight_single; reflexivity|]);
      rewrite term_key_mk_num; try (simpl; lia).
    apply mul_of_size.
Qed.

Lemma non_nums_flatten_add_cons a l :
  non_nums (flatten_add (a :: l)) = non_nums (flatten_add [a]) ++ non_nums (flatten_add l).
Proof. rewrite flatten_add_cons', non_nums_app. reflexivity. Qed.

Lemma map_rebuild_weight ps :
  (key_weight (non_nums (flatten_add (map rebuild_term ps))) <= list_sum (map (fun p => size (fst p)) ps))%nat.
Proof.
  induction ps as [|[k c] ps IH]; [reflexivity|].
  cbn [map]. rewrite non_nums_flatten_add_cons, key_weight_app.
  pose proof (rebuild_weight k c).
  transitivity (size k + list_sum (map (fun p : Expr * Q => size (fst p)) ps))%nat;
    [lia|apply Nat.le_refl].
Qed.

Lemma lsum_filter {A} (f : A -> nat) (g : A -> bool) l :
  (list_sum (map f (filter g l)) <= list_sum (map f l))%nat.
Proof. induction l as [|a l IH]; simpl; [lia|]. destruct (g a); simpl; lia. Qed.

Lemma map_fst_split l : map fst (map split_term l) = map term_key l.
Proof. rewrite map_map. reflexivity. Qed.

Lemma add_round_weight ts :
  (key_weight (non_nums (add_round ts)) <= list_sum (map size (map fst (collect (map split_term ts)))))%nat.
Proof.
  unfold add_round. eapply Nat.le_trans; [apply map_rebuild_weight|].
  rewrite map_map. apply lsum_filter.
Qed.

Lemma collect_incl ts : incl (map fst (collect (map split_term ts))) (map term_key ts).
Proof. intros k Hk. rewrite <- map_fst_split. apply collect_keys. exact Hk. Qed.

Lemma key_weight_eq ts : key_weight ts = list_sum (map size (map term_key ts)).
Proof. unfold key_weight. rewrite map_map. reflexivity. Qed.

Lemma base_weight_eq fs : base_weight fs = list_sum (map size (map base_of fs)).
Proof. unfold base_weight. rewrite map_map. reflexivity. Qed.

Lemma add_round_weight_le ts : (key_weight (non_nums (add_round ts)) <= key_weight ts)%nat.
Proof.
  eapply Nat.le_trans; [apply add_round_weight|]. rewrite key_weight_eq.
  apply sum_le_incl; [apply size_pos|apply collect_nodup|apply collect_incl].
Qed.

Lemma add_round_weight_lt ts : ~ NoDup (map term_key ts) ->
  (key_weight (non_nums (add_round ts)) < key_weight ts)%nat.
Proof.
  intros Hd. eapply Nat.le_lt_trans; [apply add_round_weight|]. rewrite key_weight_eq.
  apply sum_dup_lt; [apply size_pos|apply collect_nodup|apply collect_incl|exact Hd].
Qed.

Lemma dup_length {A} (l : list A) : ~ NoDup l -> (2 <= List.length l)%nat.
Proof.
  intros H. destruct l as [|a [|b l]]; simpl; try lia; exfalso; apply H.
  - constructor.
  - constructor; [intros []|constructor].
Qed.

Lemma add_loop_nodup n : forall s ts, ~ NoDup (map term_key ts) -> (key_weight ts <= n)%nat ->
  NoDup (map term_key (snd (add_loop n s ts))).
Proof.
  induction n as [|n IH]; intros s ts Hd Hw.
  - exfalso. pose proof (dup_length _ Hd). rewrite length_map in H.
    pose proof (sum_ge_length size (map term_key ts) size_pos). rewrite length_map in H0.
    rewrite key_weight_eq in Hw. lia.
  - simpl. destruct (nodupb (map term_key (non_nums (add_round ts)))) eqn:E.
    + apply nodupb_NoDup, E.
    + apply IH.
      * intros H. apply nodupb_NoDup in H. congruence.
      * pose proof (add_round_weight_lt ts Hd). lia.
Qed.

Lemma add_loop_top w s ts : (key_weight ts <= w)%nat ->
  NoDup (map term_key (snd (add_loop (S (S w)) s ts))).
Proof.
  intros Hw. assert (Hm : (key_weight ts <= S w)%nat) by lia.
  clear Hw. revert Hm. generalize (S w) as m. intros m Hm.
  cbn [add_loop]. destruct (nodupb (map term_key (non_nums (add_round ts)))) eqn:E.
  - apply nodupb_NoDup, E.
  - apply add_loop_nodup.
    + intros H. apply nodupb_NoDup in H. congruence.
    + pose proof (add_round_weight_le ts). lia.
Qed.

Lemma mapM_ok {A B} (f : A -> Result B) l ys :
  mapM f l = Ok ys <-> Forall2 (fun a y => f a = Ok y) l ys.
Proof.
  revert ys. induction l as [|a l IH]; intros ys; simpl.
  - split; intros H; [inversion H; constructor|inversion H; reflexivity].
  - destruct (f a) as [y|err] eqn:Ea; simpl.
    + destruct (mapM f l) as [ys'|err] eqn:Em; simpl.
      * split; intros H.
        -- inversion H; subst. constructor; [exact Ea|apply IH; reflexivity].
        -- inversion H; subst. rewrite Ea in H2. inversion H2; subst.
           apply IH in H4. inversion H4; subst. reflexivity.
      * split; intros H; [discriminate|]. inversion H; subst.
        apply IH in H4. discriminate.
    + split; intros H; [discriminate|]. inversion H; subst. congruence.
Qed.

Lemma mapM_length {A B} (f : A -> Result B) l ys : mapM f l = Ok ys -> List.length ys = List.length l.
Proof. intros H. apply mapM_ok in H. symmetry. eapply Forall2_length, H. Qed.

Lemma existsb_eqb_in a l : existsb (expr_eqb a) l = true <-> In a l.
Proof.
  rewrite existsb_exists. split.
  - intros [k [Hk He]]. apply expr_eqb_eq in He. subst. exact Hk.
  - intros H. exists a. split; [exact H|apply expr_eqb_eq; reflexivity].
Qed.

Lemma dedup_in a l : In a (dedup l) <-> In a l.
Proof.
  induction l as [|b l IH]; simpl; [tauto|].
  destruct (existsb (expr_eqb b) l) eqn:E.
  - rewrite IH. apply existsb_eqb_in in E. split; [auto|intros [->|H]; auto].
  - simpl. rewrite IH. tauto.
Qed.

Lemma dedup_nodup l : NoDup (dedup l).
Proof.
  induction l as [|b l IH]; simpl; [constructor|].
  destruct (existsb (expr_eqb b) l) eqn:E; [exact IH|].
  constructor; [|exact IH]. rewrite dedup_in. intros H.
  apply existsb_eqb_in in H. congruence.
Qed.

Lemma bases_nodup fs : NoDup (bases fs).
Proof. apply dedup_nodup. Qed.

Lemma bases_in k fs : In k (bases fs) <-> In k (map base_of fs).
Proof.
  unfold bases. rewrite dedup_in. split; apply Permutation_in;
    [|symmetry]; apply sort_exprs_perm.
Qed.

Lemma flat_weight_self k : (base_weight (non_nums (flatten_mul [k])) <= size k)%nat.
Proof.
  destruct (is_mul k) eqn:Hm.
  - destruct k as [| | | |fs| |]; try discriminate.
    unfold flatten_mul at 1. simpl. rewrite app_nil_r.
    pose proof (base_weight_non_nums fs). pose proof (base_weight_le_size fs). simpl. lia.
  - rewrite flatten_mul_single by exact Hm. unfold non_nums, base_weight. simpl.
    pose proof (base_of_size k). destruct (negb (is_num k)); simpl; lia.
Qed.

Lemma num_flat_weight q : base_weight (non_nums (flatten_mul [mk_num q])) = 0%nat.
Proof. destruct (mk_num_cases q) as [[_ ->]|[_ ->]]; reflexivity. Qed.

Lemma pow_flat_weight b e : base_weight (non_nums (flatten_mul [Pow b e])) = size b.
Proof. unfold base_weight. simpl. lia. Qed.

Lemma mk_pow_weight k : forall e r, mk_pow k e = Ok r ->
  (base_weight (non_nums (flatten_mul [r])) <= size k)%nat.
Proof.
  induction k as [s|z|n d|l|l|b IHb a IHa|f a IHa]; intros e r H;
    (destruct (is_num e) eqn:Hn;
     [|rewrite mk_pow_other in H by exact Hn; inversion H; subst;
       rewrite pow_flat_weight; lia]);
    (apply is_num_cases in Hn as [[m ->]|[m [dm ->]]];
     [|rewrite mk_pow_rat in H;
       destruct (_ && _); [discriminate|inversion H; subst; rewrite pow_flat_weight; lia]]);
    (destruct (Z.eq_dec m 0) as [->|N0];
     [rewrite mk_pow_int0 in H; destruct (is_zero_num _); [discriminate|];
      inversion H; subst; apply Nat.le_0_l|]);
    (destruct (Z.eq_dec m 1) as [->|N1];
     [rewrite mk_pow_int1 in H; inversion H; subst; apply flat_weight_self|]);
    rewrite (mk_pow_intn _ _ N0 N1) in H;
    try (inversion H; subst; rewrite pow_flat_weight; lia).
  - simpl in H. destruct (num_pow _ _); simpl in H; [|discriminate].
    inversion H; subst. rewrite num_flat_weight. lia.
  - simpl in H. destruct (num_pow _ _); simpl in H; [|discriminate].
    inversion H; subst. rewrite num_flat_weight. lia.
  - destruct (num_val a).
    + apply IHb in H. change (size (Pow b a)) with (S (size b + size a)). lia.
    + inversion H; subst. rewrite pow_flat_weight. lia.
Qed.

Lemma mul_round_weight fs rs : mul_round fs = Ok rs ->
  (base_weight (non_nums rs) <= list_sum (map size (bases fs)))%nat.
Proof.
  unfold mul_round. destruct (mapM _ (bases fs)) as [ys|err] eqn:E; simpl; [|discriminate].
  intros H. inversion H; subst. clear H. apply mapM_ok in E.
  induction E as [|k y ks ys Hy Hys IH]; [reflexivity|].
  rewrite flatten_mul_cons', non_nums_app, base_weight_app.
  apply mk_pow_weight in Hy.
  transitivity (size k + list_sum (map size ks))%nat; [lia|apply Nat.le_refl].
Qed.

Lemma bases_incl fs : incl (bases fs) (map base_of fs).
Proof. intros k Hk. apply bases_in, Hk. Qed.

Lemma mul_round_weight_le fs rs : mul_round fs = Ok rs ->
  (base_weight (non_nums rs) <= base_weight fs)%nat.
Proof.
  intros H. eapply Nat.le_trans; [apply (mul_round_weight _ _ H)|]. rewrite base_weight_eq.
  apply sum_le_incl; [apply size_pos|apply bases_nodup|apply bases_incl].
Qed.

Lemma mul_round_weight_lt fs rs : mul_round fs = Ok rs -> ~ NoDup (map base_of fs) ->
  (base_weight (non_nums rs) < base_weight fs)%nat.
Proof.
  intros H Hd. eapply Nat.le_lt_trans; [apply (mul_round_weight _ _ H)|]. rewrite base_weight_eq.
  apply sum_dup_lt; [apply size_pos|apply bases_nodup|apply bases_incl|exact Hd].
Qed.

Lemma mul_loop_nodup n : forall p fs r, mul_loop n p fs = Ok r ->
  ~ NoDup (map base_of fs) -> (base_weight fs <= n)%nat ->
  snd r = [] \/ NoDup (map base_of (snd r)).
Proof.
  induction n as [|n IH]; intros p fs r H Hd Hw.
  - exfalso. pose proof (dup_length _ Hd). rewrite length_map in H0.
    pose proof (sum_ge_length size (map base_of fs) size_pos). rewrite length_map in H1.
    rewrite base_weight_eq in Hw. lia.
  - cbn [mul_loop] in H. destruct (mul_round fs) as [rs|err] eqn:Er; simpl in H; [|discriminate].
    destruct (Qeq_bool _ 0); [inversion H; subst; left; reflexivity|].
    destruct (nodupb (map base_of (non_nums rs))) eqn:E.
    + inversion H; subst. right. apply nodupb_NoDup, E.
    + eapply IH; [exact H| |].
      * intros Hn. apply nodupb_NoDup in Hn. congruence.
      * pose proof (mul_round_weight_lt fs rs Er Hd). lia.
Qed.

Lemma mul_loop_top w p fs r : (base_weight fs <= w)%nat ->
  mul_loop (S (S w)) p fs = Ok r -> snd r = [] \/ NoDup (map base_of (snd r)).
Proof.
  intros Hw. assert (Hm : (base_weight fs <= S w)%nat) by lia.
  clear Hw. revert Hm. generalize (S w) as m. intros m Hm H.
  cbn [mul_loop] in H. destruct (mul_round fs) as [rs|err] eqn:Er; simpl in H; [|discriminate].
  destruct (Qeq_bool _ 0); [inversion H; subst; left; reflexivity|].
  destruct (nodupb (map base_of (non_nums rs))) eqn:E.
  - inversion H; subst. right. apply nodupb_NoDup, E.
  - eapply mul_loop_nodup; [exact H| |].
    + intros Hn. apply nodupb_NoDup in Hn. congruence.
    + pose proof (mul_round_weight_le fs rs Er). lia.
Qed.


(* ------------------------------------------------------------------ *)
(** ** Canonical products and the parts of a term *)

Ltac split_andb :=
  repeat match goal with
  | H : (_ && _) = true |- _ => apply andb_true_iff in H as [? ?]
  end.

Definition mul_ok (fs : list Expr) : Prop :=
  Forall (fun f => canon f = true /\ is_mul f = false /\ is_num f = false) fs /\
  sortedb fs = true /\ NoDup (map base_of fs).

Lemma nonunit_non_num f : is_num f = false -> nonunit_num f = true.
Proof. intros H. unfold nonunit_num. rewrite is_num_false_num_val by exact H. reflexivity. Qed.

Lemma nonzero_non_num f : is_num f = false -> nonzero_num f = true.
Proof. intros H. unfold nonzero_num. rewrite is_num_false_num_val by exact H. reflexivity. Qed.

Lemma non_nums_non_num l : Forall (fun b => is_num b = false) (non_nums l).
Proof.
  apply Forall_forall. intros b Hb. apply filter_In in Hb as [_ Hb].
  apply negb_true_iff in Hb. exact Hb.
Qed.

Lemma filter_is_num_one l c : filter is_num l = [c] -> is_num c = true.
Proof.
  intros H. assert (Hin : In c (filter is_num l)) by (rewrite H; left; auto).
  apply filter_In in Hin. tauto.
Qed.

Lemma count_nums_non_num l : Forall (fun b => is_num b = false) l -> count_nums l = 0%nat.
Proof. intros H. unfold count_nums. rewrite nums_nil; auto. Qed.

Lemma count_nums_app l1 l2 : count_nums (l1 ++ l2) = (count_nums l1 + count_nums l2)%nat.
Proof. unfold count_nums. rewrite filter_app, length_app. reflexivity. Qed.

Lemma Forall_perm {A} (P : A -> Prop) l1 l2 : Permutation l1 l2 -> Forall P l1 -> Forall P l2.
Proof.
  intros Hp HF. rewrite Forall_forall in *. intros a Ha.
  apply HF. apply (Permutation_in _ (Permutation_sym Hp) Ha).
Qed.

Lemma is_mul_mk_num q : is_mul (mk_num q) = false.
Proof. destruct (mk_num_cases q) as [[_ ->]|[_ ->]]; reflexivity. Qed.

Lemma is_add_mk_num q : is_add (mk_num q) = false.
Proof. destruct (mk_num_cases q) as [[_ ->]|[_ ->]]; reflexivity. Qed.

Lemma canon_mul_inv l : canon (Mul l) = true ->
  (mul_ok l /\ (2 <= List.length l)%nat) \/
  (exists c q fs, l = c :: fs /\ num_val c = Some q /\ mk_num q = c /\ Qred q = q /\
     ~ (q == 0)%Q /\ ~ (q == 1)%Q /\ mul_ok fs /\ fs <> []).
Proof.
  simpl. unfold canon_mul_list. intros H.
  apply andb_true_iff in H as [Hc H]. apply andb_true_iff in H as [H Hlen].
  apply andb_true_iff in H as [H H1]. apply andb_true_iff in H as [H H2].
  apply andb_true_iff in H as [H H3]. apply andb_true_iff in H as [H6 H4].
  apply Nat.leb_le in Hlen.
  pose proof (sorted_nums_first _ H2) as Hl.
  assert (HF : Forall (fun f => canon f = true /\ is_mul f = false /\ is_num f = false) (non_nums l)).
  { apply Forall_forall. intros f Hf. pose proof Hf as Hf'. apply filter_In in Hf' as [Hin Hn].
    apply negb_true_iff in Hn. repeat split; auto.
    - apply forallb_Forall in Hc. rewrite Forall_forall in Hc. auto.
    - rewrite forallb_forall in H6. apply negb_true_iff, H6, Hin. }
  destruct (count_nums_le1 _ H4) as [Hn|[c Hn]]; rewrite Hn in Hl; simpl in Hl.
  - left. rewrite <- Hl in HF, H1. split; auto. split; auto. split; auto.
    apply nodupb_NoDup. exact H1.
  - right. pose proof (filter_is_num_one _ _ Hn) as Hcn.
    destruct (proj1 (num_val_is_num c) Hcn) as [q Hq].
    assert (Hcc : canon c = true).
    { rewrite forallb_forall in Hc. apply Hc. rewrite Hl. left. auto. }
    assert (Hnu : nonunit_num c = true).
    { rewrite forallb_forall in H3. apply H3. rewrite Hl. left. auto. }
    unfold nonunit_num in Hnu. rewrite Hq in Hnu. apply andb_true_iff in Hnu as [Hz Ho].
    apply negb_true_iff in Hz, Ho.
    exists c, q, (non_nums l). repeat split; auto.
    + apply mk_num_of_canon; auto.
    + eapply num_val_reduced; eauto.
    + apply Qeq_bool_neq, Hz.
    + apply Qeq_bool_neq, Ho.
    + rewrite Hl in H2. apply sortedb_tail in H2. exact H2.
    + apply nodupb_NoDup. exact H1.
    + intros He. rewrite Hl, He in Hlen. simpl in Hlen. lia.
Qed.

Lemma canon_mul_plain fs : mul_ok fs -> (2 <= List.length fs)%nat -> canon (Mul fs) = true.
Proof.
  intros (HF & Hs & Hd) Hl. simpl. unfold canon_mul_list.
  assert (Hn : Forall (fun b => is_num b = false) fs)
    by (eapply Forall_impl; [|exact HF]; simpl; tauto).
  rewrite (non_nums_id _ Hn), (count_nums_non_num _ Hn), Hs.
  apply nodupb_NoDup in Hd. rewrite Hd. apply Nat.leb_le in Hl. rewrite Hl.
  assert (H1 : forallb canon fs = true)
    by (apply forallb_Forall; eapply Forall_impl; [|exact HF]; simpl; tauto).
  assert (H2 : forallb (fun t => negb (is_mul t)) fs = true)
    by (apply forallb_Forall; eapply Forall_impl; [|exact HF]; simpl;
        intros a (_ & -> & _); reflexivity).
  assert (H3 : forallb nonunit_num fs = true)
    by (apply forallb_Forall; eapply Forall_impl; [|exact HF]; simpl;
        intros a (_ & _ & Ha); apply nonunit_non_num, Ha).
  rewrite H1, H2, H3. reflexivity.
Qed.

Lemma canon_mul_coef c fs : mul_ok fs -> fs <> [] ->
  Qred c = c -> ~ (c == 0)%Q -> ~ (c == 1)%Q -> canon (Mul (mk_num c :: fs)) = true.
Proof.
  intros Hok Hne Hr H0 H1. pose proof Hok as (HF & Hs & Hd).
  assert (Hn : Forall (fun b => is_num b = false) fs)
    by (eapply Forall_impl; [|exact HF]; simpl; tauto).
  pose proof (canon_mul_plain fs Hok) as _.
  simpl. unfold canon_mul_list.
  assert (Hnn : non_nums (mk_num c :: fs) = fs).
  { unfold non_nums. simpl. rewrite is_num_mk_num. simpl. apply non_nums_id, Hn. }
  assert (Hsort : sortedb (mk_num c :: fs) = true).
  { apply sortedb_cons_iff. split; auto. eapply Forall_impl; [|exact HF]. intros f (_ & _ & Hf).
    unfold expr_leb. rewrite expr_cmp_num_lt; auto. apply is_num_mk_num. }
  assert (Hc : count_nums (mk_num c :: fs) = 1%nat).
  { unfold count_nums in *. simpl. rewrite is_num_mk_num. simpl.
    rewrite (nums_nil _ Hn). reflexivity. }
  assert (Hu : nonunit_num (mk_num c) = true).
  { unfold nonunit_num. rewrite num_val_mk_num, Hr.
    rewrite (Qeq_bool_false _ _ H0), (Qeq_bool_false _ _ H1). reflexivity. }
  rewrite Hnn, Hsort, Hc. apply nodupb_NoDup in Hd. rewrite Hd.
  cbn [forallb]. rewrite mk_num_canon, is_mul_mk_num, Hu.
  assert (H1' : forallb canon fs = true)
    by (apply forallb_Forall; eapply Forall_impl; [|exact HF]; simpl; tauto).
  assert (H2 : forallb (fun t => negb (is_mul t)) fs = true)
    by (apply forallb_Forall; eapply Forall_impl; [|exact HF]; simpl;
        intros a (_ & -> & _); reflexivity).
  assert (H3 : forallb nonunit_num fs = true)
    by (apply forallb_Forall; eapply Forall_impl; [|exact HF]; simpl;
        intros a (_ & _ & Ha); apply nonunit_non_num, Ha).
  rewrite H1', H2, H3. destruct fs; [congruence|reflexivity].
Qed.

Lemma mul_ok_single f : canon f = true -> is_mul f = false -> is_num f = false -> mul_ok [f].
Proof.
  intros H1 H2 H3. split; [constructor; auto|]. split; [reflexivity|].
  constructor; [intros []|constructor].
Qed.

(** The key of a term: its non-numeric part, which splits into itself. *)
Definition key_ok (k : Expr) : Prop :=
  canon k = true /\ is_num k = false /\ split_term k = (k, 1%Q).

Lemma split_term_non_mul t : is_mul t = false -> split_term t = (t, 1%Q).
Proof. destruct t; simpl; congruence. Qed.

Lemma split_term_plain fs : mul_ok fs -> split_term (Mul fs) = (Mul fs, 1%Q).
Proof.
  intros [HF _]. destruct fs as [|f fs]; [reflexivity|]. simpl.
  apply Forall_inv in HF as (_ & _ & Hf). rewrite is_num_false_num_val by exact Hf. reflexivity.
Qed.

Lemma mul_ok_key fs : mul_ok fs -> fs <> [] -> key_ok (mul_of fs).
Proof.
  intros Hok Hne. destruct fs as [|f [|g r]]; [congruence| |].
  - destruct Hok as [HF _]. apply Forall_inv in HF as (H1 & H2 & H3).
    simpl. split; auto. split; auto. apply split_term_non_mul, H2.
  - simpl mul_of. split; [apply canon_mul_plain; auto; simpl; lia|].
    split; [reflexivity|]. apply split_term_plain, Hok.
Qed.

Lemma Qeq_1_reduced c : Qred c = c -> (c == 1)%Q -> c = 1%Q.
Proof. intros Hr H. rewrite <- Hr. apply Qred_complete in H. rewrite H. reflexivity. Qed.

Lemma rebuild_one k : rebuild_term (k, 1%Q) = k.
Proof. reflexivity. Qed.

Lemma split_term_spec t : canon t = true -> is_num t = false ->
  key_ok (fst (split_term t)) /\ Qred (snd (split_term t)) = snd (split_term t) /\
  ~ (snd (split_term t) == 0)%Q /\ rebuild_term (split_term t) = t.
Proof.
  intros Hc Hn. destruct (is_mul t) eqn:Hm.
  2:{ rewrite split_term_non_mul by exact Hm. simpl.
      repeat split; auto using split_term_non_mul. discriminate. }
  destruct t as [| | | |l| |]; try discriminate. clear Hm.
  destruct (canon_mul_inv _ Hc) as [[Hok Hl]|(c & q & fs & -> & Hq & Hcq & Hr & H0 & H1 & Hok & Hne)].
  - rewrite split_term_plain by exact Hok. simpl.
    repeat split; auto using split_term_plain. discriminate.
  - assert (Hsplit : split_term (Mul (c :: fs)) = (mul_of fs, q)) by (simpl; rewrite Hq; reflexivity).
    rewrite Hsplit. simpl. split; [apply mul_ok_key; auto|].
    split; [exact Hr|split; [exact H0|]].
    unfold rebuild_term. rewrite (Qeq_bool_false _ _ H1).
    destruct fs as [|f [|g r]]; [congruence| |]; simpl; rewrite Hcq; auto.
    destruct Hok as [HF _]. apply Forall_inv in HF as (_ & Hf2 & _).
    destruct f; try reflexivity. discriminate.
Qed.

Lemma rebuild_spec k c : key_ok k -> Qred c = c -> ~ (c == 0)%Q ->
  canon (rebuild_term (k, c)) = true /\ is_num (rebuild_term (k, c)) = false /\
  split_term (rebuild_term (k, c)) = (k, c).
Proof.
  intros (Hc & Hn & Hs) Hr H0. unfold rebuild_term.
  destruct (Qeq_bool c 1) eqn:E.
  { apply Qeq_bool_iff, Qeq_1_reduced in E; auto. subst. auto. }
  apply Qeq_bool_neq in E.
  assert (Hsplit : forall fs, split_term (Mul (mk_num c :: fs)) = (mul_of fs, c)).
  { intros fs. simpl. rewrite num_val_mk_num, Hr. reflexivity. }
  destruct (is_mul k) eqn:Hm.
  - destruct k as [| | | |fs| |]; try discriminate.
    destruct (canon_mul_inv _ Hc) as [[Hok Hl]|(c' & q & fs' & -> & Hq & _ & _ & _ & H1 & _ & _)].
    + assert (Hmul : mul_of fs = Mul fs)
        by (destruct fs as [|? [|? ?]]; simpl in Hl; try lia; reflexivity).
      split; [apply canon_mul_coef; auto; destruct fs; simpl in Hl; [lia|congruence]|].
      split; [reflexivity|]. rewrite Hsplit, Hmul. reflexivity.
    + exfalso. simpl in Hs. rewrite Hq in Hs. injection Hs as _ Hq1. subst. apply H1. reflexivity.
  - assert (Hk : match k with Mul fs => Mul (mk_num c :: fs) | _ => Mul [mk_num c; k] end
                 = Mul [mk_num c; k]) by (destruct k; try discriminate; reflexivity).
    rewrite Hk. split; [|split; [reflexivity|]].
    + apply canon_mul_coef; auto using mul_ok_single. discriminate.
    + apply (Hsplit [k]).
Qed.

(* ------------------------------------------------------------------ *)
(** ** Flattening and the numeric parts *)

Lemma canon_add_inv l : canon (Add l) = true ->
  Forall (fun t => canon t = true /\ is_add t = false /\ nonzero_num t = true) l /\
  sortedb l = true /\ (count_nums l <=? 1)%nat = true /\
  NoDup (map term_key (non_nums l)) /\ (2 <= List.length l)%nat.
Proof.
  simpl. unfold canon_add_list. intros H.
  apply andb_true_iff in H as [Hc H]. apply andb_true_iff in H as [H Hlen].
  apply andb_true_iff in H as [H Hnd]. apply andb_true_iff in H as [H Hs].
  apply andb_true_iff in H as [H Hz]. apply andb_true_iff in H as [Ha Hcnt].
  apply forallb_Forall in Hc, Ha, Hz.
  repeat split; auto.
  - apply Forall_forall. intros t Ht. rewrite Forall_forall in Hc, Ha, Hz.
    specialize (Ha t Ht). apply negb_true_iff in Ha. auto.
  - apply nodupb_NoDup. exact Hnd.
  - apply Nat.leb_le. exact Hlen.
Qed.

Lemma canon_add_intro ts :
  Forall (fun t => canon t = true /\ is_add t = false /\ nonzero_num t = true) ts ->
  sortedb ts = true -> (count_nums ts <= 1)%nat ->
  NoDup (map term_key (non_nums ts)) -> (2 <= List.length ts)%nat ->
  canon (Add ts) = true.
Proof.
  intros HF Hs Hc Hnd Hl. simpl. unfold canon_add_list.
  assert (H1 : forallb canon ts = true)
    by (apply forallb_Forall; eapply Forall_impl; [|exact HF]; simpl; tauto).
  assert (H2 : forallb (fun t => negb (is_add t)) ts = true)
    by (apply forallb_Forall; eapply Forall_impl; [|exact HF]; simpl; intros a (_ & -> & _); reflexivity).
  assert (H3 : forallb nonzero_num ts = true)
    by (apply forallb_Forall; eapply Forall_impl; [|exact HF]; simpl; tauto).
  apply nodupb_NoDup in Hnd. apply Nat.leb_le in Hc, Hl.
  rewrite H1, H2, H3, Hs, Hnd, Hc, Hl. reflexivity.
Qed.

Lemma flatten_add_id l : Forall (fun t => is_add t = false) l -> flatten_add l = l.
Proof.
  induction 1 as [|t l Ht _ IH]; auto. unfold flatten_add in *. simpl. rewrite IH.
  destruct t; try discriminate; reflexivity.
Qed.

Lemma flatten_mul_id l : Forall (fun t => is_mul t = false) l -> flatten_mul l = l.
Proof.
  induction 1 as [|t l Ht _ IH]; auto. unfold flatten_mul in *. simpl. rewrite IH.
  destruct t; try discriminate; reflexivity.
Qed.

Lemma num_sum_non_num l : Forall (fun b => is_num b = false) l -> num_sum l = 0%Q.
Proof.
  induction 1 as [|b l Hb _ IH]; auto. unfold num_sum in *. simpl.
  rewrite is_num_false_num_val by exact Hb. exact IH.
Qed.

Lemma num_prod_non_num l : Forall (fun b => is_num b = false) l -> num_prod l = 1%Q.
Proof.
  induction 1 as [|b l Hb _ IH]; auto. unfold num_prod in *. simpl.
  rewrite is_num_false_num_val by exact Hb. exact IH.
Qed.

Lemma filter_id {A} (f : A -> bool) l : Forall (fun a => f a = true) l -> filter f l = l.
Proof. induction 1 as [|a l Ha _ IH]; simpl; auto. rewrite Ha. congruence. Qed.

Lemma flatten_add_ok l : Forall (fun t => canon t = true) l ->
  Forall (fun t => canon t = true /\ is_add t = false) (flatten_add l).
Proof.
  induction 1 as [|t l Ht _ IH]; [constructor|]. unfold flatten_add in *. simpl.
  apply Forall_app_iff. split; auto.
  destruct t; try (constructor; auto; fail).
  destruct (canon_add_inv _ Ht) as (HF & _). eapply Forall_impl; [|exact HF]. simpl. tauto.
Qed.

Lemma flatten_mul_ok l : Forall (fun t => canon t = true) l ->
  Forall (fun t => canon t = true /\ is_mul t = false) (flatten_mul l).
Proof.
  induction 1 as [|t l Ht _ IH]; [constructor|]. unfold flatten_mul in *. simpl.
  apply Forall_app_iff. split; auto.
  destruct t; try (constructor; auto; fail).
  destruct (canon_mul_inv _ Ht) as [[(HF & _) _]|(c & q & fs & -> & Hq & Hcq & _ & _ & _ & (HF & _) & _)].
  - eapply Forall_impl; [|exact HF]. simpl. tauto.
  - constructor.
    + rewrite <- Hcq. split; [apply mk_num_canon|apply is_mul_mk_num].
    + eapply Forall_impl; [|exact HF]. simpl. tauto.
Qed.

Lemma num_sum_reduced l : Qred (num_sum l) = num_sum l.
Proof.
  induction l as [|t l IH]; [reflexivity|]. unfold num_sum in *. simpl.
  destruct (num_val t); auto. apply qadd_reduced.
Qed.

Lemma num_prod_reduced l : Qred (num_prod l) = num_prod l.
Proof.
  induction l as [|t l IH]; [reflexivity|]. unfold num_prod in *. simpl.
  destruct (num_val t); auto. apply qmul_reduced.
Qed.

Lemma collect_Forall (P : Expr -> Prop) l :
  Forall (fun p => P (fst p) /\ Qred (snd p) = snd p) l ->
  Forall (fun p => P (fst p) /\ Qred (snd p) = snd p) (collect l).
Proof.
  induction 1 as [|[k c] l Hp _ IH]; simpl; [constructor|].
  simpl in Hp. destruct Hp as [Hk Hc].
  induction IH as [|[k' c'] m Hp' Hm IHm]; simpl; [constructor; auto|].
  destruct (expr_cmp k k') eqn:E.
  - apply expr_cmp_eq in E. subst. constructor; auto. simpl. split; [tauto|apply qadd_reduced].
  - constructor; auto.
  - constructor; auto.
Qed.

Lemma NoDup_map_fst_filter {B} (f : Expr * B -> bool) l :
  NoDup (map fst l) -> NoDup (map fst (filter f l)).
Proof.
  induction l as [|p l IH]; simpl; auto. intros H. inversion H; subst.
  destruct (f p); simpl; auto. constructor; auto.
  intros Hin. apply in_map_iff in Hin as [p' [Hp' Hin]]. apply filter_In in Hin as [Hin _].
  apply H2. rewrite <- Hp'. apply in_map, Hin.
Qed.

Lemma sort_single_in l t : sort_exprs l = [t] -> In t l.
Proof.
  intros H. apply (Permutation_in _ (sort_exprs_perm l)). rewrite H. left. reflexivity.
Qed.

(* ------------------------------------------------------------------ *)
(** ** Canonical sums *)

Definition term_ok (t : Expr) : Prop :=
  canon t = true /\ is_num t = false /\ is_add t = false.

Lemma non_nums_ok l : Forall (fun t => canon t = true /\ is_add t = false) l ->
  Forall term_ok (non_nums l).
Proof.
  intros HF. apply Forall_forall. intros t Ht. apply filter_In in Ht as [Hin Hn].
  apply negb_true_iff in Hn. rewrite Forall_forall in HF. destruct (HF t Hin). split; auto.
Qed.

Lemma split_map_ok ts : Forall term_ok ts ->
  Forall (fun p => key_ok (fst p) /\ Qred (snd p) = snd p) (map split_term ts).
Proof.
  intros HF. apply Forall_map. eapply Forall_impl; [|exact HF]. intros t (H1 & H2 & _).
  destruct (split_term_spec t H1 H2) as (? & ? & _). auto.
Qed.

Lemma add_round_ok ts : Forall term_ok ts ->
  Forall (fun t => canon t = true /\ is_add t = false) (add_round ts).
Proof.
  intros HF. unfold add_round. apply flatten_add_ok. apply Forall_map.
  pose proof (collect_Forall _ _ (split_map_ok ts HF)) as HC.
  apply Forall_forall. intros [k c] Hp. apply filter_In in Hp as [Hin Hz].
  rewrite Forall_forall in HC. destruct (HC _ Hin) as [Hk Hr]. simpl in *.
  apply negb_true_iff, Qeq_bool_neq in Hz. apply (rebuild_spec k c Hk Hr Hz).
Qed.

Lemma add_loop_ok n : forall s ts, Qred s = s -> Forall term_ok ts ->
  Qred (fst (add_loop n s ts)) = fst (add_loop n s ts) /\ Forall term_ok (snd (add_loop n s ts)).
Proof.
  induction n as [|n IH]; intros s ts Hs HF; [split; assumption|].
  cbn [add_loop]. pose proof (non_nums_ok _ (add_round_ok ts HF)) as HN.
  destruct (nodupb _); [split; [apply qadd_reduced|exact HN]|].
  apply IH; [apply qadd_reduced|exact HN].
Qed.

Lemma build_add_canon s ts : Qred s = s -> Forall term_ok ts -> NoDup (map term_key ts) ->
  canon (build_add s ts) = true.
Proof.
  intros Hsr HT Hnd. unfold build_add.
  set (prefix := if Qeq_bool s 0 then [] else [mk_num s]).
  assert (HP : Forall (fun t => canon t = true /\ is_add t = false /\ nonzero_num t = true) prefix /\
               (count_nums prefix <= 1)%nat /\ non_nums prefix = []).
  { unfold prefix. destruct (Qeq_bool s 0) eqn:Es; simpl.
    - split; [constructor|split; [unfold count_nums; simpl; lia|reflexivity]].
    - assert (Hn : is_num (mk_num s) = true) by apply is_num_mk_num.
      split; [constructor; [|constructor]|].
      + split; [apply mk_num_canon|split; [apply is_add_mk_num|]].
        unfold nonzero_num. rewrite num_val_mk_num, Hsr, Es. reflexivity.
      + unfold count_nums, non_nums. simpl. rewrite Hn. simpl. split; [lia|reflexivity]. }
  destruct HP as (HP1 & HP2 & HP3).
  assert (HTn : Forall (fun b => is_num b = false) ts)
    by (eapply Forall_impl; [|exact HT]; intros t (_ & ? & _); assumption).
  assert (HA : Forall (fun t => canon t = true /\ is_add t = false /\ nonzero_num t = true) (prefix ++ ts)).
  { apply Forall_app_iff. split; auto. eapply Forall_impl; [|exact HT].
    intros t (H1 & H2 & H3). split; auto. split; auto. apply nonzero_non_num, H2. }
  assert (Hcnt : (count_nums (prefix ++ ts) <= 1)%nat)
    by (rewrite count_nums_app, (count_nums_non_num ts HTn); lia).
  assert (Hkeys : NoDup (map term_key (non_nums (prefix ++ ts)))).
  { rewrite non_nums_app, HP3, (non_nums_id _ HTn). exact Hnd. }
  set (all := prefix ++ ts) in *.
  destruct (sort_exprs all) as [|t [|t2 r]] eqn:Hsrt.
  - reflexivity.
  - apply sort_single_in in Hsrt. rewrite Forall_forall in HA. apply HA, Hsrt.
  - assert (Hp : Permutation all (t :: t2 :: r)) by (rewrite <- Hsrt; apply Permutation_sym, sort_exprs_perm).
    apply canon_add_intro.
    + eapply Forall_perm; eauto.
    + rewrite <- Hsrt. apply sort_exprs_sorted.
    + rewrite <- (count_nums_perm _ _ Hp). exact Hcnt.
    + eapply Permutation_NoDup; [|exact Hkeys].
      apply Permutation_map, Permutation_filter, Hp.
    + simpl. lia.
Qed.

Lemma norm_add_canon l : Forall (fun t => canon t = true) l -> canon (norm_add l) = true.
Proof.
  intros Hl. unfold norm_add.
  pose proof (non_nums_ok _ (flatten_add_ok _ Hl)) as HN.
  set (ts := non_nums (flatten_add l)) in *.
  set (s := num_sum (flatten_add l)).
  destruct (add_loop_ok (S (S (key_weight ts))) s ts (num_sum_reduced _) HN) as [H1 H2].
  apply build_add_canon; auto. apply add_loop_top. lia.
Qed.

(* ------------------------------------------------------------------ *)
(** ** Sums whose terms are already collected *)

Lemma map_rebuild_split ts : Forall term_ok ts -> map rebuild_term (map split_term ts) = ts.
Proof.
  induction 1 as [|t l (H1 & H2 & H3) _ IH]; simpl; auto. f_equal; auto.
  apply split_term_spec; auto.
Qed.

Lemma add_round_fresh ts : Forall term_ok ts -> NoDup (map term_key ts) ->
  Permutation (add_round ts) ts.
Proof.
  intros HF Hnd. unfold add_round.
  assert (Hp : Permutation (map rebuild_term (filter (fun p => negb (Qeq_bool (snd p) 0))
                 (collect (map split_term ts)))) ts).
  { rewrite <- (map_rebuild_split _ HF) at 2. apply Permutation_map.
    eapply perm_trans; [apply Permutation_filter, collect_fresh; rewrite map_fst_split; exact Hnd|].
    rewrite filter_id; auto.
    apply Forall_forall. intros p Hp. apply in_map_iff in Hp as [t [<- Ht]].
    rewrite Forall_forall in HF. destruct (HF t Ht) as (H1 & H2 & H3).
    destruct (split_term_spec t H1 H2) as (_ & _ & Hz & _).
    apply negb_true_iff, Qeq_bool_false, Hz. }
  rewrite flatten_add_id; [exact Hp|].
  eapply Forall_perm; [apply Permutation_sym, Hp|]. eapply Forall_impl; [|exact HF].
  intros t (_ & _ & H). exact H.
Qed.

Lemma add_loop_fresh n s ts : Qred s = s -> Forall term_ok ts -> NoDup (map term_key ts) ->
  exists rs, add_loop (S n) s ts = (s, rs) /\ Permutation rs ts.
Proof.
  intros Hs HF Hnd. pose proof (add_round_fresh ts HF Hnd) as Hp.
  assert (Hn : Forall (fun b => is_num b = false) (add_round ts)).
  { eapply Forall_perm; [apply Permutation_sym, Hp|]. eapply Forall_impl; [|exact HF].
    intros t (_ & H & _). exact H. }
  cbn [add_loop]. rewrite (non_nums_id _ Hn), (num_sum_non_num _ Hn), (qadd_0_r _ Hs).
  rewrite (nodupb_perm _ _ (Permutation_map term_key Hp)), (proj2 (nodupb_NoDup _) Hnd).
  exists (add_round ts). split; [reflexivity|exact Hp].
Qed.

Lemma build_add_perm s ts ts' : Permutation ts ts' -> build_add s ts = build_add s ts'.
Proof.
  intros H. unfold build_add. rewrite (sort_exprs_perm_eq _ _ (Permutation_app_head _ H)).
  reflexivity.
Qed.

Lemma norm_add_fresh l : Forall (fun t => canon t = true /\ is_add t = false) l ->
  NoDup (map term_key (non_nums l)) -> norm_add l = build_add (num_sum l) (non_nums l).
Proof.
  intros HF Hnd. unfold norm_add.
  rewrite flatten_add_id by (eapply Forall_impl; [|exact HF]; simpl; tauto).
  destruct (add_loop_fresh (S (key_weight (non_nums l))) (num_sum l) (non_nums l)
              (num_sum_reduced _) (non_nums_ok _ HF) Hnd) as [rs [E Hp]].
  rewrite E. apply build_add_perm, Hp.
Qed.

Lemma norm_add_id l : canon (Add l) = true -> norm_add l = Add l.
Proof.
  intros Hc. destruct (canon_add_inv _ Hc) as (HF & Hs & Hcnt & Hnd & Hlen).
  rewrite norm_add_fresh; [|eapply Forall_impl; [|exact HF]; simpl; tauto|exact Hnd].
  pose proof (sorted_nums_first _ Hs) as Hl. unfold build_add.
  destruct (count_nums_le1 _ Hcnt) as [Hn|[c Hn]]; rewrite Hn in Hl; simpl in Hl.
  - rewrite num_sum_non_num by (rewrite Hl; apply non_nums_non_num). simpl.
    rewrite <- Hl, sort_exprs_id by exact Hs.
    destruct l as [|a [|b r]]; simpl in Hlen; try lia; reflexivity.
  - pose proof (filter_is_num_one _ _ Hn) as Hcn.
    destruct (proj1 (num_val_is_num c) Hcn) as [q Hq].
    assert (Hcc : canon c = true /\ nonzero_num c = true).
    { rewrite Forall_forall in HF. destruct (HF c) as (? & _ & ?); auto. rewrite Hl. left. auto. }
    destruct Hcc as [Hcc Hz]. unfold nonzero_num in Hz. rewrite Hq in Hz. apply negb_true_iff in Hz.
    assert (Hsum : num_sum l = q).
    { rewrite Hl. unfold num_sum. simpl. rewrite Hq. fold (num_sum (non_nums l)).
      rewrite num_sum_non_num by apply non_nums_non_num.
      apply qadd_0_r. eapply num_val_reduced; eauto. }
    rewrite Hsum, Hz. simpl. rewrite (mk_num_of_canon _ _ Hcc Hq).
    change (insert_expr c (sort_exprs (non_nums l))) with (sort_exprs (c :: non_nums l)).
    rewrite <- Hl, sort_exprs_id by exact Hs.
    destruct l as [|a [|b r]]; simpl in Hlen; try lia; reflexivity.
Qed.

Lemma Qeq_0_reduced c : Qred c = c -> (c == 0)%Q -> c = 0%Q.
Proof. intros Hr H. rewrite <- Hr. apply Qred_complete in H. rewrite H. reflexivity. Qed.

Lemma norm_add_single t : canon t = true -> norm_add [t] = t.
Proof.
  intros Hc. destruct (is_add t) eqn:Ha.
  - destruct t as [| | |ts| | |]; try discriminate.
    transitivity (norm_add ts); [|apply norm_add_id, Hc]. unfold norm_add.
    assert (E : flatten_add [Add ts] = flatten_add ts).
    { destruct (canon_add_inv _ Hc) as (HF & _). transitivity ts.
      - unfold flatten_add. simpl. apply app_nil_r.
      - symmetry. apply flatten_add_id. eapply Forall_impl; [|exact HF]. simpl. tauto. }
    rewrite E. reflexivity.
  - rewrite norm_add_fresh.
    2:{ constructor; [split; assumption|constructor]. }
    2:{ unfold non_nums. simpl. destruct (is_num t); simpl; constructor; [intros []|constructor]. }
    unfold build_add, non_nums, num_sum. simpl.
    destruct (num_val t) as [q|] eqn:Hq.
    + assert (Hn : is_num t = true) by (apply num_val_is_num; eauto). rewrite Hn. simpl.
      pose proof (num_val_reduced _ _ Hc Hq) as Hr. rewrite (qadd_0_r _ Hr).
      rewrite <- (mk_num_of_canon _ _ Hc Hq).
      destruct (Qeq_bool q 0) eqn:E; [|reflexivity].
      apply Qeq_bool_iff, Qeq_0_reduced in E; auto. subst. reflexivity.
    + assert (Hn : is_num t = false) by (unfold is_num; rewrite Hq; reflexivity). rewrite Hn.
      reflexivity.
Qed.


(* ------------------------------------------------------------------ *)
(** ** Canonical products *)

Definition factor_ok (f : Expr) : Prop :=
  canon f = true /\ is_num f = false /\ is_mul f = false.

Lemma mapM_exists {A B} (f : A -> Result B) (P : A -> B -> Prop) l :
  (forall a, In a l -> exists b, f a = Ok b /\ P a b) ->
  exists ys, mapM f l = Ok ys /\ Forall2 P l ys.
Proof.
  induction l as [|a l IH]; intros H; [exists []; split; [reflexivity|constructor]|].
  destruct (H a (or_introl eq_refl)) as [b [Hb Pb]].
  destruct IH as [ys [Hys Pys]]; [intros a' Ha'; apply H; right; exact Ha'|].
  exists (b :: ys). simpl. rewrite Hb. simpl. rewrite Hys. split; [reflexivity|constructor; auto].
Qed.

Lemma canon_base_of f : canon f = true -> canon (base_of f) = true.
Proof. destruct f; simpl; auto. intros H. split_andb. assumption. Qed.

Lemma canon_exp_of f : canon f = true -> canon (exp_of f) = true.
Proof. destruct f; simpl; auto. intros H. split_andb. assumption. Qed.

Lemma base_in_bases k fs : In k (bases fs) -> exists f, In f fs /\ base_of f = k.
Proof.
  intros H. apply bases_in, in_map_iff in H as [f [<- Hf]]. exists f. auto.
Qed.

Lemma exps_of_canon k fs : Forall (fun f => canon f = true) fs ->
  Forall (fun e => canon e = true) (exps_of k fs).
Proof.
  intros HF. unfold exps_of. apply Forall_map. apply Forall_forall. intros f Hf.
  apply filter_In in Hf as [Hf _]. rewrite Forall_forall in HF. apply canon_exp_of, HF, Hf.
Qed.

Lemma mul_round_ok fs rs : Forall factor_ok fs -> mul_round fs = Ok rs ->
  Forall (fun t => canon t = true /\ is_mul t = false) rs.
Proof.
  intros HF H. unfold mul_round in H.
  destruct (mapM _ (bases fs)) as [ys|err] eqn:E; simpl in H; [|discriminate].
  inversion H; subst. clear H. apply flatten_mul_ok. apply mapM_ok in E.
  assert (HC : Forall (fun f => canon f = true) fs) by (eapply Forall_impl; [|exact HF]; intros f []; auto).
  assert (Hk : forall k, In k (bases fs) -> canon k = true).
  { intros k Hk. destruct (base_in_bases k fs Hk) as [f [Hf <-]].
    rewrite Forall_forall in HC. apply canon_base_of, HC, Hf. }
  clear -E Hk HC. induction E as [|k y ks ys Hy _ IH]; constructor.
  - eapply mk_pow_canon; [apply Hk; left; reflexivity| |exact Hy].
    apply norm_add_canon, exps_of_canon, HC.
  - apply IH. intros k' Hk'. apply Hk. right. exact Hk'.
Qed.

Lemma non_nums_factor_ok l : Forall (fun t => canon t = true /\ is_mul t = false) l ->
  Forall factor_ok (non_nums l).
Proof.
  intros HF. apply Forall_forall. intros t Ht. apply filter_In in Ht as [Hin Hn].
  apply negb_true_iff in Hn. rewrite Forall_forall in HF. destruct (HF t Hin). split; auto.
Qed.

Lemma mul_loop_ok n : forall p fs r, Qred p = p -> Forall factor_ok fs -> mul_loop n p fs = Ok r ->
  Qred (fst r) = fst r /\ Forall factor_ok (snd r).
Proof.
  induction n as [|n IH]; intros p fs r Hp HF H; cbn [mul_loop] in H.
  - inversion H; subst. split; assumption.
  - destruct (mul_round fs) as [rs|err] eqn:Er; simpl in H; [|discriminate].
    pose proof (non_nums_factor_ok _ (mul_round_ok _ _ HF Er)) as HN.
    destruct (Qeq_bool _ 0); [inversion H; subst; split; [apply qmul_reduced|constructor]|].
    destruct (nodupb _); [inversion H; subst; split; [apply qmul_reduced|exact HN]|].
    eapply IH; [apply qmul_reduced|exact HN|exact H].
Qed.

Lemma build_mul_canon p fs : Qred p = p -> Forall factor_ok fs ->
  (fs = [] \/ NoDup (map base_of fs)) -> canon (build_mul p fs) = true.
Proof.
  intros Hp HF Hnd. unfold build_mul.
  assert (Hok : forall ts, ts = sort_exprs fs -> mul_ok ts).
  { intros ts ->. pose proof (sort_exprs_perm fs) as HP. split; [|split].
    - eapply Forall_perm; [apply Permutation_sym, HP|]. eapply Forall_impl; [|exact HF].
      intros f (? & ? & ?). auto.
    - apply sort_exprs_sorted.
    - destruct Hnd as [->|Hnd]; [constructor|].
      eapply Permutation_NoDup; [apply Permutation_map, Permutation_sym, HP|exact Hnd]. }
  destruct (Qeq_bool p 0) eqn:E0; [reflexivity|].
  destruct (Qeq_bool p 1) eqn:E1.
  - destruct (sort_exprs fs) as [|t [|t2 r]] eqn:Hs; [reflexivity| |].
    + apply sort_single_in in Hs. rewrite Forall_forall in HF. apply HF, Hs.
    + apply canon_mul_plain; [apply Hok; reflexivity|simpl; lia].
  - apply Qeq_bool_neq in E0, E1.
    destruct (sort_exprs fs) as [|t r] eqn:Hs; [apply mk_num_canon|].
    apply canon_mul_coef; first [discriminate | apply Hok; reflexivity | assumption].
Qed.

Lemma norm_mul_canon l r : Forall (fun t => canon t = true) l -> norm_mul l = Ok r ->
  canon r = true.
Proof.
  intros Hl H. unfold norm_mul in H.
  destruct (Qeq_bool (num_prod (flatten_mul l)) 0); [inversion H; reflexivity|].
  pose proof (non_nums_factor_ok _ (flatten_mul_ok _ Hl)) as HN.
  destruct (mul_loop _ _ _) as [[p fs]|err] eqn:E; simpl in H; [|discriminate].
  inversion H; subst. clear H.
  pose proof (mul_loop_ok _ _ _ _ (num_prod_reduced _) HN E) as [Hp HF].
  apply build_mul_canon; auto. exact (mul_loop_top _ _ _ _ (le_n _) E).
Qed.

(* ------------------------------------------------------------------ *)
(** ** Products whose factors are already merged *)

Lemma filter_id_nil {A} (f : A -> bool) l : (forall x, In x l -> f x = false) -> filter f l = [].
Proof.
  induction l as [|a l IH]; intros H; [reflexivity|]. simpl.
  rewrite (H a (or_introl eq_refl)). apply IH. intros x Hx. apply H. right. exact Hx.
Qed.

Lemma dedup_id l : NoDup l -> dedup l = l.
Proof.
  induction 1 as [|a l Ha _ IH]; [reflexivity|]. simpl.
  destruct (existsb (expr_eqb a) l) eqn:E.
  - apply existsb_eqb_in in E. contradiction.
  - f_equal. exact IH.
Qed.

Lemma filter_unique (g : Expr -> Expr) l f : NoDup (map g l) -> In f l ->
  filter (fun x => expr_eqb (g x) (g f)) l = [f].
Proof.
  induction l as [|a l IH]; [intros _ []|]. intros Hnd Hin. simpl in Hnd.
  inversion Hnd as [|? ? Hna Hnd']; subst. simpl.
  destruct Hin as [->|Hin].
  - rewrite (proj2 (expr_eqb_eq _ _) eq_refl). f_equal.
    apply filter_id_nil. intros x Hx. destruct (expr_eqb (g x) (g f)) eqn:E; [|reflexivity].
    apply expr_eqb_eq in E. exfalso. apply Hna. rewrite <- E. apply in_map, Hx.
  - destruct (expr_eqb (g a) (g f)) eqn:E.
    + apply expr_eqb_eq in E. exfalso. apply Hna. rewrite E. apply in_map, Hin.
    + apply IH; auto.
Qed.

Lemma mk_pow_base_exp f : canon f = true -> mk_pow (base_of f) (exp_of f) = Ok f.
Proof.
  intros Hc. destruct f as [| | | | |b e|]; try apply mk_pow_int1.
  simpl in Hc. split_andb. apply mk_pow_irred. assumption.
Qed.

Lemma mul_round_fresh fs : Forall factor_ok fs -> NoDup (map base_of fs) ->
  exists rs, mul_round fs = Ok rs /\ Permutation rs fs.
Proof.
  intros HF Hnd. unfold mul_round.
  destruct (mapM_exists (fun k => mk_pow k (norm_add (exps_of k fs)))
              (fun k y => In y fs /\ base_of y = k) (bases fs)) as [ys [E HP]].
  { intros k Hk. destruct (base_in_bases k fs Hk) as [f [Hf <-]].
    exists f. split; [|auto]. unfold exps_of. rewrite (filter_unique base_of fs f Hnd Hf).
    rewrite Forall_forall in HF. destruct (HF f Hf) as (Hc & _ & _).
    simpl. rewrite norm_add_single by (apply canon_exp_of, Hc). apply mk_pow_base_exp, Hc. }
  rewrite E. simpl.
  assert (Hb : map base_of ys = bases fs).
  { clear -HP. induction HP as [|k y ks ys [_ Hy] _ IH]; simpl; congruence. }
  assert (Hin : incl ys fs).
  { clear -HP. intros y Hy. induction HP as [|k y' ks ys [Hy' _] _ IH]; [destruct Hy|].
    destruct Hy as [<-|Hy]; auto. }
  assert (Hp : Permutation ys fs).
  { apply NoDup_Permutation_bis.
    - apply (NoDup_map_inv base_of). rewrite Hb. apply bases_nodup.
    - rewrite <- (length_map base_of ys), Hb. unfold bases.
      rewrite dedup_id by (eapply Permutation_NoDup; [apply Permutation_sym, sort_exprs_perm|exact Hnd]).
      rewrite (Permutation_length (sort_exprs_perm _)), length_map. lia.
    - exact Hin. }
  exists ys. split; [|exact Hp]. f_equal. apply flatten_mul_id.
  eapply Forall_perm; [apply Permutation_sym, Hp|]. eapply Forall_impl; [|exact HF].
  intros f (_ & _ & H). exact H.
Qed.

Lemma mul_loop_fresh n p fs : Qred p = p -> ~ (p == 0)%Q -> Forall factor_ok fs ->
  NoDup (map base_of fs) -> exists rs, mul_loop (S n) p fs = Ok (p, rs) /\ Permutation rs fs.
Proof.
  intros Hp Hp0 HF Hnd. destruct (mul_round_fresh fs HF Hnd) as [rs [Er Hrs]].
  assert (Hn : Forall (fun b => is_num b = false) rs).
  { eapply Forall_perm; [apply Permutation_sym, Hrs|]. eapply Forall_impl; [|exact HF].
    intros t (_ & H & _). exact H. }
  cbn [mul_loop]. rewrite Er. simpl.
  rewrite (non_nums_id _ Hn), (num_prod_non_num _ Hn), (qmul_1_r _ Hp).
  rewrite (Qeq_bool_false _ _ Hp0).
  rewrite (nodupb_perm _ _ (Permutation_map base_of Hrs)), (proj2 (nodupb_NoDup _) Hnd).
  exists rs. split; [reflexivity|exact Hrs].
Qed.

Lemma build_mul_perm p fs fs' : Permutation fs fs' -> build_mul p fs = build_mul p fs'.
Proof. intros H. unfold build_mul. rewrite (sort_exprs_perm_eq _ _ H). reflexivity. Qed.

Lemma norm_mul_fresh l : Forall (fun t => canon t = true /\ is_mul t = false) l ->
  NoDup (map base_of (non_nums l)) -> ~ (num_prod l == 0)%Q ->
  norm_mul l = Ok (build_mul (num_prod l) (non_nums l)).
Proof.
  intros HF Hnd H0. unfold norm_mul.
  rewrite flatten_mul_id by (eapply Forall_impl; [|exact HF]; simpl; tauto).
  rewrite (Qeq_bool_false _ _ H0).
  destruct (mul_loop_fresh (S (base_weight (non_nums l))) (num_prod l) (non_nums l)
              (num_prod_reduced _) H0 (non_nums_factor_ok _ HF) Hnd) as [rs [E Hp]].
  rewrite E. simpl. f_equal. apply build_mul_perm, Hp.
Qed.

Lemma norm_mul_id l : canon (Mul l) = true -> norm_mul l = Ok (Mul l).
Proof.
  intros Hc. pose proof (canon_mul_inv _ Hc) as Hinv.
  assert (HF : Forall (fun t => canon t = true /\ is_mul t = false) l).
  { simpl in Hc. apply andb_true_iff in Hc as [Hc1 Hc]. unfold canon_mul_list in Hc.
    repeat (apply andb_true_iff in Hc as [Hc _]).
    apply forallb_Forall in Hc, Hc1. apply Forall_forall. intros a Ha.
    rewrite Forall_forall in Hc, Hc1. split; [auto|apply negb_true_iff, Hc, Ha]. }
  destruct Hinv as [[(HF' & Hs & Hnd) Hl]|(c & q & fs & -> & Hq & Hcq & Hr & H0 & H1 & (HF' & Hs & Hnd) & Hne)].
  - assert (Hnn : Forall (fun b => is_num b = false) l)
      by (eapply Forall_impl; [|exact HF']; simpl; tauto).
    rewrite norm_mul_fresh; auto.
    2:{ rewrite (non_nums_id _ Hnn). exact Hnd. }
    2:{ rewrite (num_prod_non_num _ Hnn). discriminate. }
    rewrite (num_prod_non_num _ Hnn), (non_nums_id _ Hnn). unfold build_mul. simpl.
    rewrite sort_exprs_id by exact Hs.
    destruct l as [|a [|b r]]; simpl in Hl; try lia; reflexivity.
  - assert (Hnn : Forall (fun b => is_num b = false) fs)
      by (eapply Forall_impl; [|exact HF']; simpl; tauto).
    assert (Hcn : is_num c = true) by (apply num_val_is_num; eauto).
    assert (Hp : num_prod (c :: fs) = q).
    { unfold num_prod. simpl. rewrite Hq. fold (num_prod fs). rewrite num_prod_non_num by exact Hnn.
      apply qmul_1_r, Hr. }
    assert (Hn : non_nums (c :: fs) = fs).
    { unfold non_nums. simpl. rewrite Hcn. simpl. apply non_nums_id, Hnn. }
    rewrite norm_mul_fresh; auto; rewrite ?Hn, ?Hp; auto.
    unfold build_mul. rewrite (Qeq_bool_false _ _ H0), (Qeq_bool_false _ _ H1).
    rewrite sort_exprs_id by exact Hs. rewrite Hcq.
    destruct fs; [congruence|reflexivity].
Qed.


(* ------------------------------------------------------------------ *)
(** ** The simplifier produces canonical trees and fixes them *)

Lemma mapM_Forall {A B} (f : A -> Result B) (Q : B -> Prop) l ys :
  Forall (fun a => forall y, f a = Ok y -> Q y) l -> mapM f l = Ok ys -> Forall Q ys.
Proof.
  intros HF H. apply mapM_ok in H. induction H as [|a y l ys Hy _ IH]; [constructor|].
  inversion HF; subst. constructor; auto.
Qed.

Lemma simplify_canon e : forall s, simplify e = Ok s -> canon s = true.
Proof.
  induction e as [x|z|n d|l IH|l IH|b e IHb IHe|f a IH] using Expr_ind'; intros s H; simpl in H.
  - inversion H. reflexivity.
  - inversion H. reflexivity.
  - inversion H. apply mk_num_canon.
  - destruct (mapM simplify l) as [l'|err] eqn:E; simpl in H; [|discriminate].
    inversion H; subst. apply norm_add_canon. exact (mapM_Forall _ _ _ _ IH E).
  - destruct (mapM simplify l) as [l'|err] eqn:E; simpl in H; [|discriminate].
    exact (norm_mul_canon _ _ (mapM_Forall _ _ _ _ IH E) H).
  - destruct (simplify b) as [b'|err] eqn:Eb; simpl in H; [|discriminate].
    destruct (simplify e) as [e'|err] eqn:Ee; simpl in H; [|discriminate].
    exact (mk_pow_canon b' e' s (IHb _ eq_refl) (IHe _ eq_refl) H).
  - destruct (simplify a) as [a'|err] eqn:Ea; simpl in H; [|discriminate].
    inversion H; subst. simpl. exact (IH _ eq_refl).
Qed.

Lemma mapM_id {A} (f : A -> Result A) l : Forall (fun a => f a = Ok a) l -> mapM f l = Ok l.
Proof. induction 1 as [|a l Ha _ IH]; simpl; auto. rewrite Ha. simpl. rewrite IH. reflexivity. Qed.

(** A canonical tree is left unchanged by the simplifier. *)
Lemma simplify_canon_id e : canon e = true -> simplify e = Ok e.
Proof.
  induction e as [x|z|n d|l IH|l IH|b e IHb IHe|f a IH] using Expr_ind'; intros Hc; simpl.
  - reflexivity.
  - reflexivity.
  - f_equal. apply mk_num_of_canon; auto.
  - pose proof Hc as Hc'. simpl in Hc'. apply andb_true_iff in Hc' as [Hl _].
    apply forallb_Forall in Hl. rewrite mapM_id.
    + simpl. f_equal. apply norm_add_id, Hc.
    + rewrite Forall_forall in IH, Hl |- *. auto.
  - pose proof Hc as Hc'. simpl in Hc'. apply andb_true_iff in Hc' as [Hl _].
    apply forallb_Forall in Hl. rewrite mapM_id.
    + simpl. apply norm_mul_id, Hc.
    + rewrite Forall_forall in IH, Hl |- *. auto.
  - simpl in Hc. apply andb_true_iff in Hc as [Hc Hi]. apply andb_true_iff in Hc as [H1 H2].
    rewrite IHb, IHe by assumption. simpl. apply mk_pow_irred, Hi.
  - simpl in Hc. rewrite IH by exact Hc. reflexivity.
Qed.

Lemma simplify_idem e s : simplify e = Ok s -> simplify s = Ok s.
Proof. intros H. apply simplify_canon_id. exact (simplify_canon e s H). Qed.

(* ------------------------------------------------------------------ *)
(** ** The only failure of the simplifier *)

Lemma mk_pow_err b : forall e err, mk_pow b e = Err err -> err = UndefinedPower.
Proof.
  induction b as [x|z|n d|l|l|b IHb a IHa|f a IHa]; intros e err H;
    (destruct (is_num e) eqn:Hn;
     [|rewrite mk_pow_other in H by exact Hn; discriminate]);
    (apply is_num_cases in Hn as [[m ->]|[m [dm ->]]];
     [|rewrite mk_pow_rat in H; destruct (_ && _); inversion H; reflexivity]);
    (destruct (Z.eq_dec m 0) as [->|N0];
     [rewrite mk_pow_int0 in H; destruct (is_zero_num _); inversion H; reflexivity|]);
    (destruct (Z.eq_dec m 1) as [->|N1]; [rewrite mk_pow_int1 in H; discriminate|]);
    rewrite (mk_pow_intn _ _ N0 N1) in H; try discriminate.
  - simpl in H. unfold num_pow in H. destruct (_ && _); simpl in H; [inversion H; reflexivity|].
    discriminate.
  - simpl in H. unfold num_pow in H. destruct (_ && _); simpl in H; [inversion H; reflexivity|].
    discriminate.
  - destruct (num_val a); [exact (IHb _ _ H)|discriminate].
Qed.

Lemma mapM_err {A B} (f : A -> Result B) l err :
  (forall a e, f a = Err e -> e = UndefinedPower) -> mapM f l = Err err -> err = UndefinedPower.
Proof.
  intros Hf. induction l as [|a l IH]; simpl; [discriminate|].
  destruct (f a) eqn:Ea; simpl; [|intros H; inversion H; subst; eapply Hf; eauto].
  destruct (mapM f l); simpl; [discriminate|]. intros H; inversion H; subst. apply IH. reflexivity.
Qed.

Lemma mul_loop_err n : forall p fs err, mul_loop n p fs = Err err -> err = UndefinedPower.
Proof.
  induction n as [|n IH]; intros p fs err H; cbn [mul_loop] in H; [discriminate|].
  unfold mul_round in H.
  destruct (mapM _ (bases fs)) as [ys|e] eqn:E; simpl in H.
  - destruct (Qeq_bool _ 0); [discriminate|]. destruct (nodupb _); [discriminate|].
    eapply IH; exact H.
  - inversion H; subst. eapply mapM_err; [|exact E]. intros k e' He. exact (mk_pow_err _ _ _ He).
Qed.

Lemma norm_mul_err l err : norm_mul l = Err err -> err = UndefinedPower.
Proof.
  unfold norm_mul. destruct (Qeq_bool _ 0); [discriminate|].
  destruct (mul_loop _ _ _) eqn:E; simpl; [discriminate|].
  intros H; inversion H; subst. eapply mul_loop_err; eauto.
Qed.

Lemma simplify_err e err : simplify e = Err err -> err = UndefinedPower.
Proof.
  revert err.
  induction e as [x|z|n d|l IH|l IH|b e IHb IHe|f a IH] using Expr_ind'; intros err H; simpl in H;
    try discriminate.
  - destruct (mapM simplify l) as [l'|e] eqn:E; simpl in H; [discriminate|].
    inversion H; subst. revert E. clear H. induction IH as [|a l Ha _ IHl]; simpl; [discriminate|].
    destruct (simplify a) eqn:Ea; simpl; [|intros E; inversion E; subst; apply (Ha _ eq_refl)].
    destruct (mapM simplify l); simpl; [discriminate|]. intros E; inversion E; subst. apply IHl. reflexivity.
  - destruct (mapM simplify l) as [l'|e] eqn:E; simpl in H; [eapply norm_mul_err; exact H|].
    inversion H; subst. revert E. clear H. induction IH as [|a l Ha _ IHl]; simpl; [discriminate|].
    destruct (simplify a) eqn:Ea; simpl; [|intros E; inversion E; subst; apply (Ha _ eq_refl)].
    destruct (mapM simplify l); simpl; [discriminate|]. intros E; inversion E; subst. apply IHl. reflexivity.
  - destruct (simplify b) as [b'|e1] eqn:Eb; simpl in H; [|inversion H; subst; apply IHb; reflexivity].
    destruct (simplify e) as [e'|e2] eqn:Ee; simpl in H; [|inversion H; subst; apply IHe; reflexivity].
    eapply mk_pow_err; eauto.
  - destruct (simplify a) as [a'|e] eqn:Ea; simpl in H; [discriminate|].
    inversion H; subst. apply IH. reflexivity.
Qed.

(* ------------------------------------------------------------------ *)
(** ** Real-valued meaning of a tree

    "Mathematically equal over its domain of validity" is read through a
    relational semantics over the reals: [eval e v] says that [e] is
    defined and denotes [v], for a valuation [env] of the symbols and a
    meaning [fn] of the function names (partial, so that e.g. [ln] may be
    undefined at non-positive arguments).  A power is defined for an
    integer exponent when the base is non-zero or the exponent positive
    ([0^0] and [0^negative] are undefined, section 7), and for any other
    real exponent when the base is positive. *)

Section Semantics.
Local Open Scope R_scope.
Variable env : string -> R.
Variable fn : string -> R -> option R.

Definition pwr (v w u : R) : Prop :=
  (exists n, w = IZR n /\ (v <> 0 \/ (0 < n)%Z) /\ u = powerRZ v n)
  \/ (0 < v /\ u = Rpower v w)%R.

Definition rsum (vs : list R) : R := fold_right Rplus 0%R vs.
Definition rprod (vs : list R) : R := fold_right Rmult 1%R vs.

Inductive eval : Expr -> R -> Prop :=
| ev_sym s : eval (Symbol s) (env s)
| ev_int z : eval (Integer z) (IZR z)
| ev_rat n d : eval (Rational n d) (Q2R (n # d))
| ev_add l vs : Forall2 eval l vs -> eval (Add l) (rsum vs)
| ev_mul l vs : Forall2 eval l vs -> eval (Mul l) (rprod vs)
| ev_pow b e v w u : eval b v -> eval e w -> pwr v w u -> eval (Pow b e) u
| ev_func f a v w : eval a v -> fn f v = Some w -> eval (Func f a) w.

Lemma eval_eq e v v' : eval e v -> v = v' -> eval e v'.
Proof. intros H <-; exact H. Qed.

Lemma Q2R_inject_Z z : Q2R (inject_Z z) = IZR z.
Proof. unfold Q2R, inject_Z. simpl. field. Qed.

Lemma Q2R_Qred q : Q2R (Qred q) = Q2R q.
Proof. apply Qeq_eqR, Qred_correct. Qed.

Lemma eval_num e q v : num_val e = Some q -> eval e v <-> v = Q2R q.
Proof.
  destruct e; simpl; intros H; inversion H; subst; split; intros Hv;
    try (inversion Hv; subst); try rewrite Q2R_inject_Z; try constructor; auto.
Qed.

Lemma mk_num_eval q : eval (mk_num q) (Q2R q).
Proof.
  apply (eval_num (mk_num q) (Qred q)); [apply num_val_mk_num|].
  symmetry. apply Q2R_Qred.
Qed.

Lemma pwr_int v n u : pwr v (IZR n) u <-> (v <> 0 \/ (0 < n)%Z) /\ u = powerRZ v n.
Proof.
  split.
  - intros [(m & Hm & Hd & Hu) | (Hv & Hu)].
    + apply eq_IZR in Hm. subst. auto.
    + split; [left; lra|]. rewrite Hu, powerRZ_Rpower; auto.
  - intros [Hd Hu]. left. exists n. auto.
Qed.

Lemma pwr_det v w u1 u2 : pwr v w u1 -> pwr v w u2 -> u1 = u2.
Proof.
  intros [(m & Hm & _ & Hu) | (Hv & Hu)] H2.
  - subst w. apply pwr_int in H2. destruct H2 as [_ ->]. exact Hu.
  - destruct H2 as [(n & Hn & _ & Hu2) | (_ & Hu2)]; subst; auto.
    rewrite powerRZ_Rpower; auto.
Qed.

Lemma Forall2_det {A} (P : A -> R -> Prop) l :
  Forall (fun a => forall v1 v2, P a v1 -> P a v2 -> v1 = v2) l ->
  forall vs1 vs2, Forall2 P l vs1 -> Forall2 P l vs2 -> vs1 = vs2.
Proof.
  induction 1 as [|a l Ha Hl IH]; intros vs1 vs2 H1 H2;
    inversion H1; inversion H2; subst; auto.
  f_equal; eauto.
Qed.

(** The meaning of a tree is unique. *)
Lemma eval_det e : forall v1 v2, eval e v1 -> eval e v2 -> v1 = v2.
Proof.
  induction e as [s|z|n d|l IH|l IH|b e IHb IHe|f a IH] using Expr_ind';
    intros v1 v2 H1 H2; inversion H1; inversion H2; subst; auto.
  - f_equal. eapply Forall2_det; eauto.
  - f_equal. eapply Forall2_det; eauto.
  - assert (v = v0) by eauto. assert (w = w0) by eauto. subst.
    eapply pwr_det; eauto.
  - assert (v = v0) by eauto. subst. congruence.
Qed.

(** Powers *)

Lemma powerRZ_0_pos n : (0 < n)%Z -> powerRZ 0 n = 0.
Proof.
  destruct n as [|p|p]; intros H; try lia. simpl.
  apply pow_i. apply Pos2Nat.is_pos.
Qed.

Lemma powerRZ_powerRZ_nat v m k : v <> 0 ->
  powerRZ (powerRZ v m) (Z.of_nat k) = powerRZ v (m * Z.of_nat k).
Proof.
  intros Hv. induction k as [|k IH].
  - rewrite Z.mul_0_r. reflexivity.
  - rewrite Nat2Z.inj_succ, <- Z.add_1_r, Z.mul_add_distr_l, Z.mul_1_r.
    rewrite powerRZ_add by (apply powerRZ_NOR; exact Hv).
    rewrite powerRZ_add by exact Hv. rewrite IH. f_equal.
    change 1%Z with (Z.succ 0). apply powerRZ_1.
Qed.

Lemma powerRZ_powerRZ v m n : (v <> 0 \/ (0 < m /\ 0 < n)%Z) ->
  powerRZ (powerRZ v m) n = powerRZ v (m * n).
Proof.
  intros [Hv | [Hm Hn]].
  - destruct (Z_le_gt_dec 0 n) as [Hn | Hn].
    + rewrite <- (Z2Nat.id n) by exact Hn. apply powerRZ_powerRZ_nat, Hv.
    + replace n with (- Z.of_nat (Z.to_nat (- n)))%Z by lia.
      rewrite powerRZ_neg', Z.mul_opp_r, powerRZ_neg', powerRZ_powerRZ_nat; auto.
  - destruct (Req_dec v 0) as [H0 | H0].
    + subst. rewrite (powerRZ_0_pos m Hm), powerRZ_0_pos, powerRZ_0_pos; auto; lia.
    + rewrite <- (Z2Nat.id n) by lia. apply powerRZ_powerRZ_nat, H0.
Qed.

Lemma pwr_one v : pwr v 1 v.
Proof. left. exists 1%Z. split; [reflexivity|]. split; [right; lia|]. simpl. ring. Qed.

Lemma pwr_one_inv v u : pwr v 1 u -> u = v.
Proof. intros H. eapply pwr_det; [exact H|apply pwr_one]. Qed.

Lemma pwr_zero_inv v u : pwr v 0 u -> u = 1.
Proof. intros H. apply (pwr_int v 0%Z) in H. destruct H as [_ ->]. reflexivity. Qed.

Lemma pwr_add v a b u1 u2 : pwr v a u1 -> pwr v b u2 -> pwr v (a + b) (u1 * u2).
Proof.
  intros [(m & Hm & Hdm & Hu1) | (Hv & Hu1)] [(n & Hn & Hdn & Hu2) | (Hv' & Hu2)]; subst.
  - left. exists (m + n)%Z. rewrite plus_IZR. split; [reflexivity|].
    destruct (Req_dec v 0) as [H0 | H0].
    + subst. destruct Hdm as [Hdm|Hdm]; [contradiction|].
      destruct Hdn as [Hdn|Hdn]; [contradiction|].
      split; [right; lia|]. rewrite !powerRZ_0_pos by lia. ring.
    + split; [left; exact H0|]. symmetry. apply powerRZ_add, H0.
  - right. split; [exact Hv'|]. rewrite powerRZ_Rpower, Rpower_plus by exact Hv'. reflexivity.
  - right. split; [exact Hv|]. rewrite powerRZ_Rpower, Rpower_plus by exact Hv. reflexivity.
  - right. split; [exact Hv|]. rewrite Rpower_plus. reflexivity.
Qed.

Lemma pwr_pwr v0 a v n u : pwr v0 a v -> pwr v (IZR n) u -> pwr v0 (a * IZR n) u.
Proof.
  intros H1 H2. apply pwr_int in H2. destruct H2 as [Hd ->].
  destruct H1 as [(m & Hm & Hdm & Hu) | (Hv & Hu)]; subst.
  - left. exists (m * n)%Z. rewrite mult_IZR. split; [reflexivity|].
    destruct (Req_dec v0 0) as [H0 | H0].
    + subst. destruct Hdm as [Hdm|Hdm]; [contradiction|].
      rewrite powerRZ_0_pos in Hd by exact Hdm.
      destruct Hd as [Hd|Hd]; [contradiction|].
      split; [right; lia|]. apply powerRZ_powerRZ. right. lia.
    + split; [left; exact H0|]. apply powerRZ_powerRZ. left. exact H0.
  - right. split; [exact Hv|].
    rewrite powerRZ_Rpower by (apply exp_pos). unfold Rpower at 2. rewrite <- Rpower_mult.
    reflexivity.
Qed.

(** Numbers *)

Lemma Q2R_qadd a b : Q2R (qadd a b) = Q2R a + Q2R b.
Proof. unfold qadd. rewrite Q2R_Qred. apply Q2R_plus. Qed.

Lemma Q2R_qmul a b : Q2R (qmul a b) = Q2R a * Q2R b.
Proof. unfold qmul. rewrite Q2R_Qred. apply Q2R_mult. Qed.

Lemma Q2R_eq_bool p q : Qeq_bool p q = true -> Q2R p = Q2R q.
Proof. intros H. apply Qeq_eqR, Qeq_bool_eq, H. Qed.

Lemma num_pow_eval q n r : num_pow q n = Ok r -> Q2R r = powerRZ (Q2R q) n.
Proof.
  unfold num_pow. destruct (Qeq_bool q 0 && (n <? 0)%Z) eqn:E; [discriminate|].
  intros H. inversion H. subst. rewrite Q2R_Qred. apply RMicromega.Q2RpowerRZ.
  apply andb_false_iff in E. destruct E as [E|E].
  - left. apply Qeq_bool_neq, E.
  - right. apply Z.ltb_ge in E. lia.
Qed.

Lemma num_pow_defined q n r : num_pow q n = Ok r -> (Q2R q <> 0 \/ (0 < n)%Z) \/ n = 0%Z.
Proof.
  unfold num_pow. destruct (Qeq_bool q 0 && (n <? 0)%Z) eqn:E; [discriminate|]. intros _.
  apply andb_false_iff in E. destruct E as [E|E].
  - left. left. intros H. apply (Qeq_bool_neq q 0 E). apply eqR_Qeq. rewrite H. symmetry. apply RMicromega.Q2R_0.
  - apply Z.ltb_ge in E. destruct (Z.eq_dec n 0); [right; auto|left; right; lia].
Qed.

(** Sums and products of value lists *)

Lemma rsum_app a b : rsum (a ++ b) = rsum a + rsum b.
Proof. induction a; simpl; [ring|]. unfold rsum in *. simpl. rewrite IHa. ring. Qed.

Lemma rprod_app a b : rprod (a ++ b) = rprod a * rprod b.
Proof. induction a; simpl; [ring|]. unfold rprod in *. simpl. rewrite IHa. ring. Qed.

Lemma rsum_perm a b : Permutation a b -> rsum a = rsum b.
Proof. unfold rsum. induction 1; simpl; lra. Qed.

Lemma rprod_perm a b : Permutation a b -> rprod a = rprod b.
Proof. unfold rprod. induction 1; simpl; try rewrite IHPermutation; try ring; congruence. Qed.

Lemma eval_sorted l vs :
  Forall2 eval l vs -> exists ws, Forall2 eval (sort_exprs l) ws /\ Permutation vs ws.
Proof.
  intros H. destruct (Permutation_Forall2 (Permutation_sym (sort_exprs_perm l)) H)
    as (ws & Hp & Hw).
  eauto.
Qed.

(** A leftover sum of no, one or several terms. *)
Lemma eval_add_shape ts ws : Forall2 eval ts ws ->
  eval (match ts with [] => Integer 0 | [t] => t | t1 :: t2 :: r => Add (t1 :: t2 :: r) end) (rsum ws).
Proof.
  intros H. destruct H as [|t w ts ws Ht H]; [constructor|].
  destruct H as [|t2 w2 ts2 ws2 Ht2 H2].
  - eapply eval_eq; [exact Ht|]. unfold rsum. simpl. ring.
  - constructor. repeat constructor; auto.
Qed.

Lemma eval_mul_shape ts ws : Forall2 eval ts ws ->
  eval (match ts with [] => Integer 1 | [t] => t | t1 :: t2 :: r => Mul (t1 :: t2 :: r) end) (rprod ws).
Proof.
  intros H. destruct H as [|t w ts ws Ht H]; [constructor|].
  destruct H as [|t2 w2 ts2 ws2 Ht2 H2].
  - eapply eval_eq; [exact Ht|]. unfold rprod. simpl. ring.
  - constructor. repeat constructor; auto.
Qed.

(** Flattening keeps the value. *)
Lemma flatten_add_eval l vs : Forall2 eval l vs ->
  exists ws, Forall2 eval (flatten_add l) ws /\ rsum ws = rsum vs.
Proof.
  induction 1 as [|a v l vs Ha Hl (ws & Hw & Hs)]; [exists []; split; constructor|].
  unfold flatten_add. simpl. fold (flatten_add l).
  destruct a; try (exists (v :: ws); split; [constructor; auto|unfold rsum in *; simpl; congruence]).
  inversion Ha as [| | |? ws0 Hts| | |]; subst.
  exists (ws0 ++ ws). split; [apply Forall2_app; auto|]. rewrite rsum_app, Hs. reflexivity.
Qed.

Lemma flatten_mul_eval l vs : Forall2 eval l vs ->
  exists ws, Forall2 eval (flatten_mul l) ws /\ rprod ws = rprod vs.
Proof.
  induction 1 as [|a v l vs Ha Hl (ws & Hw & Hs)]; [exists []; split; constructor|].
  unfold flatten_mul. simpl. fold (flatten_mul l).
  destruct a; try (exists (v :: ws); split; [constructor; auto|unfold rprod in *; simpl; congruence]).
  inversion Ha as [| | | |? ws0 Hts| |]; subst.
  exists (ws0 ++ ws). split; [apply Forall2_app; auto|]. rewrite rprod_app, Hs. reflexivity.
Qed.

(** Numeric operands are folded into one number. *)
Lemma num_sum_eval l vs : Forall2 eval l vs ->
  exists ws, Forall2 eval (non_nums l) ws /\ rsum vs = Q2R (num_sum l) + rsum ws.
Proof.
  induction 1 as [|a v l vs Ha Hl (ws & Hw & Hs)].
  - exists []. split; [constructor|]. unfold rsum. simpl. rewrite RMicromega.Q2R_0. ring.
  - unfold non_nums, num_sum in *. simpl. unfold is_num at 1.
    destruct (num_val a) as [q|] eqn:Eq; simpl.
    + exists ws. split; [exact Hw|]. apply (eval_num a q v Eq) in Ha. subst.
      rewrite Q2R_qadd. unfold rsum in *. simpl. rewrite Hs. ring.
    + exists (v :: ws). split; [constructor; auto|]. unfold rsum in *. simpl. rewrite Hs. ring.
Qed.

Lemma num_prod_eval l vs : Forall2 eval l vs ->
  exists ws, Forall2 eval (non_nums l) ws /\ rprod vs = Q2R (num_prod l) * rprod ws.
Proof.
  induction 1 as [|a v l vs Ha Hl (ws & Hw & Hs)].
  - exists []. split; [constructor|]. unfold rprod. simpl. rewrite RMicromega.Q2R_1. ring.
  - unfold non_nums, num_prod in *. simpl. unfold is_num at 1.
    destruct (num_val a) as [q|] eqn:Eq; simpl.
    + exists ws. split; [exact Hw|]. apply (eval_num a q v Eq) in Ha. subst.
      rewrite Q2R_qmul. unfold rprod in *. simpl. rewrite Hs. ring.
    + exists (v :: ws). split; [constructor; auto|]. unfold rprod in *. simpl. rewrite Hs. ring.
Qed.

(** Like terms: a list of [(key, coefficient)] pairs denotes the sum of
    the coefficients times the values of the keys. *)
Inductive tv : list (Expr * Q) -> R -> Prop :=
| tv_nil : tv [] 0
| tv_cons k c m vk r : eval k vk -> tv m r -> tv ((k, c) :: m) (Q2R c * vk + r).

Lemma tv_eq m r r' : tv m r -> r = r' -> tv m r'.
Proof. intros H <-; exact H. Qed.

Lemma eval_mul_of fs ws : Forall2 eval fs ws -> eval (mul_of fs) (rprod ws).
Proof.
  intros H. destruct H as [|f w fs ws Hf H]; [constructor; constructor|].
  destruct H as [|f2 w2 fs2 ws2 Hf2 H2].
  - eapply eval_eq; [exact Hf|]. unfold rprod. simpl. ring.
  - constructor. repeat constructor; auto.
Qed.

Lemma split_term_eval t v : eval t v ->
  exists vk, eval (fst (split_term t)) vk /\ v = Q2R (snd (split_term t)) * vk.
Proof.
  intros Ht. unfold split_term.
  destruct t as [| | | |[|c fs]| |];
    try (exists v; split; [exact Ht|simpl; rewrite RMicromega.Q2R_1; ring]).
  destruct (num_val c) as [q|] eqn:Eq;
    [|exists v; split; [exact Ht|simpl; rewrite RMicromega.Q2R_1; ring]].
  inversion Ht as [| | | |? vs Hvs| |]; subst. inversion Hvs as [|? vc ? ws Hc Hws]; subst.
  exists (rprod ws). split; [apply eval_mul_of, Hws|].
  apply (eval_num c q vc Eq) in Hc. subst. reflexivity.
Qed.

Lemma split_tv l vs : Forall2 eval l vs -> tv (map split_term l) (rsum vs).
Proof.
  induction 1 as [|t v l vs Ht Hl IH]; [constructor|].
  destruct (split_term_eval t v Ht) as (vk & Hk & Hv).
  simpl. destruct (split_term t) as [k c] eqn:E. simpl in *.
  eapply tv_eq; [constructor; eauto|]. unfold rsum. simpl. rewrite Hv. reflexivity.
Qed.

Lemma merge_ins_tv k c vk m r : eval k vk -> tv m r -> tv (merge_ins k c m) (Q2R c * vk + r).
Proof.
  intros Hk Hm. induction Hm as [|k' c' m vk' r Hk' Hm IH]; simpl.
  - constructor; [exact Hk|constructor].
  - destruct (expr_cmp k k') eqn:E.
    + apply expr_cmp_eq in E. subst k'.
      assert (vk' = vk) by (eapply eval_det; eauto). subst vk'.
      eapply tv_eq; [constructor; eauto|]. rewrite Q2R_qadd. ring.
    + constructor; [exact Hk|constructor; auto].
    + eapply tv_eq; [constructor; eauto|]. ring.
Qed.

Lemma collect_tv l r : tv l r -> tv (collect l) r.
Proof.
  induction 1 as [|k c m vk r Hk Hm IH]; [constructor|].
  unfold collect. simpl. fold (collect m). apply merge_ins_tv; auto.
Qed.

Lemma tv_filter_nonzero l r :
  tv l r -> tv (filter (fun p => negb (Qeq_bool (snd p) 0)) l) r.
Proof.
  induction 1 as [|k c m vk r Hk Hm IH]; [constructor|]. simpl.
  destruct (Qeq_bool c 0) eqn:E; simpl.
  - apply Q2R_eq_bool in E. rewrite E, RMicromega.Q2R_0. eapply tv_eq; [exact IH|ring].
  - constructor; auto.
Qed.

Lemma rebuild_eval k c vk : eval k vk -> eval (rebuild_term (k, c)) (Q2R c * vk).
Proof.
  intros Hk. unfold rebuild_term. destruct (Qeq_bool c 1) eqn:E.
  - apply Q2R_eq_bool in E. rewrite E, RMicromega.Q2R_1. eapply eval_eq; [exact Hk|ring].
  - destruct k; try (constructor; repeat constructor; auto; apply mk_num_eval);
      try (eapply eval_eq; [constructor; constructor; [apply mk_num_eval|constructor; [exact Hk|constructor]]|];
           unfold rprod; simpl; ring).
    inversion Hk as [| | | |? ws Hws| |]; subst.
    apply (ev_mul _ (Q2R c :: ws)). constructor; [apply mk_num_eval|exact Hws].
Qed.

Lemma tv_rebuild l r : tv l r ->
  exists ws, Forall2 eval (map rebuild_term l) ws /\ rsum ws = r.
Proof.
  induction 1 as [|k c m vk r Hk Hm (ws & Hws & Hs)]; [exists []; split; constructor|].
  exists (Q2R c * vk :: ws). split; [constructor; [apply rebuild_eval; exact Hk|exact Hws]|].
  unfold rsum in *. simpl. rewrite Hs. reflexivity.
Qed.


(** Soundness of the power identities *)

Lemma is_zero_num_val b v : is_zero_num b = true -> eval b v -> v = 0.
Proof.
  unfold is_zero_num. destruct (num_val b) as [q|] eqn:Eq; [|discriminate]. intros H Hb.
  apply (eval_num b q v Eq) in Hb. subst. apply Q2R_eq_bool in H. rewrite H.
  apply RMicromega.Q2R_0.
Qed.

Lemma Q2R_neg m d : (m < 0)%Z -> Q2R (m # d) < 0.
Proof.
  intros Hm. unfold Q2R. simpl.
  assert (IZR m < 0) by (apply IZR_lt; lia).
  assert (0 < / IZR (Zpos d)) by (apply Rinv_0_lt_compat, IZR_lt; lia). nra.
Qed.

Lemma pwr_neg_rat_zero m d u : (m < 0)%Z -> ~ pwr 0 (Q2R (m # d)) u.
Proof.
  intros Hm [(n & Hn & Hd & _) | (Hv & _)]; [|lra].
  destruct Hd as [Hd|Hd]; [lra|]. pose proof (Q2R_neg m d Hm).
  assert (0 < IZR n) by (apply IZR_lt; lia). lra.
Qed.

Lemma num_pow_ok q m u : pwr (Q2R q) (IZR m) u -> exists r, num_pow q m = Ok r /\ Q2R r = u.
Proof.
  intros Hp. destruct (num_pow q m) as [r|err] eqn:E.
  - exists r. split; [reflexivity|]. rewrite (num_pow_eval _ _ _ E).
    apply pwr_int in Hp as [_ ->]. reflexivity.
  - exfalso. unfold num_pow in E. destruct (Qeq_bool q 0 && (m <? 0)%Z) eqn:E2; [|discriminate].
    apply andb_true_iff in E2 as [E1 E2]. apply Z.ltb_lt in E2. apply Q2R_eq_bool in E1.
    rewrite RMicromega.Q2R_0 in E1. apply pwr_int in Hp as [[Hd|Hd] _]; [lra|lia].
Qed.

(** Wherever [b^e] is defined, the power identities succeed and keep its value. *)
Lemma mk_pow_sound b : forall e v w u, eval b v -> eval e w -> pwr v w u ->
  exists r, mk_pow b e = Ok r /\ eval r u.
Proof.
  induction b as [x|z|n d|l|l|b' IHb a _|f a _]; intros e v w u Hb He Hp;
    (destruct (is_num e) eqn:Hn;
     [|rewrite mk_pow_other by exact Hn; eexists; split; [reflexivity|econstructor; eauto]]);
    (apply is_num_cases in Hn as [[m ->]|[m [dm ->]]];
     [|rewrite mk_pow_rat; destruct (is_zero_num _ && (m <? 0)%Z) eqn:E;
       [exfalso; apply andb_true_iff in E as [E1 E2]; apply Z.ltb_lt in E2;
        pose proof (is_zero_num_val _ _ E1 Hb); subst v; inversion He; subst;
        exact (pwr_neg_rat_zero m dm u E2 Hp)
       |eexists; split; [reflexivity|econstructor; eauto]]]);
    inversion He; subst;
    (destruct (Z.eq_dec m 0) as [->|N0];
     [rewrite mk_pow_int0; apply (pwr_int v 0%Z) in Hp; destruct Hp as [[Hv|Hv] ->]; [|lia];
      destruct (is_zero_num _) eqn:Ez; [exfalso; apply Hv; exact (is_zero_num_val _ _ Ez Hb)|];
      eexists; split; [reflexivity|constructor]|]);
    (destruct (Z.eq_dec m 1) as [->|N1];
     [rewrite mk_pow_int1; apply pwr_one_inv in Hp; subst; eexists; split; [reflexivity|exact Hb]|]);
    rewrite (mk_pow_intn _ _ N0 N1);
    try (eexists; split; [reflexivity|econstructor; eauto]; fail).
  - inversion Hb; subst. simpl. rewrite <- Q2R_inject_Z in Hp.
    destruct (num_pow_ok _ _ _ Hp) as [r [Er Hr]]. rewrite Er. simpl.
    eexists; split; [reflexivity|]. rewrite <- Hr. apply mk_num_eval.
  - inversion Hb; subst. simpl.
    destruct (num_pow_ok _ _ _ Hp) as [r [Er Hr]]. rewrite Er. simpl.
    eexists; split; [reflexivity|]. rewrite <- Hr. apply mk_num_eval.
  - destruct (num_val a) as [qa|] eqn:Ea; [|eexists; split; [reflexivity|econstructor; eauto]].
    inversion Hb as [| | | | |? ? v0 w0 ? Hb' Ha Hp0|]; subst.
    apply (eval_num a qa) in Ha; [|exact Ea]. subst.
    eapply IHb; [exact Hb'|apply mk_num_eval|].
    rewrite Q2R_qmul, Q2R_inject_Z. eapply pwr_pwr; eauto.
Qed.

(** Soundness of [norm_add]. *)

Lemma add_round_eval ts ws : Forall2 eval ts ws ->
  exists ws', Forall2 eval (add_round ts) ws' /\ rsum ws' = rsum ws.
Proof.
  intros H. unfold add_round.
  destruct (tv_rebuild _ _ (tv_filter_nonzero _ _ (collect_tv _ _ (split_tv _ _ H))))
    as (ws3 & H3 & S3).
  destruct (flatten_add_eval _ _ H3) as (ws4 & H4 & S4).
  exists ws4. split; [exact H4|]. congruence.
Qed.

Lemma add_loop_eval n : forall s ts ws, Forall2 eval ts ws ->
  exists ws', Forall2 eval (snd (add_loop n s ts)) ws' /\
              Q2R (fst (add_loop n s ts)) + rsum ws' = Q2R s + rsum ws.
Proof.
  induction n as [|n IH]; intros s ts ws H; [exists ws; split; [exact H|reflexivity]|].
  cbn [add_loop].
  destruct (add_round_eval ts ws H) as (ws1 & H1 & S1).
  destruct (num_sum_eval _ _ H1) as (ws2 & H2 & S2).
  destruct (nodupb _).
  - exists ws2. split; [exact H2|]. simpl. rewrite Q2R_qadd. lra.
  - destruct (IH (qadd s (num_sum (add_round ts))) _ _ H2) as (ws3 & H3 & S3).
    exists ws3. split; [exact H3|]. rewrite S3, Q2R_qadd. lra.
Qed.

Lemma build_add_eval s ts ws : Forall2 eval ts ws -> eval (build_add s ts) (Q2R s + rsum ws).
Proof.
  intros H4. unfold build_add.
  assert (H5 : Forall2 eval ((if Qeq_bool s 0 then [] else [mk_num s]) ++ ts)
                 ((if Qeq_bool s 0 then [] else [Q2R s]) ++ ws)).
  { apply Forall2_app; [|exact H4]. destruct (Qeq_bool s 0); repeat constructor.
    apply mk_num_eval. }
  destruct (eval_sorted _ _ H5) as (ws4 & H6 & P6).
  eapply eval_eq; [apply eval_add_shape, H6|].
  rewrite <- (rsum_perm _ _ P6), rsum_app.
  destruct (Qeq_bool s 0) eqn:E; unfold rsum; simpl; [|ring].
  apply Q2R_eq_bool in E. rewrite E, RMicromega.Q2R_0. ring.
Qed.

Lemma norm_add_sound l vs : Forall2 eval l vs -> eval (norm_add l) (rsum vs).
Proof.
  intros H. unfold norm_add.
  destruct (flatten_add_eval l vs H) as (ws1 & H1 & S1).
  destruct (num_sum_eval _ _ H1) as (ws2 & H2 & S2).
  destruct (add_loop_eval (S (S (key_weight (non_nums (flatten_add l)))))
              (num_sum (flatten_add l)) _ _ H2) as (ws3 & H3 & S3).
  eapply eval_eq; [apply build_add_eval, H3|]. lra.
Qed.

(** Soundness of [norm_mul]. *)

Lemma factor_pow_eval f w : eval f w ->
  exists vb we, eval (base_of f) vb /\ eval (exp_of f) we /\ pwr vb we w.
Proof.
  intros Hf. destruct f as [x|z|n d|l|l|b e|g a];
    try (exists w, 1; split; [exact Hf|split; [constructor|apply pwr_one]]).
  inversion Hf as [| | | | |? ? vb we ? Hb He Hp|]; subst. exists vb, we. auto.
Qed.

Lemma Forall2_pairs {A B} (P : A -> B -> Prop) l1 l2 : Forall2 P l1 l2 ->
  exists FW, l1 = map fst FW /\ l2 = map snd FW /\ Forall (fun p => P (fst p) (snd p)) FW.
Proof.
  induction 1 as [|a b l1 l2 Hab _ (FW & -> & -> & HF)]; [exists []; auto|].
  exists ((a, b) :: FW). simpl. auto.
Qed.

Definition grp (k : Expr) (FW : list (Expr * R)) : list (Expr * R) :=
  filter (fun p => expr_eqb (base_of (fst p)) k) FW.

Lemma filter_map_fst k FW :
  filter (fun f => expr_eqb (base_of f) k) (map fst FW) = map fst (grp k FW).
Proof.
  induction FW as [|p FW IH]; [reflexivity|]. unfold grp in *. simpl.
  destruct (expr_eqb (base_of (fst p)) k); simpl; congruence.
Qed.

Lemma group_pwr k vk G : G <> [] -> eval k vk ->
  Forall (fun p => eval (fst p) (snd p) /\ base_of (fst p) = k) G ->
  exists es, Forall2 eval (map exp_of (map fst G)) es /\ pwr vk (rsum es) (rprod (map snd G)).
Proof.
  intros Hne Hk HF. induction HF as [|p G [Hp Hb] HG IH]; [congruence|].
  destruct (factor_pow_eval _ _ Hp) as (vb & we & Hbv & Hwe & Hpw).
  rewrite Hb in Hbv. assert (vb = vk) by (eapply eval_det; eauto). subst vb.
  destruct G as [|p2 G'].
  - exists [we]. split; [constructor; auto|]. unfold rsum, rprod. simpl.
    rewrite Rplus_0_r, Rmult_1_r. exact Hpw.
  - destruct IH as (es & Hes & Hpes); [discriminate|].
    exists (we :: es). split; [constructor; auto|].
    change (rsum (we :: es)) with (we + rsum es).
    change (rprod (map snd ((p :: p2 :: G')))) with (snd p * rprod (map snd (p2 :: G'))).
    apply pwr_add; auto.
Qed.

Lemma flat_map_ext_in {A B} (f g : A -> list B) l :
  (forall a, In a l -> f a = g a) -> flat_map f l = flat_map g l.
Proof.
  induction l as [|a l IH]; intros H; [reflexivity|]. simpl.
  rewrite H by (left; reflexivity). f_equal. apply IH. intros a' Ha'. apply H. right. exact Ha'.
Qed.

Lemma grp_other k k' FW : k' <> k ->
  grp k' (filter (fun p => negb (expr_eqb (base_of (fst p)) k)) FW) = grp k' FW.
Proof.
  intros Hne. induction FW as [|p FW IH]; [reflexivity|]. unfold grp in *. simpl.
  destruct (expr_eqb (base_of (fst p)) k) eqn:E1; simpl.
  - destruct (expr_eqb (base_of (fst p)) k') eqn:E2; [|exact IH].
    apply expr_eqb_eq in E1, E2. congruence.
  - destruct (expr_eqb (base_of (fst p)) k'); simpl; congruence.
Qed.

Lemma perm_groups K : NoDup K -> forall FW : list (Expr * R),
  (forall p, In p FW -> In (base_of (fst p)) K) ->
  Permutation FW (flat_map (fun k => grp k FW) K).
Proof.
  induction 1 as [|k K Hk Hnd IH]; intros FW Hin.
  - destruct FW as [|p FW]; [constructor|]. exfalso. apply (Hin p). left. reflexivity.
  - simpl. set (FW' := filter (fun p => negb (expr_eqb (base_of (fst p)) k)) FW).
    eapply perm_trans; [apply partition_perm|]. apply Permutation_app_head.
    rewrite (flat_map_ext_in (fun k0 => grp k0 FW) (fun k0 => grp k0 FW')).
    + apply IH. intros p Hp. unfold FW' in Hp. apply filter_In in Hp as [Hp Hb].
      destruct (Hin p Hp) as [Hk'|Hk']; [|exact Hk'].
      rewrite Hk', (proj2 (expr_eqb_eq _ _) eq_refl) in Hb. discriminate.
    + intros k' Hk'. unfold FW'. symmetry. apply grp_other. intros ->. contradiction.
Qed.

Lemma rprod_flat_map K (G : Expr -> list (Expr * R)) :
  rprod (map snd (flat_map G K)) = rprod (map (fun k => rprod (map snd (G k))) K).
Proof.
  induction K as [|k K IH]; [reflexivity|]. simpl. rewrite map_app, rprod_app, IH. reflexivity.
Qed.

Lemma mul_round_eval fs ws : Forall2 eval fs ws ->
  exists rs ws', mul_round fs = Ok rs /\ Forall2 eval rs ws' /\ rprod ws' = rprod ws.
Proof.
  intros H. destruct (Forall2_pairs _ _ _ H) as (FW & -> & -> & HF). clear H.
  unfold mul_round.
  destruct (mapM_exists (fun k => mk_pow k (norm_add (exps_of k (map fst FW))))
              (fun k y => eval y (rprod (map snd (grp k FW)))) (bases (map fst FW)))
    as [ys [E HP]].
  { intros k Hk. destruct (base_in_bases k _ Hk) as [f [Hf <-]].
    apply in_map_iff in Hf as [p [<- Hp]].
    rewrite Forall_forall in HF. pose proof (HF p Hp) as Hpe.
    destruct (factor_pow_eval _ _ Hpe) as (vk & _ & Hvk & _ & _).
    destruct (group_pwr (base_of (fst p)) vk (grp (base_of (fst p)) FW)) as (es & Hes & Hpw).
    - intros Hg. assert (Hin : In p (grp (base_of (fst p)) FW)).
      { apply filter_In. split; [exact Hp|apply expr_eqb_eq; reflexivity]. }
      rewrite Hg in Hin. destruct Hin.
    - exact Hvk.
    - apply Forall_forall. intros p' Hp'. apply filter_In in Hp' as [Hp' Hb].
      apply expr_eqb_eq in Hb. split; [apply HF, Hp'|exact Hb].
    - unfold exps_of. rewrite filter_map_fst.
      apply (mk_pow_sound _ _ vk (rsum es)); [exact Hvk|apply norm_add_sound, Hes|exact Hpw]. }
  rewrite E. simpl.
  assert (HE : Forall2 eval ys (map (fun k => rprod (map snd (grp k FW))) (bases (map fst FW)))).
  { clear -HP. induction HP; constructor; auto. }
  destruct (flatten_mul_eval _ _ HE) as (ws' & H' & S').
  exists (flatten_mul ys), ws'. split; [reflexivity|]. split; [exact H'|].
  rewrite S', <- rprod_flat_map. symmetry. apply rprod_perm, Permutation_map, perm_groups.
  - apply bases_nodup.
  - intros p Hp. apply bases_in, in_map, in_map, Hp.
Qed.

Lemma mul_loop_eval n : forall p fs ws, Forall2 eval fs ws ->
  exists r, mul_loop n p fs = Ok r /\
    exists ws', Forall2 eval (snd r) ws' /\ Q2R (fst r) * rprod ws' = Q2R p * rprod ws.
Proof.
  induction n as [|n IH]; intros p fs ws H.
  - exists (p, fs). split; [reflexivity|]. exists ws. auto.
  - cbn [mul_loop]. destruct (mul_round_eval fs ws H) as (rs & ws1 & Er & H1 & S1).
    rewrite Er. simpl.
    destruct (num_prod_eval _ _ H1) as (ws2 & H2 & S2).
    destruct (Qeq_bool (qmul p (num_prod rs)) 0) eqn:E0.
    + eexists; split; [reflexivity|]. exists []. split; [constructor|]. simpl.
      apply Q2R_eq_bool in E0. rewrite RMicromega.Q2R_0, Q2R_qmul in E0.
      rewrite <- S1, S2. unfold rprod at 1. simpl. rewrite Q2R_qmul.
      rewrite <- Rmult_assoc, E0. ring.
    + destruct (nodupb _).
      * eexists; split; [reflexivity|]. exists ws2. split; [exact H2|]. simpl.
        rewrite Q2R_qmul, <- S1, S2. ring.
      * destruct (IH (qmul p (num_prod rs)) _ _ H2) as (r & Hr & ws3 & H3 & S3).
        exists r. split; [exact Hr|]. exists ws3. split; [exact H3|].
        rewrite S3, Q2R_qmul, <- S1, S2. ring.
Qed.

Lemma build_mul_eval p fs ws : Forall2 eval fs ws -> eval (build_mul p fs) (Q2R p * rprod ws).
Proof.
  intros H. unfold build_mul.
  destruct (eval_sorted _ _ H) as (ws7 & H7 & P7).
  rewrite (rprod_perm _ _ P7).
  destruct (Qeq_bool p 0) eqn:E0.
  - apply Q2R_eq_bool in E0. rewrite E0, RMicromega.Q2R_0.
    eapply eval_eq; [constructor|]. ring.
  - destruct (Qeq_bool p 1) eqn:E1.
    + apply Q2R_eq_bool in E1. rewrite E1, RMicromega.Q2R_1.
      eapply eval_eq; [apply eval_mul_shape, H7|]. ring.
    + destruct H7 as [|t w ts ws0 Ht H7].
      * eapply eval_eq; [apply mk_num_eval|]. unfold rprod. simpl. ring.
      * apply (ev_mul _ (Q2R p :: w :: ws0)). constructor; [apply mk_num_eval|constructor; auto].
Qed.

Lemma norm_mul_sound l vs : Forall2 eval l vs -> exists r, norm_mul l = Ok r /\ eval r (rprod vs).
Proof.
  intros H. unfold norm_mul.
  destruct (flatten_mul_eval l vs H) as (ws1 & H1 & S1).
  destruct (num_prod_eval _ _ H1) as (ws2 & H2 & S2).
  destruct (Qeq_bool (num_prod (flatten_mul l)) 0) eqn:E0.
  - eexists; split; [reflexivity|]. apply Q2R_eq_bool in E0.
    rewrite <- S1, S2, E0, RMicromega.Q2R_0. eapply eval_eq; [constructor|]. ring.
  - destruct (mul_loop_eval (S (S (base_weight (non_nums (flatten_mul l)))))
                (num_prod (flatten_mul l)) _ _ H2) as (r & Hr & ws3 & H3 & S3).
    rewrite Hr. simpl. eexists; split; [reflexivity|].
    eapply eval_eq; [apply build_mul_eval, H3|]. rewrite S3, <- S1, S2. reflexivity.
Qed.

Lemma mapM_simplify_sound l vs :
  Forall (fun e => forall v, eval e v -> exists s, simplify e = Ok s /\ eval s v) l ->
  Forall2 eval l vs -> exists l', mapM simplify l = Ok l' /\ Forall2 eval l' vs.
Proof.
  intros IH H. revert IH. induction H as [|a v l vs Ha Hl IHl]; intros IH.
  - exists []. split; [reflexivity|constructor].
  - inversion IH as [|? ? Ha' IH']; subst.
    destruct (Ha' v Ha) as [s [Es Hs]]. destruct (IHl IH') as [l' [El Hl']].
    exists (s :: l'). simpl. rewrite Es. simpl. rewrite El. split; [reflexivity|constructor; auto].
Qed.

(** Soundness of [simplify]: wherever the input is defined, the simplifier
    succeeds, and its output is defined with the same value. *)
Lemma simplify_sound e : forall v, eval e v -> exists s, simplify e = Ok s /\ eval s v.
Proof.
  induction e as [x|z|n d|l IH|l IH|b e IHb IHe|f a IH] using Expr_ind';
    intros v Hv; simpl.
  - eexists; split; [reflexivity|exact Hv].
  - eexists; split; [reflexivity|exact Hv].
  - inversion Hv; subst. eexists; split; [reflexivity|apply mk_num_eval].
  - inversion Hv as [| | |? vs Hvs| | |]; subst.
    destruct (mapM_simplify_sound _ _ IH Hvs) as [l' [El Hl']]. rewrite El. simpl.
    eexists; split; [reflexivity|apply norm_add_sound, Hl'].
  - inversion Hv as [| | | |? vs Hvs| |]; subst.
    destruct (mapM_simplify_sound _ _ IH Hvs) as [l' [El Hl']]. rewrite El. simpl.
    apply norm_mul_sound, Hl'.
  - inversion Hv as [| | | | |? ? vb w ? Hb He Hp|]; subst.
    destruct (IHb _ Hb) as [b' [Eb Hb']]. destruct (IHe _ He) as [e' [Ee He']].
    rewrite Eb, Ee. simpl. eapply mk_pow_sound; eauto.
  - inversion Hv as [| | | | | |? ? va ? Ha Hf]; subst.
    destruct (IH _ Ha) as [a' [Ea Ha']]. rewrite Ea. simpl.
    eexists; split; [reflexivity|econstructor; eauto].
Qed.

End Semantics.


(* ------------------------------------------------------------------ *)
(** ** Operand order does not matter to the simplifier *)

Lemma fold_right_perm_comm {A B} (f : A -> B -> B) (z : B) l1 l2 :
  (forall a b c, f a (f b c) = f b (f a c)) ->
  Permutation l1 l2 -> fold_right f z l1 = fold_right f z l2.
Proof. intros Hc. induction 1; simpl; congruence. Qed.

Lemma num_sum_perm l1 l2 : Permutation l1 l2 -> num_sum l1 = num_sum l2.
Proof.
  apply fold_right_perm_comm. intros a b c.
  destruct (num_val a), (num_val b); auto using qadd_left_comm.
Qed.

Lemma num_prod_perm l1 l2 : Permutation l1 l2 -> num_prod l1 = num_prod l2.
Proof.
  apply fold_right_perm_comm. intros a b c.
  destruct (num_val a), (num_val b); auto using qmul_left_comm.
Qed.

Lemma list_sum_perm l1 l2 : Permutation l1 l2 -> list_sum l1 = list_sum l2.
Proof. induction 1; simpl; lia. Qed.

Lemma key_weight_perm l1 l2 : Permutation l1 l2 -> key_weight l1 = key_weight l2.
Proof. intros H. apply list_sum_perm, Permutation_map, H. Qed.

Lemma base_weight_perm l1 l2 : Permutation l1 l2 -> base_weight l1 = base_weight l2.
Proof. intros H. apply list_sum_perm, Permutation_map, H. Qed.

Lemma add_round_perm l1 l2 : Permutation l1 l2 -> add_round l1 = add_round l2.
Proof.
  intros H. unfold add_round. rewrite (collect_perm _ _ (Permutation_map split_term H)). reflexivity.
Qed.

Lemma add_loop_perm n s l1 l2 : Permutation l1 l2 -> add_loop (S n) s l1 = add_loop (S n) s l2.
Proof. intros H. cbn [add_loop]. rewrite (add_round_perm _ _ H). reflexivity. Qed.

Lemma norm_add_perm l1 l2 : Permutation l1 l2 -> norm_add l1 = norm_add l2.
Proof.
  intros HP. unfold norm_add. cbv zeta.
  assert (Hf : Permutation (flatten_add l1) (flatten_add l2))
    by (apply Permutation_flat_map; exact HP).
  assert (Hn : Permutation (non_nums (flatten_add l1)) (non_nums (flatten_add l2)))
    by (apply Permutation_filter, Hf).
  rewrite (num_sum_perm _ _ Hf), (key_weight_perm _ _ Hn), (add_loop_perm _ _ _ _ Hn).
  reflexivity.
Qed.

Lemma mapM_ext {A B} (f g : A -> Result B) l : (forall a, f a = g a) -> mapM f l = mapM g l.
Proof. intros H. induction l as [|a l IH]; simpl; [reflexivity|]. rewrite H, IH. reflexivity. Qed.

Lemma mul_round_perm l1 l2 : Permutation l1 l2 -> mul_round l1 = mul_round l2.
Proof.
  intros H. unfold mul_round, bases.
  rewrite (sort_exprs_perm_eq _ _ (Permutation_map base_of H)).
  rewrite (mapM_ext _ (fun k => mk_pow k (norm_add (exps_of k l2)))); [reflexivity|].
  intros k. unfold exps_of. rewrite (norm_add_perm _ (map exp_of (filter (fun f => expr_eqb (base_of f) k) l2))).
  - reflexivity.
  - apply Permutation_map, Permutation_filter, H.
Qed.

Lemma mul_loop_perm n p l1 l2 : Permutation l1 l2 -> mul_loop (S n) p l1 = mul_loop (S n) p l2.
Proof. intros H. cbn [mul_loop]. rewrite (mul_round_perm _ _ H). reflexivity. Qed.

Lemma norm_mul_perm l1 l2 : Permutation l1 l2 -> norm_mul l1 = norm_mul l2.
Proof.
  intros HP. unfold norm_mul. cbv zeta.
  assert (Hf : Permutation (flatten_mul l1) (flatten_mul l2))
    by (apply Permutation_flat_map; exact HP).
  assert (Hn : Permutation (non_nums (flatten_mul l1)) (non_nums (flatten_mul l2)))
    by (apply Permutation_filter, Hf).
  rewrite (num_prod_perm _ _ Hf), (base_weight_perm _ _ Hn), (mul_loop_perm _ _ _ _ Hn).
  reflexivity.
Qed.

(** Running a computation over two orderings of a list: both succeed with
    reordered results, or both fail with the one error the computation has. *)
Definition res_perm {B} (r1 r2 : Result (list B)) : Prop :=
  match r1, r2 with
  | Ok a, Ok b => Permutation a b
  | Err e1, Err e2 => e1 = e2
  | _, _ => False
  end.

Lemma mapM_perm {A B} (f : A -> Result B) err0 : (forall a e, f a = Err e -> e = err0) ->
  forall l1 l2, Permutation l1 l2 -> res_perm (mapM f l1) (mapM f l2).
Proof.
  intros Hf l1 l2 H.
  assert (Herr : forall l e, mapM f l = Err e -> e = err0).
  { induction l as [|a l IH]; intros e; simpl; [discriminate|].
    destruct (f a) eqn:Ea; simpl; [|intros [= <-]; exact (Hf _ _ Ea)].
    destruct (mapM f l) eqn:El; simpl; [discriminate|]. intros [= <-]. exact (IH _ eq_refl). }
  induction H as [|x l1 l2 H IH|x y l|l1 l2 l3 H1 IH1 H2 IH2].
  - constructor.
  - simpl. destruct (f x); simpl; [|reflexivity].
    destruct (mapM f l1), (mapM f l2); simpl in *; try contradiction; auto.
  - simpl. destruct (f x) eqn:Ex, (f y) eqn:Ey; simpl; try reflexivity.
    + destruct (mapM f l); simpl; [apply perm_swap|reflexivity].
    + rewrite (Hf _ _ Ex), (Hf _ _ Ey). reflexivity.
  - destruct (mapM f l1) eqn:E1, (mapM f l2) eqn:E2, (mapM f l3) eqn:E3;
      simpl in *; try contradiction.
    + eapply perm_trans; eauto.
    + congruence.
Qed.

Lemma map_simplify_reorder l1 l2 :
  Forall (fun e => forall e2, reorder e e2 -> simplify e = simplify e2) l1 ->
  Forall2 reorder l1 l2 -> mapM simplify l1 = mapM simplify l2.
Proof.
  intros IH H. induction H as [|a b l1 l2 Hab H IHl]; [reflexivity|].
  inversion IH; subst. simpl. f_equal; auto. rewrite IHl by assumption. reflexivity.
Qed.

Lemma reorder_simplify_eq e1 : forall e2, reorder e1 e2 -> simplify e1 = simplify e2.
Proof.
  induction e1 as [s|z|n d|l IH|l IH|b e IHb IHe|f a IH] using Expr_ind';
    intros e2 H; inversion H as [| | |? l2 ? H1 H2|? l2 ? H1 H2|? ? ? ? H3 H5|? ? ? H3];
    subst; simpl; auto.
  - rewrite (map_simplify_reorder _ _ IH H1).
    pose proof (mapM_perm simplify UndefinedPower simplify_err _ _ H2) as Hp.
    destruct (mapM simplify l2), (mapM simplify l3); simpl in *; try contradiction.
    + rewrite (norm_add_perm _ _ Hp). reflexivity.
    + congruence.
  - rewrite (map_simplify_reorder _ _ IH H1).
    pose proof (mapM_perm simplify UndefinedPower simplify_err _ _ H2) as Hp.
    destruct (mapM simplify l2), (mapM simplify l3); simpl in *; try contradiction.
    + apply norm_mul_perm, Hp.
    + congruence.
  - rewrite (IHb _ H3), (IHe _ H5). reflexivity.
  - rewrite (IH _ H3). reflexivity.
Qed.

Lemma mk_num_zero q : Qred q = q -> (q == 0)%Q -> mk_num q = Integer 0.
Proof.
  intros Hr H. apply Qred_complete in H. rewrite Hr in H. rewrite H. reflexivity.
Qed.

Lemma mk_num_Qeq p q : (p == q)%Q -> mk_num p = mk_num q.
Proof. intros H. unfold mk_num. rewrite (Qred_complete _ _ H). reflexivity. Qed.

Lemma mk_num_Z z : mk_num (inject_Z z) = Integer z.
Proof.
  unfold mk_num, inject_Z. rewrite Qcanon.Qred_identity by (simpl; apply Z.gcd_1_r). reflexivity.
Qed.

Lemma nums_non_nums l : Forall (fun t => is_num t = true) l -> non_nums l = [].
Proof.
  intros HF. unfold non_nums. induction HF as [|t l Ht _ IH]; [reflexivity|]. simpl. rewrite Ht. exact IH.
Qed.

Lemma nums_flatten_add l : Forall (fun t => is_num t = true) l -> flatten_add l = l.
Proof.
  intros HF. apply flatten_add_id. eapply Forall_impl; [|exact HF].
  intros t Ht. destruct t; try reflexivity. discriminate.
Qed.

Lemma nums_flatten_mul l : Forall (fun t => is_num t = true) l -> flatten_mul l = l.
Proof.
  intros HF. apply flatten_mul_id. eapply Forall_impl; [|exact HF].
  intros t Ht. destruct t; try reflexivity. discriminate.
Qed.

Lemma add_loop_nil n s : add_loop (S n) s [] = (qadd s 0, []).
Proof. reflexivity. Qed.

Lemma norm_add_nums l : Forall (fun t => is_num t = true) l -> norm_add l = mk_num (num_sum l).
Proof.
  intros HF. unfold norm_add. rewrite (nums_flatten_add l HF), (nums_non_nums l HF).
  rewrite add_loop_nil. cbn [fst snd]. unfold build_add.
  rewrite qadd_0_r by apply num_sum_reduced.
  destruct (Qeq_bool (num_sum l) 0) eqn:E; cbn.
  - symmetry. apply mk_num_zero; [apply num_sum_reduced|]. apply Qeq_bool_iff, E.
  - reflexivity.
Qed.

Lemma mul_loop_nil n p : mul_loop (S n) p [] = Ok (qmul p 1, []).
Proof. cbn [mul_loop]. unfold mul_round. cbn -[qmul]. destruct (Qeq_bool (qmul p 1) 0); reflexivity. Qed.

Lemma norm_mul_nums l : Forall (fun t => is_num t = true) l -> norm_mul l = Ok (mk_num (num_prod l)).
Proof.
  intros HF. unfold norm_mul. rewrite (nums_flatten_mul l HF), (nums_non_nums l HF).
  destruct (Qeq_bool (num_prod l) 0) eqn:E.
  - f_equal. symmetry. apply mk_num_zero; [apply num_prod_reduced|]. apply Qeq_bool_iff, E.
  - rewrite mul_loop_nil, qmul_1_r by apply num_prod_reduced. cbn [bind fst snd].
    unfold build_mul. rewrite E.
    destruct (Qeq_bool (num_prod l) 1) eqn:E1; [|reflexivity].
    apply Qeq_bool_iff in E1. rewrite (mk_num_Qeq _ _ E1). reflexivity.
Qed.


Lemma simplify_num a qa : num_val a = Some qa -> simplify a = Ok (mk_num qa).
Proof.
  destruct a; simpl; intros H; try discriminate; injection H as <-; [|reflexivity].
  rewrite mk_num_Z. reflexivity.
Qed.

Lemma mk_pow_num_inv q : ~ (q == 0)%Q -> mk_pow (mk_num q) (Integer (-1)) = Ok (mk_num (Qred (/ Qred q))).
Proof.
  intros Hq. rewrite mk_pow_intn by discriminate.
  assert (Hz : Qeq_bool (Qred q) 0 = false).
  { apply Qeq_bool_false. rewrite Qred_correct. exact Hq. }
  destruct (mk_num_cases q) as [[_ E]|[_ E]]; rewrite E; rewrite <- E; rewrite num_val_mk_num;
    unfold num_pow; rewrite Hz; reflexivity.
Qed.

Lemma simplify_add_nums a b qa qb : num_val a = Some qa -> num_val b = Some qb ->
  simplify (add a b) = Ok (mk_num (qa + qb)).
Proof.
  intros Ha Hb. unfold add. cbn [simplify mapM]. rewrite (simplify_num a qa Ha), (simplify_num b qb Hb).
  cbn [bind]. rewrite norm_add_nums by (repeat constructor; apply is_num_mk_num).
  f_equal. apply mk_num_Qeq. unfold num_sum. simpl. rewrite !num_val_mk_num. unfold qadd.
  rewrite !Qred_correct. ring.
Qed.

Lemma simplify_mul_nums a b qa qb : num_val a = Some qa -> num_val b = Some qb ->
  simplify (mul a b) = Ok (mk_num (qa * qb)).
Proof.
  intros Ha Hb. unfold mul. cbn [simplify mapM]. rewrite (simplify_num a qa Ha), (simplify_num b qb Hb).
  cbn [bind]. rewrite norm_mul_nums by (repeat constructor; apply is_num_mk_num).
  f_equal. apply mk_num_Qeq. unfold num_prod. simpl. rewrite !num_val_mk_num. unfold qmul.
  rewrite !Qred_correct. ring.
Qed.

Lemma simplify_div_nums a b qa qb : num_val a = Some qa -> num_val b = Some qb -> ~ (qb == 0)%Q ->
  simplify (div a b) = Ok (mk_num (qa / qb)).
Proof.
  intros Ha Hb Hq. unfold div. cbn [simplify mapM]. rewrite (simplify_num a qa Ha), (simplify_num b qb Hb).
  cbn [bind simplify]. rewrite (mk_pow_num_inv qb Hq). cbn [bind].
  rewrite norm_mul_nums by (repeat constructor; apply is_num_mk_num).
  f_equal. apply mk_num_Qeq. unfold num_prod. simpl. rewrite !num_val_mk_num. unfold qmul.
  rewrite !Qred_correct. unfold Qdiv. ring.
Qed.

Lemma mk_num_non_integer q : (forall z, ~ (q == inject_Z z)%Q) ->
  exists n d, mk_num q = Rational n d /\ (n # d == q)%Q /\ Qred (n # d) = (n # d).
Proof.
  intros Hq. destruct (mk_num_cases q) as [[Hd E]|[Hd E]].
  - exfalso. apply (Hq (Qnum (Qred q))). rewrite <- (Qred_correct q) at 1.
    unfold inject_Z. destruct (Qred q) as [a b]. simpl in *. subst. reflexivity.
  - exists (Qnum (Qred q)), (Qden (Qred q)). split; [exact E|].
    replace (Qnum (Qred q) # Qden (Qred q)) with (Qred q) by (destruct (Qred q); reflexivity).
    split; [apply Qred_correct|apply Qred_idem].
Qed.

(** C2: [simplify] is idempotent, its output is canonical and has the
    value of its input: when [simplify e] succeeds with [s], [s] is
    canonical, [simplify s = s], and every value of [e] under an
    environment is a value of [s]; when [e] has a value, [simplify e]
    succeeds (it fails only on an undefined power such as [0^0]). *)
Theorem simplify_idempotent_canonical_sound : forall e,
  (let* s := simplify e in simplify s) = simplify e /\
  (forall s, simplify e = Ok s ->
     canon s = true /\ simplify s = Ok s /\
     (forall env fn v, eval env fn e v -> eval env fn s v)) /\
  (forall env fn v, eval env fn e v -> exists s, simplify e = Ok s).
Proof.
  intros e. split; [|split].
  - destruct (simplify e) as [s|err] eqn:E; cbn [bind]; [|reflexivity].
    apply (simplify_idem e s E).
  - intros s E. split; [apply (simplify_canon e s E)|]. split; [apply (simplify_idem e s E)|].
    intros env fn v Hv. destruct (simplify_sound env fn e v Hv) as (s' & E' & Hs').
    rewrite E in E'. injection E' as <-. exact Hs'.
  - intros env fn v Hv. destruct (simplify_sound env fn e v Hv) as (s & E & _). eauto.
Qed.

Lemma simplify_idempotent_canonical_sound_witness :
  simplify (add x (Integer 1)) = Ok (Add [Integer 1; x]) /\
  eval (fun _ => 2%R) (fun _ _ => None) (Add [Integer 1; x]) 3%R.
Proof.
  assert (E : simplify (add x (Integer 1)) = Ok (Add [Integer 1; x])) by reflexivity.
  split; [exact E|].
  destruct (simplify_idempotent_canonical_sound (add x (Integer 1))) as (_ & H2 & _).
  apply (proj2 (proj2 (H2 _ E))).
  eapply eval_eq; [apply (ev_add _ _ _ [2%R; 1%R]); repeat constructor|].
  unfold rsum. simpl. lra.
Defined.

(** C5: rational arithmetic is exact: [rational(1,2) + rational(1,3)]
    simplifies to [rational(5,6)] and [rational(1,2) * rational(1,3)] to
    [rational(1,6)]; for any numeric literals [a] and [b] of values [qa]
    and [qb], [a + b], [a * b] and (when [qb <> 0]) [a / b] simplify to the
    literal of the exact value; and a literal of a value that is not an
    integer is a [Rational] holding that value in lowest terms. *)
Theorem rational_arithmetic_exact :
  (let* a := rational 1 2 in let* b := rational 1 3 in simplify (add a b)) = rational 5 6 /\
  (let* a := rational 1 2 in let* b := rational 1 3 in simplify (mul a b)) = rational 1 6 /\
  (forall a b qa qb, num_val a = Some qa -> num_val b = Some qb ->
     simplify (add a b) = Ok (mk_num (qa + qb)) /\
     simplify (mul a b) = Ok (mk_num (qa * qb)) /\
     (~ (qb == 0)%Q -> simplify (div a b) = Ok (mk_num (qa / qb)))) /\
  (forall q, (forall z, ~ (q == inject_Z z)%Q) ->
     exists n d, mk_num q = Rational n d /\ (n # d == q)%Q /\ Qred (n # d) = (n # d)).
Proof.
  split; [reflexivity|]. split; [reflexivity|]. split.
  - intros a b qa qb Ha Hb. split; [apply simplify_add_nums; assumption|].
    split; [apply simplify_mul_nums; assumption|]. intros Hq. apply simplify_div_nums; assumption.
  - apply mk_num_non_integer.
Qed.

Lemma rational_arithmetic_exact_witness :
  simplify (div (Rational 1 2) (Rational 1 3)) = Ok (mk_num ((1 # 2) / (1 # 3))) /\
  mk_num ((1 # 2) / (1 # 3)) = Rational 3 2.
Proof.
  split; [|reflexivity].
  destruct rational_arithmetic_exact as (_ & _ & H & _).
  refine (proj2 (proj2 (H (Rational 1 2) (Rational 1 3) (1 # 2) (1 # 3) eq_refl eq_refl)) _).
  intros E. vm_compute in E. discriminate.
Defined.

(** C6: [diff] follows the fixed table [sin -> cos], [cos -> -sin],
    [exp -> exp], [ln u -> u'/u] combined with the chain rule (the
    derivative of the argument multiplies the table entry);
    [diff(sin x) = cos x], [diff(exp x) = exp x], and [diff(ln x)] is
    [x^(-1)], the simplified form of [1/x]; every result of [diff] is
    canonical and a fixed point of [simplify]. *)
Theorem diff_table_chain_rule :
  diff (sin x) "x" = Ok (cos x) /\ diff (exp x) "x" = Ok (exp x) /\
  diff (ln x) "x" = Ok (Pow x (Integer (-1))) /\
  simplify (div (Integer 1) x) = Ok (Pow x (Integer (-1))) /\
  (forall v a da, deriv v a = Ok da ->
     deriv v (sin a) = Ok (Mul [cos a; da]) /\
     deriv v (cos a) = Ok (Mul [Integer (-1); sin a; da]) /\
     deriv v (exp a) = Ok (Mul [exp a; da]) /\
     deriv v (ln a) = Ok (Mul [da; Pow a (Integer (-1))])) /\
  (forall e v d, diff e v = Ok d -> simplify d = Ok d /\ canon d = true).
Proof.
  split; [reflexivity|]. split; [reflexivity|]. split; [reflexivity|]. split; [reflexivity|]. split.
  - intros v a da H. unfold sin, cos, exp, ln. simpl. rewrite H. repeat split.
  - intros e v d H. unfold diff in H. destruct (deriv v e) as [d0|]; cbn in H; [|discriminate].
    split; [apply (simplify_idem d0 d H)|apply (simplify_canon d0 d H)].
Qed.

Lemma diff_table_chain_rule_witness :
  deriv "x" (sin x) = Ok (Mul [cos x; Integer 1]) /\
  (simplify (Mul [Pow x (Add [Integer 1; y]); ln x]) = Ok (Mul [Pow x (Add [Integer 1; y]); ln x]) /\
   canon (Mul [Pow x (Add [Integer 1; y]); ln x]) = true).
Proof.
  destruct diff_table_chain_rule as (_ & _ & _ & _ & H4 & H5).
  split; [apply (H4 "x" x (Integer 1)); reflexivity|].
  apply (H5 (Mul [x; Pow x y]) "y"). vm_compute. reflexivity.
Defined.

Section Distrib.
Variable env : string -> R.
Variable fn : string -> R -> option R.

Lemma eval_x_times_y1 : eval env fn (Mul [x; Add [y; Integer 1]]) (env "x" * (env "y" + 1))%R.
Proof.
  eapply eval_eq; [apply (ev_mul _ _ _ [env "x"; (env "y" + 1)%R]); repeat constructor|].
  - eapply eval_eq; [apply (ev_add _ _ _ [env "y"; 1%R]); repeat constructor|].
    unfold rsum. simpl. lra.
  - unfold rprod. simpl. lra.
Qed.

Lemma eval_xy_plus_x : eval env fn (Add [Mul [x; y]; x]) (env "x" * (env "y" + 1))%R.
Proof.
  eapply eval_eq; [apply (ev_add _ _ _ [(env "x" * env "y")%R; env "x"]); repeat constructor|].
  - eapply eval_eq; [apply (ev_mul _ _ _ [env "x"; env "y"]); repeat constructor|].
    unfold rprod. simpl. lra.
  - unfold rsum. simpl. lra.
Qed.
End Distrib.

(** C1 (counterexample): [x*(y+1)] and [x*y + x] have the same value
    under every environment, yet [simplify] maps them to different trees,
    since the simplifier does not expand products over sums. *)
Lemma simplify_distributivity_counterexample :
  exists e1 e2, (forall env fn v, eval env fn e1 v <-> eval env fn e2 v) /\
                simplify e1 <> simplify e2.
Proof.
  exists (Mul [x; Add [y; Integer 1]]), (Add [Mul [x; y]; x]). split.
  - intros env fn v. split; intros H.
    + rewrite (eval_det _ _ _ _ _ H (eval_x_times_y1 env fn)). apply eval_xy_plus_x.
    + rewrite (eval_det _ _ _ _ _ H (eval_xy_plus_x env fn)). apply eval_x_times_y1.
  - vm_compute. discriminate.
Qed.

(** C1: two expressions built in different syntactic orders, i.e. that
    differ only in the order of the operands of their sums and products at
    any depth (such as [x+1] and [1+x]), have one and the same
    simplification: the same canonical tree, or the same error; so the
    results are structurally equal and any hash function maps them to the
    same value. *)
Theorem simplify_reorder_same_tree : forall e1 e2, reorder e1 e2 ->
  simplify e1 = simplify e2 /\
  (forall s, simplify e1 = Ok s -> canon s = true) /\
  (forall (A : Type) (hash : Expr -> A) s1 s2,
     simplify e1 = Ok s1 -> simplify e2 = Ok s2 -> hash s1 = hash s2).
Proof.
  intros e1 e2 H. pose proof (reorder_simplify_eq e1 e2 H) as E.
  split; [exact E|]. split; [apply simplify_canon|].
  intros A hash s1 s2 H1 H2. rewrite E, H2 in H1. injection H1 as ->. reflexivity.
Qed.

Lemma simplify_reorder_same_tree_witness :
  reorder (mul (Integer 3) (add x (Integer 1))) (mul (add (Integer 1) x) (Integer 3)) /\
  simplify (mul (Integer 3) (add x (Integer 1))) = simplify (mul (add (Integer 1) x) (Integer 3)).
Proof.
  assert (H : reorder (mul (Integer 3) (add x (Integer 1))) (mul (add (Integer 1) x) (Integer 3))).
  { apply (ro_mul _ [Integer 3; add (Integer 1) x]); [|apply perm_swap].
    constructor; [constructor|]. constructor; [|constructor].
    apply (ro_add _ [x; Integer 1]); [repeat constructor|apply perm_swap]. }
  split; [exact H|]. exact (proj1 (simplify_reorder_same_tree _ _ H)).
Defined.


Section EvalfFacts.
Variable F : Type.
Variable of_Q : Q -> F.
Variables fadd fmul fpow : F -> F -> F.
Variables fsin fcos fexp fln : F -> F.

Definition evalf_outcome (e : Expr) : Prop :=
  (exists r, evalf F of_Q fadd fmul fpow fsin fcos fexp fln e = Ok r /\ has_symbol e = false) \/
  (exists s, evalf F of_Q fadd fmul fpow fsin fcos fexp fln e = Err (UnboundSymbol s) /\
             has_symbol e = true).

Lemma fun_table_known f : known_fun f = true ->
  exists g, fun_table F fsin fcos fexp fln f = Some g.
Proof.
  unfold known_fun, fun_table. intros H.
  destruct (String.eqb f "sin"); [eauto|]. destruct (String.eqb f "cos"); [eauto|].
  destruct (String.eqb f "exp"); [eauto|]. destruct (String.eqb f "ln"); [eauto|].
  discriminate.
Qed.

Lemma mapM_outcome l : Forall evalf_outcome l ->
  (exists vs, mapM (evalf F of_Q fadd fmul fpow fsin fcos fexp fln) l = Ok vs /\
              existsb has_symbol l = false) \/
  (exists s, mapM (evalf F of_Q fadd fmul fpow fsin fcos fexp fln) l = Err (UnboundSymbol s) /\
             existsb has_symbol l = true).
Proof.
  induction 1 as [|e l He _ IH]; [left; exists []; auto|].
  destruct He as [(r & Hr & Hs)|(s & Hr & Hs)]; cbn [mapM existsb]; rewrite Hr; cbn [bind].
  - destruct IH as [(vs & Hv & Hl)|(s & Hv & Hl)]; rewrite Hv; cbn [bind]; rewrite Hs, Hl.
    + left. eauto.
    + right. eauto.
  - right. exists s. rewrite Hs. auto.
Qed.

Lemma evalf_outcome_all e : known_funs e = true -> evalf_outcome e.
Proof.
  induction e as [s|z|n d|l IH|l IH|b a IHb IHa|f a IH] using Expr_ind'; cbn [known_funs]; intros Hk.
  - right. exists s. auto.
  - left. eexists. split; reflexivity.
  - left. eexists. split; reflexivity.
  - assert (HF : Forall evalf_outcome l).
    { apply forallb_Forall in Hk. rewrite Forall_forall in *. intros t Ht. apply IH; auto. }
    unfold evalf_outcome. cbn [evalf has_symbol].
    destruct (mapM_outcome l HF) as [(vs & Hv & Hl)|(s & Hv & Hl)]; rewrite Hv; cbn [bind].
    + left. eauto.
    + right. eauto.
  - assert (HF : Forall evalf_outcome l).
    { apply forallb_Forall in Hk. rewrite Forall_forall in *. intros t Ht. apply IH; auto. }
    unfold evalf_outcome. cbn [evalf has_symbol].
    destruct (mapM_outcome l HF) as [(vs & Hv & Hl)|(s & Hv & Hl)]; rewrite Hv; cbn [bind].
    + left. eauto.
    + right. eauto.
  - apply andb_true_iff in Hk as [Hb Ha]. unfold evalf_outcome. cbn [evalf has_symbol].
    destruct (IHb Hb) as [(r & Hr & Hs)|(s & Hr & Hs)]; rewrite Hr; cbn [bind].
    + destruct (IHa Ha) as [(r' & Hr' & Hs')|(s & Hr' & Hs')]; rewrite Hr'; cbn [bind];
        rewrite Hs, Hs'; [left|right]; eauto.
    + right. exists s. rewrite Hs. auto.
  - apply andb_true_iff in Hk as [Hf Ha]. unfold evalf_outcome. cbn [evalf has_symbol].
    destruct (IH Ha) as [(r & Hr & Hs)|(s & Hr & Hs)]; rewrite Hr; cbn [bind].
    + destruct (fun_table_known f Hf) as [g Hg]. rewrite Hg. left. eauto.
    + right. eauto.
Qed.
End EvalfFacts.

(** C8 (counterexample): [foo(1)] contains no free symbol, yet [evalf]
    returns no value for it: the name [foo] has no real-valued definition
    in the table, and [evalf] fails with [UnknownFunction]. *)






(** ** Substitution followed by simplification or evaluation *)

Lemma Forall2_map_iff {A B} (P : B -> R -> Prop) (Q : A -> R -> Prop) (g : A -> B) l :
  Forall (fun t => forall u, P (g t) u <-> Q t u) l ->
  forall vs, Forall2 P (map g l) vs <-> Forall2 Q l vs.
Proof.
  induction 1 as [|t l Ht _ IH]; intros vs; simpl.
  - split; intros H; inversion H; constructor.
  - split; intros H; inversion H; subst; constructor; firstorder.
Qed.

Lemma subs_eval_iff env fn e v r w : eval env fn r w -> forall u,
  eval env fn (subs e v r) u <-> eval (update env v w) fn e u.
Proof.
  intros Hr. induction e as [s|z|n d|l IH|l IH|b a IHb IHa|f a IH] using Expr_ind'; intros u; cbn [subs].
  - destruct (String.eqb s v) eqn:E.
    + apply String.eqb_eq in E. subst. split; intros H.
      * rewrite (eval_det _ _ _ _ _ H Hr). apply (eval_eq _ _ _ _ _ (ev_sym _ _ v)).
        unfold update. rewrite String.eqb_refl. reflexivity.
      * inversion H; subst. unfold update. rewrite String.eqb_refl. exact Hr.
    + split; intros H; inversion H; subst; apply (eval_eq _ _ _ _ _ (ev_sym _ _ s));
        unfold update; rewrite E; reflexivity.
  - split; intros H; inversion H; subst; constructor.
  - split; intros H; inversion H; subst; constructor.
  - pose proof (Forall2_map_iff _ _ _ _ IH) as HF.
    split; intros H; inversion H; subst; constructor; apply HF; assumption.
  - pose proof (Forall2_map_iff _ _ _ _ IH) as HF.
    split; intros H; inversion H; subst; constructor; apply HF; assumption.
  - split; intros H; inversion H; subst; econstructor; try apply IHb; try apply IHa; eauto.
  - split; intros H; inversion H; subst; econstructor; try apply IH; eauto.
Qed.

Lemma eval_defined_list env fn l : Forall (fun t => exists u, eval env fn t u) l ->
  exists vs, Forall2 (eval env fn) l vs.
Proof.
  induction 1 as [|t l (u & Hu) _ (vs & Hvs)]; [exists []; constructor|].
  exists (u :: vs). constructor; auto.
Qed.

Lemma poly_in_defined v env fn e : poly_in v e = true -> exists u, eval env fn e u.
Proof.
  induction e as [s|z|n d|l IH|l IH|b a IHb IHa|f a IH] using Expr_ind'; cbn [poly_in]; intros Hp;
    try discriminate.
  - eexists. constructor.
  - eexists. constructor.
  - eexists. constructor.
  - destruct (eval_defined_list env fn l) as (vs & Hvs).
    { apply forallb_Forall in Hp. rewrite Forall_forall in *. auto. }
    eexists. constructor. exact Hvs.
  - destruct (eval_defined_list env fn l) as (vs & Hvs).
    { apply forallb_Forall in Hp. rewrite Forall_forall in *. auto. }
    eexists. constructor. exact Hvs.
  - destruct a as [|k| | | | |]; try discriminate.
    apply andb_true_iff in Hp as [Hb Hk]. apply Z.leb_le in Hk.
    destruct (IHb Hb) as (vb & Hvb). exists (powerRZ vb k).
    econstructor; [exact Hvb|constructor|]. apply pwr_int. split; [right; lia|reflexivity].
Qed.

Lemma mk_pow_num_pos q k : (1 <= k)%Z -> exists q', mk_pow (mk_num q) (Integer k) = Ok (mk_num q').
Proof.
  intros Hk. destruct (Z.eq_dec k 1) as [->|Hk1]; [rewrite mk_pow_int1; eauto|].
  rewrite mk_pow_intn by lia.
  assert (Hn : num_pow (Qred q) k = Ok (Qred (Qpower (Qred q) k))).
  { unfold num_pow. replace (Qeq_bool (Qred q) 0 && (k <? 0)%Z) with false; [reflexivity|].
    symmetry. apply andb_false_iff. right. apply Z.ltb_ge. lia. }
  destruct (mk_num_cases q) as [[_ E]|[_ E]]; rewrite E; rewrite <- E; rewrite num_val_mk_num, Hn;
    cbn [bind]; eauto.
Qed.

Lemma mapM_nums (f : Expr -> Result Expr) l :
  Forall (fun t => exists q, f t = Ok (mk_num q)) l ->
  exists l', mapM f l = Ok l' /\ Forall (fun t => is_num t = true) l'.
Proof.
  intros HF. destruct (mapM_exists f (fun _ b => is_num b = true) l) as (l' & E & H2).
  - intros a Ha. rewrite Forall_forall in HF. destruct (HF a Ha) as (q & Eq).
    exists (mk_num q). split; [exact Eq|apply is_num_mk_num].
  - exists l'. split; [exact E|]. clear E HF. induction H2; constructor; auto.
Qed.

Lemma poly_subs_num v n e : poly_in v e = true ->
  exists q, simplify (subs e v (Integer n)) = Ok (mk_num q).
Proof.
  induction e as [s|z|n' d|l IH|l IH|b a IHb IHa|f a IH] using Expr_ind'; cbn [poly_in]; intros Hp;
    try discriminate.
  - cbn [subs]. rewrite Hp. exists (inject_Z n). rewrite mk_num_Z. reflexivity.
  - exists (inject_Z z). rewrite mk_num_Z. reflexivity.
  - exists (n' # d). reflexivity.
  - destruct (mapM_nums simplify (map (fun t => subs t v (Integer n)) l)) as (l' & E & HF).
    { apply Forall_forall. intros t Ht. apply in_map_iff in Ht as (t' & <- & Ht').
      apply forallb_Forall in Hp. rewrite Forall_forall in *. exact (IH t' Ht' (Hp t' Ht')). }
    cbn [subs simplify]. rewrite E. cbn [bind]. rewrite norm_add_nums by exact HF. eauto.
  - destruct (mapM_nums simplify (map (fun t => subs t v (Integer n)) l)) as (l' & E & HF).
    { apply Forall_forall. intros t Ht. apply in_map_iff in Ht as (t' & <- & Ht').
      apply forallb_Forall in Hp. rewrite Forall_forall in *. exact (IH t' Ht' (Hp t' Ht')). }
    cbn [subs simplify]. rewrite E. cbn [bind]. rewrite norm_mul_nums by exact HF. eauto.
  - destruct a as [|k| | | | |]; try discriminate.
    apply andb_true_iff in Hp as [Hb Hk]. apply Z.leb_le in Hk.
    destruct (IHb Hb) as (q & Hq). cbn [subs simplify]. rewrite Hq. cbn [bind].
    apply mk_pow_num_pos, Hk.
Qed.

Lemma known_funs_subs e v r : known_funs e = true -> known_funs r = true ->
  known_funs (subs e v r) = true.
Proof.
  intros He Hr. induction e as [s|z|n d|l IH|l IH|b a IHb IHa|f a IH] using Expr_ind';
    cbn [subs known_funs] in *; auto.
  - destruct (String.eqb s v); auto.
  - apply forallb_forall. intros t Ht. apply in_map_iff in Ht as (t' & <- & Ht').
    rewrite forallb_forall in He. rewrite Forall_forall in IH. auto.
  - apply forallb_forall. intros t Ht. apply in_map_iff in Ht as (t' & <- & Ht').
    rewrite forallb_forall in He. rewrite Forall_forall in IH. auto.
  - apply andb_true_iff in He as [H1 H2]. rewrite IHb, IHa; auto.
  - apply andb_true_iff in He as [H1 H2]. rewrite H1, IH; auto.
Qed.

Lemma has_symbol_subs e v r : only_sym v e = true -> has_symbol r = false ->
  has_symbol (subs e v r) = false.
Proof.
  intros He Hr. induction e as [s|z|n d|l IH|l IH|b a IHb IHa|f a IH] using Expr_ind';
    cbn [subs has_symbol only_sym] in *; auto.
  - rewrite He. exact Hr.
  - destruct (existsb has_symbol (map (fun t => subs t v r) l)) eqn:E; [|reflexivity].
    apply existsb_exists in E as (t & Ht & Hs). apply in_map_iff in Ht as (t' & <- & Ht').
    rewrite forallb_forall in He. rewrite Forall_forall in IH. rewrite IH in Hs; auto.
  - destruct (existsb has_symbol (map (fun t => subs t v r) l)) eqn:E; [|reflexivity].
    apply existsb_exists in E as (t & Ht & Hs). apply in_map_iff in Ht as (t' & <- & Ht').
    rewrite forallb_forall in He. rewrite Forall_forall in IH. rewrite IH in Hs; auto.
  - apply andb_true_iff in He as [H1 H2]. rewrite IHb, IHa; auto.
Qed.

(** [subs e v r] means [e] with [v] bound to the value of [r]: under any
    environment where [r] has the value [w], the substituted tree has
    exactly the values of [e] with [v] bound to [w], and simplifying it
    afterwards succeeds and keeps that value. *)
Theorem subs_simplify_eval env fn e v r w : eval env fn r w -> forall u,
  (eval env fn (subs e v r) u <-> eval (update env v w) fn e u) /\
  (eval (update env v w) fn e u ->
     exists s, simplify (subs e v r) = Ok s /\ eval env fn s u).
Proof.
  intros Hr u. split; [apply subs_eval_iff, Hr|].
  intros Hu. apply simplify_sound, (subs_eval_iff env fn e v r w Hr), Hu.
Qed.

Lemma subs_simplify_eval_witness :
  eval (fun _ => 0%R) (fun _ _ => None) (Integer 5) (IZR 5) /\
  forall u,
  (eval (fun _ => 0%R) (fun _ _ => None) (subs (add (pow x (Integer 2)) (Integer 1)) "x" (Integer 5)) u <->
   eval (update (fun _ => 0%R) "x" (IZR 5)) (fun _ _ => None) (add (pow x (Integer 2)) (Integer 1)) u) /\
  (eval (update (fun _ => 0%R) "x" (IZR 5)) (fun _ _ => None) (add (pow x (Integer 2)) (Integer 1)) u ->
   exists s, simplify (subs (add (pow x (Integer 2)) (Integer 1)) "x" (Integer 5)) = Ok s /\
             eval (fun _ => 0%R) (fun _ _ => None) s u).
Proof. split; [constructor|apply subs_simplify_eval; constructor]. Defined.

(** Substituting an integer for the variable of a polynomial in one
    variable and simplifying gives a numeric literal, and that number is
    the value of the polynomial at the integer. *)
Theorem poly_subs_numeral_value v n e : poly_in v e = true ->
  exists q, simplify (subs e v (Integer n)) = Ok (mk_num q) /\
    forall env fn, eval (update env v (IZR n)) fn e (Q2R q).
Proof.
  intros Hp. destruct (poly_subs_num v n e Hp) as (q & Hq). exists q. split; [exact Hq|].
  intros env fn. destruct (poly_in_defined v (update env v (IZR n)) fn e Hp) as (u & Hu).
  destruct (simplify_sound env fn (subs e v (Integer n)) u) as (s & Hs & Hsu).
  { apply (subs_eval_iff env fn e v (Integer n) (IZR n) (ev_int _ _ n)), Hu. }
  rewrite Hq in Hs. injection Hs as <-.
  apply (eval_num _ _ _ (Qred q)) in Hsu; [|apply num_val_mk_num].
  rewrite Hsu, Q2R_Qred in Hu. exact Hu.
Qed.

Lemma poly_subs_numeral_value_witness :
  poly_in "x" (add (pow x (Integer 2)) (add (mul (Integer 3) x) (Integer 2))) = true /\
  exists q, simplify (subs (add (pow x (Integer 2)) (add (mul (Integer 3) x) (Integer 2))) "x" (Integer 5)) = Ok (mk_num q) /\
    forall env fn, eval (update env "x" (IZR 5)) fn (add (pow x (Integer 2)) (add (mul (Integer 3) x) (Integer 2))) (Q2R q).
Proof. split; [reflexivity|apply poly_subs_numeral_value; reflexivity]. Defined.

(** After substituting an expression with no free symbol for the only
    symbol of [e], [evalf] returns a value (it cannot fail with
    [UnboundSymbol]), provided every function name is in the table. *)
Theorem subs_closed_evalf F of_Q fadd fmul fpow fsin fcos fexp fln e v r :
  only_sym v e = true -> known_funs e = true -> has_symbol r = false -> known_funs r = true ->
  exists y, evalf F of_Q fadd fmul fpow fsin fcos fexp fln (subs e v r) = Ok y.
Proof.
  intros Ho Hk Hr Hkr.
  destruct (evalf_outcome_all F of_Q fadd fmul fpow fsin fcos fexp fln (subs e v r))
    as [(y & Hy & _)|(s & _ & Hs)].
  - apply known_funs_subs; assumption.
  - eauto.
  - rewrite has_symbol_subs in Hs by assumption. discriminate.
Qed.

Lemma subs_closed_evalf_witness :
  only_sym "x" (add (sin x) (pow x (Integer 2))) = true /\ known_funs (add (sin x) (pow x (Integer 2))) = true /\
  has_symbol (Integer 5) = false /\ known_funs (Integer 5) = true /\
  exists y, evalf R Q2R Rplus Rmult Rpower Rtrigo_def.sin Rtrigo_def.cos Rtrigo_def.exp Rpower.ln
              (subs (add (sin x) (pow x (Integer 2))) "x" (Integer 5)) = Ok y.
Proof.
  refine (conj eq_refl (conj eq_refl (conj eq_refl (conj eq_refl _)))).
  apply subs_closed_evalf; reflexivity.
Defined.


Lemma prec_pos e : (1 <= prec e)%nat.
Proof. destruct e; simpl; try lia; match goal with |- context [if ?b then _ else _] => destruct b end; lia. Qed.

Lemma mul_body_Qred q l : mul_body (Qred q) l = mul_body q l.
Proof.
  unfold mul_body.
  assert (E : forall p, Qeq_bool (Qred q) p = Qeq_bool q p).
  { intros p. destruct (Qeq_bool q p) eqn:E1.
    - apply Qeq_bool_iff. rewrite Qred_correct. apply Qeq_bool_iff, E1.
    - apply Qeq_bool_false. rewrite Qred_correct. intros H. apply Qeq_bool_iff in H. congruence. }
  rewrite !E. unfold latex_num. rewrite Qred_idem. reflexivity.
Qed.

Lemma to_latex_mul_canon fs : canon (Mul fs) = true ->
  to_latex (Mul fs) =
  mul_body (num_prod fs) (map (fun f => wrap (needs_paren (Mul fs) f false) (to_latex f)) (non_nums fs)).
Proof.
  intros Hc. destruct (canon_mul_inv _ Hc) as [[(HF & _ & _) Hlen]|(c & q & rest & -> & Hq & _ & Hr & _ & _ & (HF & _ & _) & _)].
  - assert (HN : Forall (fun b => is_num b = false) fs) by (eapply Forall_impl; [|exact HF]; simpl; tauto).
    rewrite num_prod_non_num, non_nums_id by exact HN.
    destruct fs as [|c rest]; [simpl in Hlen; lia|]. inversion HN; subst.
    cbn [to_latex]. rewrite is_num_false_num_val by assumption. reflexivity.
  - assert (HN : Forall (fun b => is_num b = false) rest) by (eapply Forall_impl; [|exact HF]; simpl; tauto).
    assert (Hcn : is_num c = true) by (unfold is_num; rewrite Hq; reflexivity).
    assert (Hp : num_prod (c :: rest) = q).
    { unfold num_prod. cbn [fold_right]. rewrite Hq. fold (num_prod rest).
      rewrite num_prod_non_num by exact HN. apply qmul_1_r, Hr. }
    assert (Hn : non_nums (c :: rest) = rest).
    { unfold non_nums. cbn [filter]. rewrite Hcn. cbn [negb]. apply non_nums_id, HN. }
    rewrite Hp, Hn. cbn [to_latex]. rewrite Hq. reflexivity.
Qed.

Lemma to_latex_add_nonadd t ts : Forall (fun u => is_add u = false) ts ->
  to_latex (Add (t :: ts)) =
  (wrap (needs_paren (Add (t :: ts)) t false) (to_latex t) ++
   String.concat "" (map (fun u => let (neg, a) := sign_abs u in
                           (if neg then " - " else " + ") ++
                           wrap (needs_paren (Add (t :: ts)) a false) (to_latex a)) ts))%string.
Proof.
  intros HF. unfold needs_paren at 1. cbn [prec].
  replace (Nat.ltb (prec t) 1) with false by (symmetry; apply Nat.ltb_ge, prec_pos).
  cbn [to_latex wrap]. f_equal. f_equal. apply map_ext_in. intros u Hu.
  rewrite Forall_forall in HF. specialize (HF u Hu).
  unfold needs_paren. cbn [prec].
  destruct u as [s|z|n d|l|l|b a|f a]; try discriminate; cbn [sign_abs].
  - reflexivity.
  - destruct (z <? 0)%Z eqn:Ez; cbn [prec]; unfold wrap.
    + replace ((- z <? 0)%Z) with false by (symmetry; apply Z.ltb_ge; apply Z.ltb_lt in Ez; lia).
      reflexivity.
    + rewrite Ez. reflexivity.
  - destruct (n <? 0)%Z eqn:En; cbn [prec]; unfold wrap.
    + replace ((- n <? 0)%Z) with false by (symmetry; apply Z.ltb_ge; apply Z.ltb_lt in En; lia).
      reflexivity.
    + rewrite En. reflexivity.
  - destruct l as [|c fs]; [reflexivity|].
    destruct (num_val c) as [q|] eqn:Hc; [|cbn [prec to_latex]; rewrite Hc; reflexivity].
    destruct (Qnum q <? 0)%Z eqn:Eq; cbn [prec]; unfold wrap; cbn [Nat.ltb Nat.leb].
    + cbn [to_latex]. rewrite num_val_mk_num, mul_body_Qred. reflexivity.
    + cbn [to_latex]. rewrite Hc. reflexivity.
  - reflexivity.
  - reflexivity.
Qed.

(** C9: [to_latex] renders post-order: on a canonical tree, the text of
    every node is composed from the texts of its children, and a child is
    parenthesized exactly where [needs_paren] asks for it: the base of a
    power when its precedence is lower than or equal to that of [Pow] (a
    non-commutative position), a factor of a product or a term of a sum
    when its precedence is lower than that of its parent.  A product is its
    coefficient text then its factors separated by one space (implicit
    multiplication), and a term of a sum after the first renders as
    [+ magnitude] or, when negative, as [- magnitude].  For instance
    [to_latex(simplify((x+1)^2))] is [\left(1 + x\right)^{2}]. *)
Theorem to_latex_parenthesization :
  (let* s := simplify (pow (add x (Integer 1)) (Integer 2)) in Ok (to_latex s))
    = Ok "\left(1 + x\right)^{2}" /\
  (let* s := simplify (add (add (pow x (Integer 2)) (mul (Integer (-5)) x)) (Integer 6)) in Ok (to_latex s))
    = Ok "6 + x^{2} - 5 x" /\
  (let* s := simplify (mul (mul (Integer 3) x) y) in Ok (to_latex s)) = Ok "3 x y" /\
  (forall e, canon e = true ->
     (forall b a, e = Pow b a ->
        to_latex e = (wrap (needs_paren e b true) (to_latex b) ++ "^{" ++ to_latex a ++ "}")%string) /\
     (forall fs, e = Mul fs ->
        to_latex e = mul_body (num_prod fs)
                       (map (fun f => wrap (needs_paren e f false) (to_latex f)) (non_nums fs))) /\
     (forall t ts, e = Add (t :: ts) ->
        to_latex e =
        (wrap (needs_paren e t false) (to_latex t) ++
         String.concat "" (map (fun u => let (neg, a) := sign_abs u in
                                 (if neg then " - " else " + ") ++
                                 wrap (needs_paren e a false) (to_latex a)) ts))%string)).
Proof.
  split; [reflexivity|]. split; [reflexivity|]. split; [reflexivity|].
  intros e Hc. split; [|split].
  - intros b a ->. reflexivity.
  - intros fs ->. apply to_latex_mul_canon, Hc.
  - intros t ts ->. apply to_latex_add_nonadd.
    destruct (canon_add_inv _ Hc) as (HF & _). inversion HF as [|? ? _ HF']; subst.
    eapply Forall_impl; [|exact HF']. simpl. tauto.
Qed.

Lemma to_latex_parenthesization_witness :
  canon (Add [Integer 6; Pow x (Integer 2); Mul [Integer (-5); x]]) = true /\
  to_latex (Add [Integer 6; Pow x (Integer 2); Mul [Integer (-5); x]]) =
  (wrap false "6" ++ " + " ++ wrap false "x^{2}" ++ " - " ++ wrap false (to_latex (Mul [Integer 5; x])))%string.
Proof.
  assert (Hc : canon (Add [Integer 6; Pow x (Integer 2); Mul [Integer (-5); x]]) = true) by reflexivity.
  split; [exact Hc|].
  destruct to_latex_parenthesization as (_ & _ & _ & H).
  destruct (H _ Hc) as (_ & _ & H3).
  rewrite (H3 (Integer 6) [Pow x (Integer 2); Mul [Integer (-5); x]] eq_refl). reflexivity.
Defined.


(* ------------------------------------------------------------------ *)
(** ** Integrating and differentiating expanded polynomials *)












Lemma mk_num_zero' q : (q == 0)%Q -> mk_num q = Integer 0.
Proof. intros H. rewrite (mk_num_Qeq _ _ H). reflexivity. Qed.


















Lemma factor_ok_symbol v : factor_ok (Symbol v).
Proof. repeat split. Qed.






























(* ------------------------------------------------------------------ *)
(** ** Soundness of the polynomial view *)

Lemma pval_radd a : forall b x, pval (radd a b) x = (pval a x + pval b x)%R.
Proof.
  induction a as [|c a IH]; intros [|d b] x; simpl; try ring.
  rewrite IH. ring.
Qed.

Lemma pval_scale c b x : pval (map (fun d => c * (d * 1))%R b) x = (c * pval b x)%R.
Proof. induction b as [|d b IH]; simpl; [ring|]. rewrite IH. ring. Qed.

Lemma pval_rmul a b x : pval (rmul a b) x = (pval a x * pval b x)%R.
Proof.
  induction a as [|c a IH]; simpl; [ring|].
  rewrite pval_radd, pval_scale. simpl. rewrite IH. ring.
Qed.

Lemma pval_rpow a n x : pval (rpow a n) x = (pval a x ^ n)%R.
Proof.
  induction n as [|n IH]; unfold rpow in *; simpl; [ring|].
  rewrite pval_rmul, IH. reflexivity.
Qed.

Section PolySem.
Variable env : string -> R.
Variable fn : string -> R -> option R.
Local Open Scope R_scope.

Lemma eval_cadd a : forall b wa wb, Forall2 (eval env fn) a wa -> Forall2 (eval env fn) b wb ->
  Forall2 (eval env fn) (cadd a b) (radd wa wb).
Proof.
  induction a as [|c a IH]; intros b wa wb Ha Hb;
    inversion Ha as [|? wc ? wa' Hc Ha']; subst; [exact Hb|].
  destruct Hb as [|d wd b wb' Hd Hb']; [constructor; auto|].
  simpl. constructor; [|apply IH; auto].
  apply (ev_add env fn [c; d] [wc; wd]). repeat constructor; auto.
Qed.

Lemma eval_cscale c wc b wb : eval env fn c wc -> Forall2 (eval env fn) b wb ->
  Forall2 (eval env fn) (cscale c b) (map (fun d => wc * (d * 1)) wb).
Proof.
  intros Hc Hb. induction Hb as [|d w b wb Hd Hb IH]; simpl; constructor; auto.
  apply (ev_mul env fn [c; d] [wc; w]). repeat constructor; auto.
Qed.

Lemma eval_cmul a : forall b wa wb, Forall2 (eval env fn) a wa -> Forall2 (eval env fn) b wb ->
  Forall2 (eval env fn) (cmul a b) (rmul wa wb).
Proof.
  induction a as [|c a IH]; intros b wa wb Ha Hb; inversion Ha; subst; [constructor|].
  simpl. apply eval_cadd; [apply eval_cscale; auto|].
  constructor; [apply ev_int|]. apply IH; auto.
Qed.

Lemma eval_cpow a wa n : Forall2 (eval env fn) a wa -> Forall2 (eval env fn) (cpow a n) (rpow wa n).
Proof.
  intros Ha. induction n as [|n IH]; unfold cpow, rpow in *; simpl.
  - repeat constructor.
  - apply eval_cmul; auto.
Qed.

Lemma powerRZ_nat w n : (0 <= n)%Z -> powerRZ w n = w ^ Z.to_nat n.
Proof.
  intros Hn. destruct n as [|p|p]; simpl; [reflexivity|reflexivity|lia].
Qed.

Lemma pcoeffs_eq v e : pcoeffs v e =
  if free_of v e then Ok [e] else
  match e with
  | Symbol _ => Ok [Integer 0; Integer 1]
  | Add l => let* cs := mapM (pcoeffs v) l in Ok (fold_right cadd [] cs)
  | Mul l => let* cs := mapM (pcoeffs v) l in Ok (fold_right cmul [Integer 1] cs)
  | Pow b (Integer n) =>
      if (0 <=? n)%Z then let* cb := pcoeffs v b in Ok (cpow cb (Z.to_nat n))
      else Err NotPolynomial
  | _ => Err NotPolynomial
  end.
Proof. destruct e; reflexivity. Qed.

(** The coefficients built by [pcoeffs] are defined wherever the tree is,
    and they are its coefficients as a polynomial in [v]. *)
Lemma pcoeffs_sound v e : forall cs u, pcoeffs v e = Ok cs -> eval env fn e u ->
  exists ws, Forall2 (eval env fn) cs ws /\ u = pval ws (env v).
Proof.
  induction e as [s|z|n d|l IH|l IH|b e IHb IHe|f a IH] using Expr_ind';
    intros cs u Hp Hu; rewrite pcoeffs_eq in Hp;
    match type of Hp with context [free_of v ?t] => destruct (free_of v t) eqn:Hf end;
    try (injection Hp as <-; exists [u]; split; [repeat constructor; exact Hu|simpl; ring]);
    simpl in Hf; try discriminate Hf.
  - destruct (String.eqb s v) eqn:Es; [|discriminate]. apply String.eqb_eq in Es. subst s.
    injection Hp as <-. inversion Hu; subst. exists [0; 1]. split; [repeat constructor|simpl; ring].
  - destruct (mapM (pcoeffs v) l) as [css|err] eqn:Em; [|discriminate]. cbn [bind] in Hp.
    injection Hp as <-. inversion Hu as [| | |l' vs Hvs| | |]; subst.
    clear Hf Hu. revert css vs Em Hvs. induction l as [|t l IHl]; intros css vs Em Hvs.
    + injection Em as <-. inversion Hvs; subst. exists []. split; [constructor|reflexivity].
    + inversion IH as [|? ? Ht IH']; subst. inversion Hvs as [|? wt ? vs' Hwt Hvs']; subst.
      cbn [mapM] in Em. destruct (pcoeffs v t) as [ct|err] eqn:Et; [|discriminate]. cbn [bind] in Em.
      destruct (mapM (pcoeffs v) l) as [css'|err] eqn:El; [|discriminate]. cbn [bind] in Em.
      injection Em as <-.
      destruct (Ht ct wt eq_refl Hwt) as (wt' & Hct & ->).
      destruct (IHl IH' css' vs' eq_refl Hvs') as (ws & Hws & Hv).
      exists (radd wt' ws). split; [simpl; apply eval_cadd; auto|].
      rewrite pval_radd. unfold rsum in *. simpl. rewrite Hv. reflexivity.
  - destruct (mapM (pcoeffs v) l) as [css|err] eqn:Em; [|discriminate]. cbn [bind] in Hp.
    injection Hp as <-. inversion Hu as [| | | |l' vs Hvs| |]; subst.
    clear Hf Hu. revert css vs Em Hvs. induction l as [|t l IHl]; intros css vs Em Hvs.
    + injection Em as <-. inversion Hvs; subst. exists [1]. split; [repeat constructor|simpl; unfold rprod; simpl; ring].
    + inversion IH as [|? ? Ht IH']; subst. inversion Hvs as [|? wt ? vs' Hwt Hvs']; subst.
      cbn [mapM] in Em. destruct (pcoeffs v t) as [ct|err] eqn:Et; [|discriminate]. cbn [bind] in Em.
      destruct (mapM (pcoeffs v) l) as [css'|err] eqn:El; [|discriminate]. cbn [bind] in Em.
      injection Em as <-.
      destruct (Ht ct wt eq_refl Hwt) as (wt' & Hct & ->).
      destruct (IHl IH' css' vs' eq_refl Hvs') as (ws & Hws & Hv).
      exists (rmul wt' ws). split; [simpl; apply eval_cmul; auto|].
      rewrite pval_rmul. unfold rprod in *. simpl. rewrite Hv. reflexivity.
  - destruct e as [s|k|n d|l|l|b' e'|g a]; try discriminate.
    destruct (0 <=? k)%Z eqn:Hk; [|discriminate]. apply Z.leb_le in Hk.
    destruct (pcoeffs v b) as [cb|err] eqn:Eb; [|discriminate]. cbn [bind] in Hp.
    injection Hp as <-. inversion Hu as [| | | | |? ? vb w ? Hvb Hw Hpw|]; subst.
    inversion Hw; subst. apply pwr_int in Hpw as [_ ->].
    destruct (IHb cb vb eq_refl Hvb) as (wb & Hcb & ->).
    exists (rpow wb (Z.to_nat k)). split; [apply eval_cpow; auto|].
    rewrite pval_rpow. apply powerRZ_nat; exact Hk.
  - discriminate.
Qed.

Lemma mapM_simplify_eval cs cs' ws : mapM simplify cs = Ok cs' -> Forall2 (eval env fn) cs ws ->
  Forall2 (eval env fn) cs' ws.
Proof.
  intros Hm Hw. apply mapM_ok in Hm. revert ws Hw.
  induction Hm as [|c c' cs cs' Hc _ IH]; intros ws Hw;
    inversion Hw as [|? w ? ws' Hcw Hw']; subst; constructor; auto.
  destruct (simplify_sound env fn c w Hcw) as (s & Es & Hs). rewrite Hc in Es.
  injection Es as <-. exact Hs.
Qed.

Lemma strip_sound l ws : Forall2 (eval env fn) l ws ->
  exists ws', Forall2 (eval env fn) (strip l) ws' /\ forall x, pval ws' x = pval ws x.
Proof.
  induction 1 as [|c w l ws Hc Hl IH]; [exists []; split; [constructor|reflexivity]|].
  destruct IH as (ws' & Hs & Hv). simpl.
  destruct (strip l) as [|c' r'] eqn:E.
  - inversion Hs; subst. simpl in Hv.
    destruct c as [s|[|p|p]|n d|l'|l'|b e|f a]; try (exists [w]; split;
      [repeat constructor; exact Hc|intros x; simpl; rewrite <- Hv; ring]).
    exists []. split; [constructor|]. inversion Hc; subst. intros x. simpl. rewrite <- Hv. ring.
  - exists (w :: ws'). split; [constructor; auto|]. intros x. simpl. rewrite Hv. reflexivity.
Qed.

(** [poly_coeffs] is sound: its coefficients are defined wherever the
    tree is, and they are its coefficients as a polynomial in [v]. *)
Lemma poly_coeffs_sound v s cs u : poly_coeffs v s = Ok cs -> eval env fn s u ->
  exists ws, Forall2 (eval env fn) cs ws /\ u = pval ws (env v).
Proof.
  unfold poly_coeffs. intros Hp Hu.
  destruct (pcoeffs v s) as [cs0|err] eqn:E0; [|discriminate]. cbn [bind] in Hp.
  destruct (mapM simplify cs0) as [cs1|err] eqn:E1; [|discriminate]. cbn [bind] in Hp.
  destruct (pcoeffs_sound v s cs0 u E0 Hu) as (ws0 & Hw0 & ->).
  pose proof (mapM_simplify_eval cs0 cs1 ws0 E1 Hw0) as Hw1.
  destruct (strip_sound cs1 ws0 Hw1) as (ws2 & Hw2 & Hv).
  destruct (strip cs1) as [|c r] eqn:Es.
  - injection Hp as <-. inversion Hw2; subst. exists [0]. split; [repeat constructor|].
    rewrite <- Hv. simpl. ring.
  - injection Hp as <-. exists ws2. split; [exact Hw2|]. symmetry. apply Hv.
Qed.

End PolySem.

Lemma strip_incl l c : In c (strip l) -> In c l.
Proof.
  induction l as [|a l IH]; simpl; [tauto|].
  destruct (strip l) as [|b r] eqn:E.
  - destruct a as [s|[|p|p]|n d|l'|l'|b e|f a]; simpl; tauto.
  - intros [->|H]; [left; reflexivity|right; apply IH; exact H].
Qed.

Lemma strip_last l : strip l <> [] -> last (strip l) (Integer 0) <> Integer 0.
Proof.
  induction l as [|a l IH]; simpl; [tauto|].
  destruct (strip l) as [|b r] eqn:E.
  - destruct a as [s|[|p|p]|n d|l'|l'|b e|f a]; simpl; congruence.
  - intros _. specialize (IH ltac:(discriminate)). destruct r; exact IH.
Qed.

(** The coefficients of [poly_coeffs] are canonical, and the leading one
    is not zero unless the polynomial is the constant zero. *)
Lemma poly_coeffs_shape v s cs : poly_coeffs v s = Ok cs ->
  Forall (fun c => canon c = true) cs /\ (cs = [Integer 0] \/ last cs (Integer 0) <> Integer 0).
Proof.
  unfold poly_coeffs. intros Hp.
  destruct (pcoeffs v s) as [cs0|err] eqn:E0; [|discriminate]. cbn [bind] in Hp.
  destruct (mapM simplify cs0) as [cs1|err] eqn:E1; [|discriminate]. cbn [bind] in Hp.
  assert (Hc : Forall (fun c => canon c = true) cs1).
  { apply (mapM_Forall simplify _ cs0); [|exact E1]. apply Forall_forall. intros a _.
    apply simplify_canon. }
  pose proof (strip_last cs1) as Hl.
  assert (Hc' : Forall (fun c => canon c = true) (strip cs1)).
  { rewrite Forall_forall in *. intros c Hin. apply Hc, strip_incl, Hin. }
  destruct (strip cs1) as [|c r] eqn:Es.
  - injection Hp as <-. split; [repeat constructor|left; reflexivity].
  - injection Hp as <-. split; [exact Hc'|right; apply Hl; discriminate].
Qed.

(** A canonical number of value zero is the literal [0]. *)
Lemma canon_num_nz c q : canon c = true -> num_val c = Some q -> c <> Integer 0 -> ~ (q == 0)%Q.
Proof.
  intros Hc Hq Hnz Hz. apply Hnz. rewrite <- (mk_num_of_canon c q Hc Hq).
  apply mk_num_zero'. exact Hz.
Qed.

Lemma canon_num_mk c q : canon c = true -> num_val c = Some q -> c = mk_num q.
Proof. intros Hc Hq. symmetry. apply (mk_num_of_canon c q Hc Hq). Qed.


(* ------------------------------------------------------------------ *)
(** ** Closed forms of degree one and two *)

Lemma qsqrt_spec q r : qsqrt q = Some r -> (r * r == q)%Q /\ (0 <= r)%Q.
Proof.
  unfold qsqrt. pose proof (Qred_correct q) as Hq. destruct (Qred q) as [n d]. cbn [Qnum Qden].
  destruct ((0 <=? n)%Z && (Z.sqrt n * Z.sqrt n =? n)%Z && (Z.sqrt (Zpos d) * Z.sqrt (Zpos d) =? Zpos d)%Z)
    eqn:E; [|discriminate].
  intros H. injection H as <-.
  apply andb_true_iff in E as [E E3]. apply andb_true_iff in E as [E1 E2].
  apply Z.leb_le in E1. apply Z.eqb_eq in E2. apply Z.eqb_eq in E3.
  assert (Ht : (0 < Z.sqrt (Zpos d))%Z).
  { pose proof (Z.sqrt_nonneg (Zpos d)). destruct (Z.eq_dec (Z.sqrt (Zpos d)) 0) as [H0|H0].
    - rewrite H0 in E3. simpl in E3. discriminate.
    - lia. }
  split.
  - rewrite <- Hq. unfold Qeq, Qmult. cbn [Qnum Qden]. rewrite Pos2Z.inj_mul.
    change (Z.pos (Pos.sqrt d)) with (Z.sqrt (Z.pos d)). rewrite E2, E3. lia.
  - unfold Qle. cbn [Qnum Qden]. pose proof (Z.sqrt_nonneg n). lia.
Qed.

Lemma Q2R_neg_of q : (Qnum q <? 0)%Z = true -> (Q2R q < 0)%R.
Proof.
  intros H. apply Z.ltb_lt in H. rewrite <- RMicromega.Q2R_0. apply Qlt_Rlt.
  unfold Qlt. simpl. lia.
Qed.

Lemma Q2R_nonneg_of q : (Qnum q <? 0)%Z = false -> (0 <= Q2R q)%R.
Proof.
  intros H. apply Z.ltb_ge in H. rewrite <- RMicromega.Q2R_0. apply Qle_Rle.
  unfold Qle. simpl. lia.
Qed.

Lemma Q2R_nz q : ~ (q == 0)%Q -> Q2R q <> 0%R.
Proof. intros Hq H. apply Hq. apply eqR_Qeq. rewrite H, RMicromega.Q2R_0. reflexivity. Qed.

Lemma Q2R_zero_bool q : Q2R q = 0%R -> Qeq_bool q 0 = true.
Proof. intros H. apply Qeq_bool_iff. apply eqR_Qeq. rewrite H, RMicromega.Q2R_0. reflexivity. Qed.

Lemma quad_identity a b c w u : a <> 0%R -> (w * w = b ^ 2 - 4 * a * c)%R ->
  u = ((- b + w) / (2 * a))%R -> (a * u ^ 2 + b * u + c = 0)%R.
Proof.
  intros Ha Hw ->. field_simplify; [|exact Ha].
  replace (8 * a * c - 2 * b ^ 2 + 2 * w ^ 2)%R with 0%R by nra. field. exact Ha.
Qed.

Section QuadSem.
Variable env : string -> R.
Variable fn : string -> R -> option R.
Local Open Scope R_scope.

Lemma eval_neg e w : eval env fn e w -> eval env fn (Mul [Integer (-1); e]) (- w).
Proof.
  intros He. eapply eval_eq; [apply (ev_mul env fn _ [IZR (-1); w]); repeat constructor; auto|].
  unfold rprod. simpl. ring.
Qed.

Lemma eval_inv e w : eval env fn e w -> w <> 0 -> eval env fn (Pow e (Integer (-1))) (/ w).
Proof.
  intros He Hw. eapply ev_pow; [exact He|apply ev_int|]. apply pwr_int. split; [left; exact Hw|].
  simpl. field. exact Hw.
Qed.

Lemma neg_div_eval c0 c1 w0 w1 : eval env fn c0 w0 -> eval env fn c1 w1 -> w1 <> 0 ->
  exists r, neg_div c0 c1 = Ok r /\ eval env fn r (- w0 / w1).
Proof.
  intros H0 H1 Hw. unfold neg_div. apply simplify_sound.
  eapply eval_eq; [apply (ev_mul env fn _ [IZR (-1); w0; / w1]); repeat constructor;
    auto using eval_inv|].
  unfold rprod. simpl. field. exact Hw.
Qed.

Lemma disc_eval a b c wa wb wc : eval env fn a wa -> eval env fn b wb -> eval env fn c wc ->
  exists d, simplify (Add [Pow b (Integer 2); Mul [Integer (-4); a; c]]) = Ok d /\
            eval env fn d (wb ^ 2 - 4 * wa * wc).
Proof.
  intros Ha Hb Hc. apply simplify_sound.
  eapply eval_eq; [apply (ev_add env fn _ [powerRZ wb 2; -4 * (wa * (wc * 1))]); repeat constructor|].
  - eapply ev_pow; [exact Hb|apply ev_int|]. apply pwr_int. split; [right; lia|reflexivity].
  - eapply eval_eq; [apply (ev_mul env fn _ [IZR (-4); wa; wc]); repeat constructor; auto|].
    unfold rprod. simpl. reflexivity.
  - unfold rsum. simpl. ring.
Qed.

Lemma root_eval a b s wa wb w : eval env fn a wa -> eval env fn b wb -> eval env fn s w -> wa <> 0 ->
  exists r, simplify (Mul [Add [Mul [Integer (-1); b]; s]; Pow (Mul [Integer 2; a]) (Integer (-1))]) = Ok r
         /\ eval env fn r ((- wb + w) / (2 * wa)).
Proof.
  intros Ha Hb Hs Hw. apply simplify_sound.
  eapply eval_eq; [apply (ev_mul env fn _ [- wb + w; / (2 * wa)]); constructor; [|constructor; [|constructor]]|].
  - eapply eval_eq; [apply (ev_add env fn _ [- wb; w]); repeat constructor; auto using eval_neg|].
    unfold rsum. simpl. ring.
  - apply eval_inv; [|lra].
    eapply eval_eq; [apply (ev_mul env fn _ [IZR 2; wa]); repeat constructor; auto|].
    unfold rprod. simpl. ring.
  - unfold rprod. simpl. field. exact Hw.
Qed.

(** Square root of a discriminant [D > 0] as [quad_roots] builds it. *)
Lemma sqrt_disc_eval d D : eval env fn d D -> 0 < D ->
  eval env fn (Pow d (Rational 1 2)) (sqrt D).
Proof.
  intros Hd HD.
  eapply ev_pow; [exact Hd|apply ev_rat|]. right. split; [exact HD|].
  rewrite <- Rpower_sqrt by exact HD. f_equal. unfold Q2R. simpl. field.
Qed.

(** With a positive discriminant at the valuation, [quad_roots] returns
    the two roots of the quadratic formula. *)
Lemma quad_roots_pos a b c wa wb wc :
  eval env fn a wa -> eval env fn b wb -> eval env fn c wc -> wa <> 0 ->
  0 < wb ^ 2 - 4 * wa * wc ->
  exists r1 r2, quad_roots a b c = Ok [r1; r2] /\
    eval env fn r1 ((- wb - sqrt (wb ^ 2 - 4 * wa * wc)) / (2 * wa)) /\
    eval env fn r2 ((- wb + sqrt (wb ^ 2 - 4 * wa * wc)) / (2 * wa)).
Proof.
  intros Ha Hb Hc Hw HD. set (D := wb ^ 2 - 4 * wa * wc) in *.
  assert (Htwo : forall s, eval env fn s (sqrt D) ->
    exists r1 r2,
      (let* r1 := simplify (Mul [Add [Mul [Integer (-1); b]; Mul [Integer (-1); s]];
                                Pow (Mul [Integer 2; a]) (Integer (-1))]) in
       let* r2 := simplify (Mul [Add [Mul [Integer (-1); b]; s]; Pow (Mul [Integer 2; a]) (Integer (-1))]) in
       Ok [r1; r2]) = Ok [r1; r2] /\
      eval env fn r1 ((- wb - sqrt D) / (2 * wa)) /\ eval env fn r2 ((- wb + sqrt D) / (2 * wa))).
  { intros s Hs.
    destruct (root_eval a b _ wa wb _ Ha Hb (eval_neg s _ Hs) Hw) as (r1 & E1 & H1).
    destruct (root_eval a b s wa wb _ Ha Hb Hs Hw) as (r2 & E2 & H2).
    exists r1, r2. rewrite E1, E2. cbn [bind]. split; [reflexivity|].
    split; [|exact H2]. eapply eval_eq; [exact H1|]. unfold Rdiv. ring. }
  destruct (disc_eval a b c wa wb wc Ha Hb Hc) as (d & Ed & Hd). fold D in Hd.
  assert (Hsq : eval env fn (Pow d (Rational 1 2)) (sqrt D)) by (apply sqrt_disc_eval; auto).
  unfold quad_roots. cbv beta zeta. rewrite Ed. cbn [bind].
  destruct (num_val d) as [q|] eqn:Eq; [|apply Htwo; exact Hsq].
  apply (eval_num env fn d q D Eq) in Hd.
  destruct (Qeq_bool q 0) eqn:E0.
  { apply Q2R_eq_bool in E0. rewrite RMicromega.Q2R_0 in E0. lra. }
  destruct (Qnum q <? 0)%Z eqn:En.
  { apply Q2R_neg_of in En. lra. }
  destruct (qsqrt q) as [r|] eqn:Es; [|apply Htwo; exact Hsq].
  apply Htwo. apply qsqrt_spec in Es as [Hr Hr0].
  replace (sqrt D) with (Q2R r); [apply mk_num_eval|].
  symmetry. apply sqrt_lem_1; [lra| |].
  - rewrite <- RMicromega.Q2R_0. apply Qle_Rle. exact Hr0.
  - rewrite Hd, <- Q2R_mult. apply Qeq_eqR. exact Hr.
Qed.

End QuadSem.


Lemma disc_num q2 q1 q0 : exists d,
  simplify (Add [Pow (mk_num q1) (Integer 2); Mul [Integer (-4); mk_num q2; mk_num q0]]) = Ok (mk_num d).
Proof.
  cbn [simplify mapM].
  rewrite (simplify_num (mk_num q1) _ (num_val_mk_num q1)), (simplify_num (mk_num q2) _ (num_val_mk_num q2)),
    (simplify_num (mk_num q0) _ (num_val_mk_num q0)).
  cbn [bind]. destruct (mk_pow_num_pos (Qred q1) 2) as [q' E]; [lia|]. rewrite E. cbn [bind].
  rewrite norm_mul_nums by (repeat constructor; apply is_num_mk_num). cbn [bind].
  rewrite norm_add_nums by (repeat constructor; apply is_num_mk_num). eauto.
Qed.

(** [quad_roots] on rational coefficients, by the sign of the
    discriminant. *)
Lemma quad_roots_rat q2 q1 q0 : ~ (q2 == 0)%Q ->
  ((Q2R q1 ^ 2 - 4 * Q2R q2 * Q2R q0 < 0)%R ->
     quad_roots (mk_num q2) (mk_num q1) (mk_num q0) = Err NoRealRoot) /\
  ((Q2R q1 ^ 2 - 4 * Q2R q2 * Q2R q0 = 0)%R ->
     exists r, quad_roots (mk_num q2) (mk_num q1) (mk_num q0) = Ok [r] /\
       forall env fn, eval env fn r (- Q2R q1 / (2 * Q2R q2))%R) /\
  ((0 < Q2R q1 ^ 2 - 4 * Q2R q2 * Q2R q0)%R ->
     exists r1 r2, quad_roots (mk_num q2) (mk_num q1) (mk_num q0) = Ok [r1; r2] /\ forall env fn,
       eval env fn r1 ((- Q2R q1 - sqrt (Q2R q1 ^ 2 - 4 * Q2R q2 * Q2R q0)) / (2 * Q2R q2))%R /\
       eval env fn r2 ((- Q2R q1 + sqrt (Q2R q1 ^ 2 - 4 * Q2R q2 * Q2R q0)) / (2 * Q2R q2))%R).
Proof.
  intros Hq2. pose proof (Q2R_nz q2 Hq2) as Ha.
  set (env0 := fun _ : string => 0%R). set (fn0 := fun (_ : string) (_ : R) => @None R).
  destruct (disc_num q2 q1 q0) as [d Ed].
  assert (HD : Q2R (Qred d) = (Q2R q1 ^ 2 - 4 * Q2R q2 * Q2R q0)%R).
  { destruct (disc_eval env0 fn0 _ _ _ _ _ _ (mk_num_eval env0 fn0 q2) (mk_num_eval env0 fn0 q1)
      (mk_num_eval env0 fn0 q0)) as (d' & Ed' & Hd'). rewrite Ed in Ed'. injection Ed' as <-.
    apply (eval_num env0 fn0 _ (Qred d)) in Hd'; [|apply num_val_mk_num]. symmetry. exact Hd'. }
  rewrite <- HD.
  split; [|split].
  - intros Hneg. unfold quad_roots. cbv beta zeta. rewrite Ed. cbn [bind]. rewrite num_val_mk_num.
    destruct (Qeq_bool (Qred d) 0) eqn:E0.
    { apply Q2R_eq_bool in E0. rewrite RMicromega.Q2R_0 in E0. lra. }
    destruct (Qnum (Qred d) <? 0)%Z eqn:En; [reflexivity|].
    apply Q2R_nonneg_of in En. lra.
  - intros Hz. unfold quad_roots. cbv beta zeta. rewrite Ed. cbn [bind]. rewrite num_val_mk_num.
    rewrite (Q2R_zero_bool _ Hz).
    destruct (root_eval env0 fn0 (mk_num q2) (mk_num q1) (Integer 0) _ _ _ (mk_num_eval env0 fn0 q2)
      (mk_num_eval env0 fn0 q1) (ev_int env0 fn0 0) Ha) as (r & Er & _).
    exists r. rewrite Er. cbn [bind]. split; [reflexivity|]. intros env fn.
    destruct (root_eval env fn (mk_num q2) (mk_num q1) (Integer 0) _ _ _ (mk_num_eval env fn q2)
      (mk_num_eval env fn q1) (ev_int env fn 0) Ha) as (r' & Er' & Hr').
    rewrite Er in Er'. injection Er' as <-. eapply eval_eq; [exact Hr'|]. field. exact Ha.
  - intros Hpos. rewrite HD in Hpos |- *.
    destruct (quad_roots_pos env0 fn0 _ _ _ _ _ _ (mk_num_eval env0 fn0 q2) (mk_num_eval env0 fn0 q1)
      (mk_num_eval env0 fn0 q0) Ha Hpos) as (r1 & r2 & E & _).
    exists r1, r2. split; [exact E|]. intros env fn.
    destruct (quad_roots_pos env fn _ _ _ _ _ _ (mk_num_eval env fn q2) (mk_num_eval env fn q1)
      (mk_num_eval env fn q0) Ha Hpos) as (r1' & r2' & E' & H1 & H2).
    rewrite E in E'. injection E' as <- <-. auto.
Qed.

Lemma neg_div_num q0 q1 : ~ (q1 == 0)%Q -> neg_div (mk_num q0) (mk_num q1) = Ok (mk_num (- q0 / q1)).
Proof.
  intros H1. unfold neg_div. cbn [simplify mapM].
  rewrite (simplify_num (mk_num q1) _ (num_val_mk_num q1)), (simplify_num (mk_num q0) _ (num_val_mk_num q0)).
  cbn [bind]. rewrite (mk_pow_num_inv (Qred q1)) by (rewrite Qred_correct; exact H1). cbn [bind].
  rewrite norm_mul_nums by (repeat constructor; apply is_num_mk_num).
  f_equal. apply mk_num_Qeq. unfold num_prod. simpl. rewrite !num_val_mk_num. unfold qmul.
  rewrite !Qred_correct. field. exact H1.
Qed.

Lemma solve_deg1 e v s c0 c1 : simplify e = Ok s -> poly_coeffs v s = Ok [c0; c1] ->
  solve e v = (let* r := neg_div c0 c1 in Ok [r]).
Proof. intros Hs Hp. unfold solve. rewrite Hs. cbn [bind]. rewrite Hp. reflexivity. Qed.

Lemma solve_deg2 e v s c0 c1 c2 : simplify e = Ok s -> poly_coeffs v s = Ok [c0; c1; c2] ->
  solve e v = quad_roots c2 c1 c0.
Proof. intros Hs Hp. unfold solve. rewrite Hs. cbn [bind]. rewrite Hp. reflexivity. Qed.

Lemma update_same env v w : update env v w v = w.
Proof. unfold update. rewrite String.eqb_refl. reflexivity. Qed.

(** The value of a polynomial of degree one or two in terms of the values
    of its coefficients. *)
Lemma deg1_value env fn v s c0 c1 w0 w1 u : poly_coeffs v s = Ok [c0; c1] ->
  eval env fn c0 w0 -> eval env fn c1 w1 -> eval env fn s u -> u = (w0 + w1 * env v)%R.
Proof.
  intros Hp H0 H1 Hu. destruct (poly_coeffs_sound env fn v s _ u Hp Hu) as (ws & Hws & ->).
  inversion Hws as [|? w0' ? ? Hw0 Hws']; subst. inversion Hws' as [|? w1' ? ? Hw1 Hws'']; subst.
  inversion Hws''; subst.
  rewrite (eval_det env fn c0 w0' w0 Hw0 H0), (eval_det env fn c1 w1' w1 Hw1 H1). simpl. ring.
Qed.

Lemma deg2_value env fn v s c0 c1 c2 w0 w1 w2 u : poly_coeffs v s = Ok [c0; c1; c2] ->
  eval env fn c0 w0 -> eval env fn c1 w1 -> eval env fn c2 w2 -> eval env fn s u ->
  u = (w0 + w1 * env v + w2 * env v ^ 2)%R.
Proof.
  intros Hp H0 H1 H2 Hu. destruct (poly_coeffs_sound env fn v s _ u Hp Hu) as (ws & Hws & ->).
  inversion Hws as [|? w0' ? ? Hw0 Hws']; subst. inversion Hws' as [|? w1' ? ? Hw1 Hws'']; subst.
  inversion Hws'' as [|? w2' ? ? Hw2 Hws3]; subst. inversion Hws3; subst.
  rewrite (eval_det env fn c0 w0' w0 Hw0 H0), (eval_det env fn c1 w1' w1 Hw1 H1),
    (eval_det env fn c2 w2' w2 Hw2 H2). simpl. ring.
Qed.

(** Rational coefficients of [poly_coeffs] are the literals of their
    values, and the leading one is not zero. *)
Lemma deg1_rat v s c0 c1 q0 q1 : poly_coeffs v s = Ok [c0; c1] ->
  num_val c0 = Some q0 -> num_val c1 = Some q1 ->
  c0 = mk_num q0 /\ c1 = mk_num q1 /\ ~ (q1 == 0)%Q.
Proof.
  intros Hp H0 H1. destruct (poly_coeffs_shape v s _ Hp) as (Hc & Hl).
  inversion Hc as [|? ? Hc0 Hc']; subst. inversion Hc' as [|? ? Hc1 _]; subst.
  split; [apply canon_num_mk; auto|]. split; [apply canon_num_mk; auto|].
  apply (canon_num_nz c1); auto. destruct Hl as [Hl|Hl]; [discriminate|exact Hl].
Qed.

Lemma deg2_rat v s c0 c1 c2 q0 q1 q2 : poly_coeffs v s = Ok [c0; c1; c2] ->
  num_val c0 = Some q0 -> num_val c1 = Some q1 -> num_val c2 = Some q2 ->
  c0 = mk_num q0 /\ c1 = mk_num q1 /\ c2 = mk_num q2 /\ ~ (q2 == 0)%Q.
Proof.
  intros Hp H0 H1 H2. destruct (poly_coeffs_shape v s _ Hp) as (Hc & Hl).
  inversion Hc as [|? ? Hc0 Hc']; subst. inversion Hc' as [|? ? Hc1 Hc'']; subst.
  inversion Hc'' as [|? ? Hc2 _]; subst.
  split; [apply canon_num_mk; auto|]. split; [apply canon_num_mk; auto|].
  split; [apply canon_num_mk; auto|].
  apply (canon_num_nz c2); auto. destruct Hl as [Hl|Hl]; [discriminate|exact Hl].
Qed.


(** C4 (counterexample): [x^2 + 1] is a polynomial of degree 2 in [x],
    yet [solve] yields no root: its discriminant is negative and complex
    roots are rejected with [NoRealRoot], the policy chosen among the two
    the spec allows. *)
Lemma solve_complex_roots_counterexample :
  simplify (add (pow x (integer 2)) (integer 1)) = Ok (Add [Integer 1; Pow x (Integer 2)]) /\
  poly_coeffs "x" (Add [Integer 1; Pow x (Integer 2)]) = Ok [Integer 1; Integer 0; Integer 1] /\
  solve (add (pow x (integer 2)) (integer 1)) "x" = Err NoRealRoot.
Proof. vm_compute. repeat split. Qed.

(** Claim C4 (corrected): [solve(x^2 - 5x + 6, x)] returns exactly
    [2; 3] and [solve(x - 3, x)] returns [3].  When the canonical form
    [s] of [e] has the coefficients [c0; c1] in [v] (degree one), [s] has
    the value [c0 + c1 v], and [solve e v] is the single root [-c0/c1]
    wherever [c1] is not zero; with rational coefficients it is exactly
    the rational [-c0/c1], at which [s] vanishes.  When [s] has the
    coefficients [c0; c1; c2] (degree two), [s] has the value
    [c0 + c1 v + c2 v^2]; wherever [c2] is not zero and the discriminant
    [D = c1^2 - 4 c2 c0] is positive, [solve] returns the two roots
    [(-c1 -+ sqrt D) / (2 c2)]; with rational coefficients it fails with
    [NoRealRoot] when [D < 0], returns the one root [-c1 / (2 c2)] when
    [D = 0] and the two roots above when [D > 0], and [s] vanishes at
    each of them. *)
Theorem solve_closed_forms :
  solve (add (add (pow x (integer 2)) (mul (integer (-5)) x)) (integer 6)) "x" = Ok [Integer 2; Integer 3] /\
  solve (sub x (integer 3)) "x" = Ok [Integer 3] /\
  (forall e v s c0 c1, simplify e = Ok s -> poly_coeffs v s = Ok [c0; c1] ->
     (forall env fn w0 w1, eval env fn c0 w0 -> eval env fn c1 w1 ->
        (forall u, eval env fn s u -> u = (w0 + w1 * env v)%R) /\
        (w1 <> 0%R -> exists r, solve e v = Ok [r] /\ eval env fn r (- w0 / w1)%R)) /\
     (forall q0 q1, num_val c0 = Some q0 -> num_val c1 = Some q1 ->
        ~ (q1 == 0)%Q /\ solve e v = Ok [mk_num (- q0 / q1)] /\
        (forall env fn u, eval (update env v (Q2R (- q0 / q1))) fn s u -> u = 0%R))) /\
  (forall e v s c0 c1 c2, simplify e = Ok s -> poly_coeffs v s = Ok [c0; c1; c2] ->
     (forall env fn w0 w1 w2, eval env fn c0 w0 -> eval env fn c1 w1 -> eval env fn c2 w2 ->
        (forall u, eval env fn s u -> u = (w0 + w1 * env v + w2 * env v ^ 2)%R) /\
        (w2 <> 0%R -> (0 < w1 ^ 2 - 4 * w2 * w0)%R ->
           exists r1 r2, solve e v = Ok [r1; r2] /\
             eval env fn r1 ((- w1 - sqrt (w1 ^ 2 - 4 * w2 * w0)) / (2 * w2))%R /\
             eval env fn r2 ((- w1 + sqrt (w1 ^ 2 - 4 * w2 * w0)) / (2 * w2))%R)) /\
     (forall q0 q1 q2, num_val c0 = Some q0 -> num_val c1 = Some q1 -> num_val c2 = Some q2 ->
        ~ (q2 == 0)%Q /\
        ((Q2R q1 ^ 2 - 4 * Q2R q2 * Q2R q0 < 0)%R -> solve e v = Err NoRealRoot) /\
        ((Q2R q1 ^ 2 - 4 * Q2R q2 * Q2R q0 = 0)%R ->
           exists r, solve e v = Ok [r] /\ forall env fn, eval env fn r (- Q2R q1 / (2 * Q2R q2))%R) /\
        ((0 < Q2R q1 ^ 2 - 4 * Q2R q2 * Q2R q0)%R ->
           exists r1 r2, solve e v = Ok [r1; r2] /\ forall env fn,
             eval env fn r1 ((- Q2R q1 - sqrt (Q2R q1 ^ 2 - 4 * Q2R q2 * Q2R q0)) / (2 * Q2R q2))%R /\
             eval env fn r2 ((- Q2R q1 + sqrt (Q2R q1 ^ 2 - 4 * Q2R q2 * Q2R q0)) / (2 * Q2R q2))%R) /\
        ((0 <= Q2R q1 ^ 2 - 4 * Q2R q2 * Q2R q0)%R -> forall env fn w u,
           (w = (- Q2R q1 - sqrt (Q2R q1 ^ 2 - 4 * Q2R q2 * Q2R q0)) / (2 * Q2R q2) \/
            w = (- Q2R q1 + sqrt (Q2R q1 ^ 2 - 4 * Q2R q2 * Q2R q0)) / (2 * Q2R q2))%R ->
           eval (update env v w) fn s u -> u = 0%R))).
Proof.
  split; [vm_compute; reflexivity|]. split; [vm_compute; reflexivity|]. split.
  - intros e v s c0 c1 Hs Hp. split.
    + intros env fn w0 w1 H0 H1. split; [intros u Hu; exact (deg1_value env fn v s c0 c1 w0 w1 u Hp H0 H1 Hu)|].
      intros Hw. destruct (neg_div_eval env fn c0 c1 w0 w1 H0 H1 Hw) as (r & Er & Hr).
      exists r. rewrite (solve_deg1 e v s c0 c1 Hs Hp), Er. split; [reflexivity|exact Hr].
    + intros q0 q1 H0 H1. destruct (deg1_rat v s c0 c1 q0 q1 Hp H0 H1) as (-> & -> & Hq).
      split; [exact Hq|]. split.
      * rewrite (solve_deg1 e v s _ _ Hs Hp), (neg_div_num q0 q1 Hq). reflexivity.
      * intros env fn u Hu.
        rewrite (deg1_value _ fn v s _ _ _ _ u Hp (mk_num_eval _ fn q0) (mk_num_eval _ fn q1) Hu).
        rewrite update_same. pose proof (Q2R_nz q1 Hq).
        rewrite Q2R_div by exact Hq. rewrite Q2R_opp. field. assumption.
  - intros e v s c0 c1 c2 Hs Hp. split.
    + intros env fn w0 w1 w2 H0 H1 H2.
      split; [intros u Hu; exact (deg2_value env fn v s c0 c1 c2 w0 w1 w2 u Hp H0 H1 H2 Hu)|].
      intros Hw HD. rewrite (solve_deg2 e v s c0 c1 c2 Hs Hp). apply quad_roots_pos; auto.
    + intros q0 q1 q2 H0 H1 H2. destruct (deg2_rat v s c0 c1 c2 q0 q1 q2 Hp H0 H1 H2) as (-> & -> & -> & Hq).
      rewrite (solve_deg2 e v s _ _ _ Hs Hp). destruct (quad_roots_rat q2 q1 q0 Hq) as (Hn & Hz & Hpos).
      split; [exact Hq|]. split; [exact Hn|]. split; [exact Hz|]. split; [exact Hpos|].
      intros HD env fn w u Hw Hu.
      rewrite (deg2_value _ fn v s _ _ _ _ _ _ u Hp (mk_num_eval _ fn q0) (mk_num_eval _ fn q1)
        (mk_num_eval _ fn q2) Hu).
      rewrite update_same. pose proof (Q2R_nz q2 Hq) as Ha. pose proof (sqrt_sqrt _ HD) as Hsq.
      set (D := (Q2R q1 ^ 2 - 4 * Q2R q2 * Q2R q0)%R) in *.
      assert (Hr : forall t, (t * t = D)%R -> w = ((- Q2R q1 + t) / (2 * Q2R q2))%R ->
                   (Q2R q0 + Q2R q1 * w + Q2R q2 * w ^ 2 = 0)%R).
      { intros t Ht Hwt. pose proof (quad_identity (Q2R q2) (Q2R q1) (Q2R q0) t w Ha Ht Hwt). lra. }
      destruct Hw as [Hw|Hw].
      * apply (Hr (- sqrt D)%R); [transitivity (sqrt D * sqrt D)%R; [ring|exact Hsq]|rewrite Hw; unfold Rminus; reflexivity].
      * apply (Hr (sqrt D)); [exact Hsq|exact Hw].
Qed.

Lemma solve_closed_forms_witness :
  solve (add x (integer 2)) "x" = Ok [mk_num (- inject_Z 2 / inject_Z 1)] /\
  exists r1 r2, solve (add (pow x (integer 2)) (integer (-2))) "x" = Ok [r1; r2].
Proof.
  destruct solve_closed_forms as (_ & _ & Hd1 & Hd2). split.
  - assert (H1 : simplify (add x (integer 2)) = Ok (Add [Integer 2; Symbol "x"])) by (vm_compute; reflexivity).
    assert (H2 : poly_coeffs "x" (Add [Integer 2; Symbol "x"]) = Ok [Integer 2; Integer 1])
      by (vm_compute; reflexivity).
    destruct (Hd1 _ _ _ _ _ H1 H2) as (_ & Hq).
    destruct (Hq (inject_Z 2) (inject_Z 1) eq_refl eq_refl) as (_ & Hs & _). exact Hs.
  - assert (H1 : simplify (add (pow x (integer 2)) (integer (-2))) =
                 Ok (Add [Integer (-2); Pow (Symbol "x") (Integer 2)])) by (vm_compute; reflexivity).
    assert (H2 : poly_coeffs "x" (Add [Integer (-2); Pow (Symbol "x") (Integer 2)]) =
                 Ok [Integer (-2); Integer 0; Integer 1]) by (vm_compute; reflexivity).
    destruct (Hd2 _ _ _ _ _ _ H1 H2) as (_ & Hq).
    destruct (Hq (inject_Z (-2)) (inject_Z 0) (inject_Z 1) eq_refl eq_refl eq_refl) as (_ & _ & _ & Hpos & _).
    destruct Hpos as (r1 & r2 & Hs & _); [rewrite !Q2R_inject_Z; simpl; lra|].
    exists r1, r2. exact Hs.
Defined.
